(** * mysql-sniffer-go: framer, COM_QUERY decoder, tokenizer, canonicalizer,
      OK-packet decoder, latency aggregation and the per-flow state machine.

    Shallow embedding of [mysql-sniffer.go] and [mysql_parser.go].
    Go byte slices are [list Z] (every element in 0..255); Go strings built
    from bytes are byte lists as well.  A Go runtime panic (index out of
    range) or a [log.Fatalf] is an explicit outcome where it can occur. *)

From Stdlib Require Import ZArith Bool Lia String Ascii List.
Import ListNotations.
Open Scope Z_scope.

Abbreviation byte := Z.

(** ** Byte helpers *)

(** Bytes of an ASCII string literal (used for test inputs and fixed text). *)
Definition bytes_of (s : string) : list byte :=
  map (fun a => Z.of_nat (nat_of_ascii a)) (list_ascii_of_string s).

(** Go's [s[i:]] for an in-range [i]. *)
Definition drop (n : nat) (l : list byte) : list byte := skipn n l.

Fixpoint all_bytes (p : byte -> bool) (l : list byte) : bool :=
  match l with
  | [] => true
  | b :: r => p b && all_bytes p r
  end.

Fixpoint mem_byte (b : byte) (l : list byte) : bool :=
  match l with
  | [] => false
  | c :: r => (c =? b) || mem_byte b r
  end.

(** Byte lists compared for equality (Go [==] on strings). *)
Fixpoint bytes_eqb (x y : list byte) : bool :=
  match x, y with
  | [], [] => true
  | a :: x', b :: y' => (a =? b) && bytes_eqb x' y'
  | _, _ => false
  end.

Lemma bytes_eqb_eq : forall x y, bytes_eqb x y = true <-> x = y.
Proof.
  induction x as [|a x IH]; destruct y as [|b y]; simpl; try easy.
  rewrite andb_true_iff, IH, Z.eqb_eq. split.
  - intros [-> ->]; reflexivity.
  - intros H; injection H; auto.
Qed.

(** ** go-mysql: [mysql.LengthEncodedInt]

    The library function used by [parseComQuery] and [parseOKPacket]:
    an empty slice gives [(0, true, 0)]; [0xfb] is NULL; [0xfc], [0xfd],
    [0xfe] prefix a 2, 3 or 8 byte little-endian value, read with unchecked
    indexing (a short slice panics, [None] here); any other first byte is
    the value itself. *)
Fixpoint le_value (l : list byte) : Z :=
  match l with
  | [] => 0
  | b :: r => b + 256 * le_value r
  end.

Definition LengthEncodedInt (b : list byte) : option (Z * bool * nat) :=
  match b with
  | [] => Some (0, true, 0%nat)
  | b0 :: rest =>
      let fixed k := if (k <=? length rest)%nat
                     then Some (le_value (firstn k rest), false, S k)
                     else None in
      if b0 =? 251 then Some (0, true, 1%nat)
      else if b0 =? 252 then fixed 2%nat
      else if b0 =? 253 then fixed 3%nat
      else if b0 =? 254 then fixed 8%nat
      else Some (b0, false, 1%nat)
  end.

(** ** Wire framer: [carvePacket]

    [uint32(len(buf))] wraps modulo 2^32; the size is the 24-bit
    little-endian header.  [Error] leaves the buffer untouched; on success
    the result is the command byte, [buf[5:size+4]] and the remaining
    buffer ([nil] when everything was consumed). *)
Inductive carve_result :=
| CarveErr (msg : string)
| CarveOk (pType : byte) (data : list byte).

(** Returns the result and the new contents of [*buf]. *)
Definition carvePacket (buf : list byte) : carve_result * list byte :=
  let dataLen := Z.of_nat (length buf) mod 2 ^ 32 in
  if dataLen <? 5 then (CarveErr "buffer too small for MySQL packet header", buf)
  else
    let size := nth 0 buf 0 + Z.shiftl (nth 1 buf 0) 8 + Z.shiftl (nth 2 buf 0) 16 in
    if (size =? 0) || (dataLen <? size + 4) then (CarveErr "incomplete MySQL packet", buf)
    else
      let end_ := size + 4 in
      let pType := nth 4 buf 0 in
      let data := firstn (Z.to_nat size - 1) (drop 5 buf) in
      let buf' := if end_ >=? dataLen then [] else drop (Z.to_nat end_) buf in
      (CarveOk pType data, buf').

(** The pcap handle is opened with a snapshot length of 1 MiB
    ([pcap.OpenLive(eth, 1024*1024, ...)]): every buffer handed to the
    framer is one captured payload, so it is at most this long. *)
Definition snaplen : Z := 1048576.

(** ** Command payload decoder: [parseComQuery] *)
Inductive com_query_error :=
| ErrEmptyData
| ErrMissingParamSetCount
| ErrParamSetCountNull
| ErrParamsUnsupported (paramCount : Z)
| ErrMissingQueryText.

Inductive outcome (A E : Type) :=
| Ret (a : A)
| Fail (e : E)
| Panic.
Arguments Ret {A E} a.
Arguments Fail {A E} e.
Arguments Panic {A E}.

Definition parseComQuery (data : list byte) : outcome (list byte) com_query_error :=
  match data with
  | [] => Fail ErrEmptyData
  | firstByte :: _ =>
      if (firstByte <? 32) || (firstByte >=? 251) then
        match LengthEncodedInt data with
        | None => Panic
        | Some (paramCount, isNull, bytesRead) =>
            if isNull || (bytesRead =? 0)%nat then Ret data
            else
              let offset := bytesRead in
              if (length data <=? offset)%nat then Fail ErrMissingParamSetCount
              else
                match LengthEncodedInt (drop offset data) with
                | None => Panic
                | Some (_, isNull2, bytesRead2) =>
                    if isNull2 then Fail ErrParamSetCountNull
                    else
                      let offset := (offset + bytesRead2)%nat in
                      if paramCount >? 0 then Fail (ErrParamsUnsupported paramCount)
                      else if (length data <=? offset)%nat then Fail ErrMissingQueryText
                      else Ret (drop offset data)
                end
        end
      else Ret data
  end.

(** Scenario 5 and 6 of the specification. *)
Example carve_hello :
  carvePacket ([6; 0; 0; 0; 3] ++ bytes_of "hello") = (CarveOk 3 (bytes_of "hello"), []).
Proof. reflexivity. Qed.

Example com_query_attrs :
  parseComQuery ([0; 1] ++ bytes_of "select * from users where id = 1")
  = Ret (bytes_of "select * from users where id = 1").
Proof. reflexivity. Qed.

(** ** Claims about the framer *)

Definition is_byte (b : byte) : Prop := 0 <= b < 256.

(** The 24-bit little-endian payload length of a header. *)
Definition header_len (B : list byte) : Z :=
  nth 0 B 0 + 256 * nth 1 B 0 + 65536 * nth 2 B 0.

Lemma nth_byte_nonneg (B : list byte) (i : nat) :
  Forall is_byte B -> 0 <= nth i B 0.
Proof.
  intros H. destruct (Nat.lt_ge_cases i (length B)) as [Hi|Hi].
  - rewrite Forall_nth in H. destruct (H i 0 Hi). lia.
  - rewrite nth_overflow by lia. lia.
Qed.

(** C3.  For every buffer given to the framer (a captured payload of at
    most [snaplen] bytes): fewer than 5 bytes, a zero declared length L,
    or fewer than L + 4 bytes give an error and leave the buffer as it
    was; otherwise the command byte is B[4], the payload is the L - 1
    bytes after it, and exactly the first L + 4 bytes are removed. *)
Theorem carvePacket_contract (B : list byte)
  (Hbytes : Forall is_byte B) (Hcap : Z.of_nat (length B) <= snaplen) :
  let L := header_len B in
  ((length B < 5)%nat \/ L = 0 \/ Z.of_nat (length B) < L + 4 ->
     exists msg, carvePacket B = (CarveErr msg, B))
  /\
  (~ ((length B < 5)%nat \/ L = 0 \/ Z.of_nat (length B) < L + 4) ->
     exists data,
       carvePacket B = (CarveOk (nth 4 B 0) data, skipn (Z.to_nat L + 4) B)
       /\ data = firstn (Z.to_nat L - 1) (skipn 5 B)
       /\ length data = (Z.to_nat L - 1)%nat
       /\ B = firstn (Z.to_nat L + 4) B ++ skipn (Z.to_nat L + 4) B).
Proof.
  intros L. unfold carvePacket.
  assert (Hmod : Z.of_nat (length B) mod 2 ^ 32 = Z.of_nat (length B)).
  { apply Z.mod_small. unfold snaplen in Hcap. lia. }
  rewrite Hmod.
  assert (Hsize : nth 0 B 0 + Z.shiftl (nth 1 B 0) 8 + Z.shiftl (nth 2 B 0) 16 = L).
  { unfold L, header_len. rewrite !Z.shiftl_mul_pow2 by lia.
    change (2 ^ 8) with 256. change (2 ^ 16) with 65536. lia. }
  rewrite Hsize.
  assert (HL : 0 <= L).
  { unfold L, header_len.
    pose proof (nth_byte_nonneg B 0 Hbytes). pose proof (nth_byte_nonneg B 1 Hbytes).
    pose proof (nth_byte_nonneg B 2 Hbytes). lia. }
  split.
  - intros Hinc.
    destruct (Z.of_nat (length B) <? 5) eqn:E1; [eexists; reflexivity|].
    destruct ((L =? 0) || (Z.of_nat (length B) <? L + 4)) eqn:E2; [eexists; reflexivity|].
    exfalso. apply Z.ltb_ge in E1. apply orb_false_iff in E2 as [E2 E3].
    apply Z.eqb_neq in E2. apply Z.ltb_ge in E3. lia.
  - intros Hok.
    assert (E1 : (Z.of_nat (length B) <? 5) = false) by (apply Z.ltb_ge; lia).
    assert (E2 : ((L =? 0) || (Z.of_nat (length B) <? L + 4)) = false).
    { apply orb_false_iff; split; [apply Z.eqb_neq | apply Z.ltb_ge]; lia. }
    rewrite E1, E2. eexists. split; [|split; [reflexivity|split]].
    + f_equal. unfold drop.
      destruct (L + 4 >=? Z.of_nat (length B)) eqn:E3.
      * apply Z.geb_le in E3. rewrite skipn_all2; [reflexivity | lia].
      * f_equal. lia.
    + rewrite length_firstn, length_skipn. lia.
    + symmetry. apply firstn_skipn.
Qed.

(** ** Claims about the COM_QUERY decoder *)


Lemma Forall_skipn' {A} (P : A -> Prop) k l : Forall P l -> Forall P (skipn k l).
Proof.
  revert l; induction k as [|k IH]; intros [|x l] H; simpl; auto.
  inversion H; subst; auto.
Qed.




(** The decoder as the claim words it (used only to exhibit where the code
    departs from it): in 0x00..=0x1F or 0xFB..=0xFE, read two
    length-encoded counts, return the remainder when the first is zero and
    fail when it is not; otherwise return the whole payload.  [None] where
    the claim says nothing (empty payload, truncated counts). *)
Definition decode_com_query_claimed (data : list byte)
  : option (outcome (list byte) com_query_error) :=
  match data with
  | [] => None
  | b :: _ =>
      if (b <=? 31) || ((251 <=? b) && (b <=? 254)) then
        match LengthEncodedInt data with
        | Some (pc, _, n1) =>
            match LengthEncodedInt (drop n1 data) with
            | Some (_, _, n2) =>
                Some (if pc =? 0 then Ret (drop (n1 + n2) data)
                      else Fail (ErrParamsUnsupported pc))
            | None => None
            end
        | None => None
        end
      else Some (Ret data)
  end.


(** The first byte 0xFF lies outside both ranges of the source comment
    ("< 0x20 or in 0xfb-0xfe range") but the test [firstByte >= 0xfb]
    sends it down the query-attributes path. *)
Example parseComQuery_ff_first_byte :
  parseComQuery [255; 0; 65] = Fail (ErrParamsUnsupported 255)
  /\ decode_com_query_claimed [255; 0; 65] = Some (Ret [255; 0; 65]).
Proof. split; reflexivity. Qed.


(** ** Witnesses for the framer and decoder claims *)

Definition hello_frame : list byte := [6; 0; 0; 0; 3] ++ bytes_of "hello".

Lemma carvePacket_contract_witness :
  exists data, carvePacket hello_frame = (CarveOk 3 data, [])
               /\ length data = 5%nat.
Proof.
  assert (Hb : Forall is_byte hello_frame)
    by (repeat constructor; unfold is_byte; lia).
  assert (Hc : Z.of_nat (length hello_frame) <= snaplen) by (vm_compute; discriminate).
  destruct (carvePacket_contract hello_frame Hb Hc) as [_ Hok].
  destruct Hok as [data [E [_ [Hlen _]]]].
  - vm_compute. intros [H | [H | H]]; [lia | discriminate | discriminate].
  - exists data. split; [exact E | exact Hlen].
Defined.



(** ** Query canonicalizer: [scanToken] and [cleanupQuery] *)

Inductive tokty :=
| TOKEN_WORD
| TOKEN_QUOTE
| TOKEN_NUMBER
| TOKEN_WHITESPACE
| TOKEN_OTHER.

Definition is_digit (b : byte) : bool := (48 <=? b) && (b <=? 57).
Definition is_ws (b : byte) : bool := (b =? 32) || ((9 <=? b) && (b <=? 13)).
Definition is_alpha (b : byte) : bool :=
  ((65 <=? b) && (b <=? 90)) || ((97 <=? b) && (b <=? 122)).
Definition is_word_cont (b : byte) : bool :=
  is_digit b || is_alpha b || (b =? 36) || (b =? 95).
Definition is_quote (b : byte) : bool := (b =? 39) || (b =? 34).

(** [for i := 1; i < len(query); i++ { if !p(query[i]) { return i } }; return len(query)],
    over the bytes [l = query[i:]]. *)
Fixpoint scan_while (p : byte -> bool) (l : list byte) (i : nat) : nat :=
  match l with
  | [] => i
  | c :: r => if p c then scan_while p r (S i) else i
  end.

(** The quoted-string loop of [scanToken]: a byte equal to the opening
    quote ends the token unless the previous byte set [escaped]; a
    backslash (92) sets [escaped]; any other byte clears it. *)
Fixpoint scan_quote (started_with : byte) (escaped : bool) (l : list byte) (i : nat) : nat :=
  match l with
  | [] => i
  | c :: r =>
      if c =? started_with then
        if escaped then scan_quote started_with false r (S i) else S i
      else if c =? 92 then scan_quote started_with true r (S i)
      else scan_quote started_with false r (S i)
  end.

(** [scanToken]; the flag is [verbose && noclean].  [None] is the
    [log.Fatalf] on an empty query. *)
Definition scanToken (noclean_mode : bool) (query : list byte) : option (nat * tokty) :=
  match query with
  | [] => None
  | b :: rest =>
      if noclean_mode then Some (length query, TOKEN_OTHER)
      else if is_quote b then Some (scan_quote b false rest 1, TOKEN_QUOTE)
      else if is_digit b then Some (scan_while is_digit rest 1, TOKEN_NUMBER)
      else if is_ws b then Some (scan_while is_ws rest 1, TOKEN_WHITESPACE)
      else if is_alpha b then Some (scan_while is_word_cont rest 1, TOKEN_WORD)
      else Some (1%nat, TOKEN_OTHER)
  end.

(** The token loop of [cleanupQuery]: [scanToken(query[i:])], then
    [i += length].  The fuel is the length of the query; every token has
    length at least one, so it never runs out (see [scanToken_progress]). *)
Fixpoint scan_tokens (noclean_mode : bool) (fuel : nat) (q : list byte)
  : list (tokty * list byte) :=
  match fuel with
  | O => []
  | S f =>
      match q with
      | [] => []
      | _ =>
          match scanToken noclean_mode q with
          | None => []
          | Some (len, ty) => (ty, firstn len q) :: scan_tokens noclean_mode f (skipn len q)
          end
      end
  end.

(** What [cleanupQuery] appends to [qspace] for one token. *)
Definition emit (t : tokty * list byte) : list byte :=
  match fst t with
  | TOKEN_WORD | TOKEN_OTHER => snd t
  | TOKEN_NUMBER | TOKEN_QUOTE => [63]
  | TOKEN_WHITESPACE => [32]
  end.

(** [strings.Join(qspace, "")]. *)
Definition joined (noclean_mode : bool) (q : list byte) : list byte :=
  concat (map emit (scan_tokens noclean_mode (length q) q)).

Fixpoint index_of (sep : byte) (s : list byte) : option nat :=
  match s with
  | [] => None
  | c :: r => if c =? sep then Some 0%nat
              else match index_of sep r with Some k => Some (S k) | None => None end
  end.

(** [strings.SplitN(s, sep, n)] for a one-byte separator. *)
Fixpoint SplitN (n : nat) (sep : byte) (s : list byte) : list (list byte) :=
  match n with
  | O => []
  | S O => [s]
  | S n' =>
      match index_of sep s with
      | None => [s]
      | Some m => firstn m s :: SplitN n' sep (skipn (S m) s)
      end
  end.

Definition SP : byte := 32.
Definition COLON : byte := 58.

(** The route rewrite of [cleanupQuery]: [parts := strings.SplitN(tmp, " ", 5)];
    when [len(parts) >= 5 && parts[1] == "/*" && parts[3] == "*/"] and
    [parts[2]] contains [":"], keep only what follows the first colon. *)
Definition route_strip (tmp : list byte) : list byte :=
  let parts := SplitN 5 SP tmp in
  if (5 <=? length parts)%nat && bytes_eqb (nth 1 parts []) (bytes_of "/*")
     && bytes_eqb (nth 3 parts []) (bytes_of "*/") then
    if mem_byte COLON (nth 2 parts []) then
      nth 0 parts [] ++ bytes_of " /* " ++ nth 1 (SplitN 2 COLON (nth 2 parts [])) []
        ++ bytes_of " */ " ++ nth 4 parts []
    else tmp
  else tmp.

(** [strings.ReplaceAll(tmp, "?, ", "")]: leftmost, non-overlapping. *)
Fixpoint replace_qcs (s : list byte) : list byte :=
  match s with
  | a :: ((b :: c :: r) as t) =>
      if (a =? 63) && (b =? 44) && (c =? 32) then replace_qcs r else a :: replace_qcs t
  | a :: t => a :: replace_qcs t
  | [] => []
  end.

Definition cleanupQuery (noclean_mode : bool) (query : list byte) : list byte :=
  replace_qcs (route_strip (joined noclean_mode query)).

(** Canonicalization as the default configuration runs it (not the
    [-v -n] debug mode). *)
Definition canonicalize (query : list byte) : list byte := cleanupQuery false query.

(** Scenarios 1 to 4 of the specification, and the tests of the source. *)
Example canon_scenario_1 :
  canonicalize (bytes_of "select * from table where col=1")
  = bytes_of "select * from table where col=?".
Proof. vm_compute. reflexivity. Qed.

Example canon_scenario_3 :
  canonicalize (bytes_of "select *" ++ [10] ++ bytes_of "from" ++ [10; 10; 10] ++ bytes_of "table")
  = bytes_of "select * from table".
Proof. vm_compute. reflexivity. Qed.

Example canon_scenario_4 :
  canonicalize (bytes_of "SELECT /* localhost:route1 */ * FROM users")
  = bytes_of "SELECT /* route1 */ * FROM users".
Proof. vm_compute. reflexivity. Qed.

Example canon_test_escaped_quote :
  canonicalize (bytes_of "select * from table where col='" ++ [92; 39; 39])
  = bytes_of "select * from table where col=?".
Proof. vm_compute. reflexivity. Qed.

(** ** Progress of the tokenizer *)

Lemma scan_while_bounds (p : byte -> bool) (l : list byte) (i : nat) :
  (i <= scan_while p l i <= i + length l)%nat.
Proof.
  revert i; induction l as [|c r IH]; intros i; simpl; [lia|].
  destruct (p c); [specialize (IH (S i)); lia | lia].
Qed.

Lemma scan_quote_bounds (sw : byte) (esc : bool) (l : list byte) (i : nat) :
  (i <= scan_quote sw esc l i <= i + length l)%nat.
Proof.
  revert esc i; induction l as [|c r IH]; intros esc i; simpl; [lia|].
  destruct (c =? sw); [destruct esc; [specialize (IH false (S i)); lia | lia]|].
  destruct (c =? 92); [specialize (IH true (S i)) | specialize (IH false (S i))]; lia.
Qed.

Lemma scanToken_bounds (nm : bool) (q : list byte) :
  q <> [] ->
  exists len ty, scanToken nm q = Some (len, ty) /\ (1 <= len <= length q)%nat.
Proof.
  destruct q as [|b rest]; [congruence|]. intros _. unfold scanToken.
  destruct nm; [do 2 eexists; split; [reflexivity|]; simpl; lia|].
  destruct (is_quote b);
    [do 2 eexists; split; [reflexivity|]; pose proof (scan_quote_bounds b false rest 1); simpl; lia|].
  destruct (is_digit b);
    [do 2 eexists; split; [reflexivity|]; pose proof (scan_while_bounds is_digit rest 1); simpl; lia|].
  destruct (is_ws b);
    [do 2 eexists; split; [reflexivity|]; pose proof (scan_while_bounds is_ws rest 1); simpl; lia|].
  destruct (is_alpha b);
    [do 2 eexists; split; [reflexivity|]; pose proof (scan_while_bounds is_word_cont rest 1); simpl; lia|].
  do 2 eexists; split; [reflexivity|]; simpl; lia.
Qed.

Lemma scan_tokens_cover (nm : bool) (f : nat) (q : list byte) :
  (length q <= f)%nat -> concat (map snd (scan_tokens nm f q)) = q.
Proof.
  revert q; induction f as [|f IH]; intros q Hf.
  - destruct q; [reflexivity | simpl in Hf; lia].
  - destruct q as [|b rest]; [reflexivity|].
    destruct (scanToken_bounds nm (b :: rest) ltac:(discriminate)) as [len [ty [E Hb]]].
    cbn [scan_tokens]. rewrite E. cbn [map concat snd].
    rewrite IH.
    + apply firstn_skipn.
    + rewrite length_skipn. lia.
Qed.

(** C10.  On every non-empty input [scanToken] returns a token whose
    length is at least 1 and at most the input's length (in both modes);
    hence the token loop of [cleanupQuery], run with the query's length as
    its bound, consumes the whole query. *)
Theorem scanToken_progress (noclean_mode : bool) (q : list byte) :
  q <> [] ->
  (exists len ty, scanToken noclean_mode q = Some (len, ty) /\ (1 <= len <= length q)%nat)
  /\ concat (map snd (scan_tokens noclean_mode (length q) q)) = q.
Proof.
  intros Hq. split.
  - apply scanToken_bounds, Hq.
  - apply scan_tokens_cover. lia.
Qed.

(** ** Tokenizing a concatenation

    In the default mode a token of [p] either stops strictly inside [p]
    (and then what follows [p] is never looked at) or runs to the end of
    [p]; in the second case it still stops there when the next byte cannot
    continue it.  This makes the token list of [p ++ y] the token lists of
    [p] and of [y] side by side. *)

Definition toks (q : list byte) : list (tokty * list byte) := scan_tokens false (length q) q.

Lemma scan_tokens_fuel (nm : bool) (f g : nat) (q : list byte) :
  (length q <= f)%nat -> (length q <= g)%nat -> scan_tokens nm f q = scan_tokens nm g q.
Proof.
  revert g q; induction f as [|f IH]; intros g q Hf Hg.
  - destruct q; [destruct g; reflexivity | simpl in Hf; lia].
  - destruct q as [|b rest]; [destruct g; reflexivity|].
    destruct g as [|g]; [simpl in Hg; lia|].
    destruct (scanToken_bounds nm (b :: rest) ltac:(discriminate)) as [len [ty [E Hb]]].
    cbn [scan_tokens]. rewrite E. f_equal. apply IH; rewrite length_skipn; lia.
Qed.

Lemma scan_while_stable (p : byte -> bool) (l y : list byte) (i : nat) :
  (scan_while p l i < i + length l)%nat -> scan_while p (l ++ y) i = scan_while p l i.
Proof.
  revert i; induction l as [|c r IH]; intros i H; simpl in *; [lia|].
  destruct (p c); [apply IH; lia | reflexivity].
Qed.

Lemma scan_while_full (p : byte -> bool) (l y : list byte) (i : nat) :
  scan_while p l i = (i + length l)%nat ->
  (y = [] \/ p (hd 0 y) = false) ->
  scan_while p (l ++ y) i = (i + length l)%nat.
Proof.
  revert i; induction l as [|c r IH]; intros i H Hy; simpl in *.
  - destruct Hy as [-> | Hy]; [simpl; lia|].
    destruct y as [|d y]; simpl in *; [lia | rewrite Hy; lia].
  - destruct (p c).
    + rewrite IH; [lia | lia | exact Hy].
    + lia.
Qed.

Lemma scan_while_all (p : byte -> bool) (l : list byte) (i : nat) :
  all_bytes p l = true -> scan_while p l i = (i + length l)%nat.
Proof.
  revert i; induction l as [|c r IH]; intros i H; simpl in *; [lia|].
  apply andb_true_iff in H as [H1 H2]. rewrite H1, IH by exact H2. lia.
Qed.

Lemma scan_quote_stable (sw : byte) (esc : bool) (l y : list byte) (i : nat) :
  (scan_quote sw esc l i < i + length l)%nat -> scan_quote sw esc (l ++ y) i = scan_quote sw esc l i.
Proof.
  revert esc i; induction l as [|c r IH]; intros esc i H; simpl in *; [lia|].
  destruct (c =? sw); [destruct esc; [apply IH; lia | reflexivity]|].
  destruct (c =? 92); apply IH; lia.
Qed.

(** Whether the quoted-string loop ends at a closing quote (rather than by
    running out of bytes). *)
Fixpoint quote_closes (sw : byte) (escaped : bool) (l : list byte) : bool :=
  match l with
  | [] => false
  | c :: r =>
      if c =? sw then (if escaped then quote_closes sw false r else true)
      else if c =? 92 then quote_closes sw true r
      else quote_closes sw false r
  end.

Lemma scan_quote_closed (sw : byte) (esc : bool) (l y : list byte) (i : nat) :
  quote_closes sw esc l = true -> scan_quote sw esc (l ++ y) i = scan_quote sw esc l i.
Proof.
  revert esc i; induction l as [|c r IH]; intros esc i H; simpl in *; [discriminate|].
  destruct (c =? sw); [destruct esc; [apply IH; exact H | reflexivity]|].
  destruct (c =? 92); apply IH; exact H.
Qed.

(** Can a token of kind [t] (with its bytes) be continued by [next]? *)
Definition tok_closed (t : tokty * list byte) (next : byte) : bool :=
  match t with
  | (TOKEN_WORD, _) => negb (is_word_cont next)
  | (TOKEN_NUMBER, _) => negb (is_digit next)
  | (TOKEN_WHITESPACE, _) => negb (is_ws next)
  | (TOKEN_OTHER, _) => true
  | (TOKEN_QUOTE, c :: body) => quote_closes c false body
  | (TOKEN_QUOTE, []) => false
  end.

Fixpoint last_tok (ts : list (tokty * list byte)) : option (tokty * list byte) :=
  match ts with
  | [] => None
  | [t] => Some t
  | _ :: ts' => last_tok ts'
  end.

(** [p] ends on a token boundary when the byte [next] follows it: its last
    token is neither continued by [next] nor an unterminated string. *)
Definition ends_clean (p : list byte) (next : byte) : bool :=
  match last_tok (toks p) with
  | None => true
  | Some t => tok_closed t next
  end.

Lemma scanToken_app_inner (q y : list byte) (k : nat) (ty : tokty) :
  scanToken false q = Some (k, ty) -> (k < length q)%nat ->
  scanToken false (q ++ y) = Some (k, ty).
Proof.
  destruct q as [|b rest]; [discriminate|]. cbn [scanToken app length].
  intros E Hk.
  destruct (is_quote b); [|destruct (is_digit b); [|destruct (is_ws b); [|destruct (is_alpha b)]]];
    injection E as <- <-; try reflexivity.
  - rewrite scan_quote_stable by lia. reflexivity.
  - rewrite scan_while_stable by lia. reflexivity.
  - rewrite scan_while_stable by lia. reflexivity.
  - rewrite scan_while_stable by lia. reflexivity.
Qed.

Lemma scanToken_app_full (q y : list byte) (ty : tokty) :
  scanToken false q = Some (length q, ty) ->
  tok_closed (ty, q) (hd 0 y) = true \/ y = [] ->
  scanToken false (q ++ y) = Some (length q, ty).
Proof.
  intros E Hy. destruct Hy as [Hy | ->]; [|rewrite app_nil_r; exact E].
  destruct q as [|b rest]; [discriminate|]. cbn [scanToken app length] in *.
  destruct (is_quote b) eqn:Hq; [|destruct (is_digit b) eqn:Hd; [|destruct (is_ws b) eqn:Hw; [|destruct (is_alpha b) eqn:Ha]]];
    injection E as E <-; simpl in Hy.
  - rewrite scan_quote_closed by exact Hy. rewrite E. reflexivity.
  - rewrite scan_while_full; [reflexivity | lia | right; now apply negb_true_iff].
  - rewrite scan_while_full; [reflexivity | lia | right; now apply negb_true_iff].
  - rewrite scan_while_full; [reflexivity | lia | right; now apply negb_true_iff].
  - destruct rest; [reflexivity | simpl in E; lia].
Qed.

Lemma toks_step (q : list byte) (k : nat) (ty : tokty) :
  scanToken false q = Some (k, ty) ->
  toks q = (ty, firstn k q) :: toks (skipn k q).
Proof.
  intros E. destruct q as [|b r]; [discriminate|].
  destruct (scanToken_bounds false (b :: r) ltac:(discriminate)) as [k' [ty' [E' Hk]]].
  rewrite E in E'. injection E' as <- <-.
  unfold toks at 1. cbn [length scan_tokens]. rewrite E. f_equal.
  apply scan_tokens_fuel; rewrite length_skipn; cbn [length] in *; lia.
Qed.

Lemma toks_nil : toks [] = [].
Proof. reflexivity. Qed.

Lemma toks_first (t y : list byte) (ty : tokty) :
  scanToken false (t ++ y) = Some (length t, ty) ->
  toks (t ++ y) = (ty, t) :: toks y.
Proof.
  intros E. rewrite (toks_step _ _ _ E).
  rewrite firstn_app, skipn_app, Nat.sub_diag, firstn_all, skipn_all, firstn_O, skipn_O, app_nil_r. reflexivity.
Qed.

Lemma last_tok_cons (t : tokty * list byte) (ts : list (tokty * list byte)) :
  ts <> [] -> last_tok (t :: ts) = last_tok ts.
Proof. destruct ts; [congruence | reflexivity]. Qed.

Lemma toks_app (p y : list byte) :
  ends_clean p (hd 0 y) = true -> toks (p ++ y) = toks p ++ toks y.
Proof.
  remember (length p) as n eqn:Hn. revert p Hn.
  induction n as [n IH] using lt_wf_ind; intros p Hn Hc.
  destruct y as [|c y']; [rewrite !app_nil_r; reflexivity|].
  destruct p as [|b r]; [reflexivity|].
  destruct (scanToken_bounds false (b :: r) ltac:(discriminate)) as [k [ty [E Hk]]].
  rewrite (toks_step _ _ _ E).
  assert (Hcases : (k < length (b :: r))%nat \/ k = length (b :: r)) by lia.
  destruct Hcases as [Hlt | Heq].
  - rewrite (toks_step _ _ _ (scanToken_app_inner _ (c :: y') _ _ E Hlt)).
    rewrite firstn_app, skipn_app.
    replace (k - length (b :: r))%nat with O by lia. rewrite firstn_O, skipn_O, app_nil_r.
    rewrite <- app_comm_cons. f_equal. apply (IH (length (skipn k (b :: r)))); [rewrite length_skipn; lia | reflexivity |].
    destruct (skipn k (b :: r)) as [|d s] eqn:Es.
    + apply (f_equal (@length byte)) in Es. rewrite length_skipn in Es. cbn [length] in Es, Hlt. lia.
    + unfold ends_clean in Hc |- *. rewrite (toks_step _ _ _ E), Es in Hc.
      destruct (scanToken_bounds false (d :: s) ltac:(discriminate)) as [k2 [ty2 [E2 _]]].
      rewrite last_tok_cons in Hc; [exact Hc|]. rewrite (toks_step _ _ _ E2). discriminate.
  - subst k. rewrite firstn_all, skipn_all, toks_nil.
    assert (Hcl : tok_closed (ty, b :: r) c = true).
    { unfold ends_clean in Hc. rewrite (toks_step _ _ _ E), firstn_all, skipn_all, toks_nil in Hc. exact Hc. }
    rewrite (toks_first _ _ _ (scanToken_app_full _ (c :: y') _ E (or_introl Hcl))). reflexivity.
Qed.

Lemma joined_toks (q : list byte) : joined false q = concat (map emit (toks q)).
Proof. reflexivity. Qed.

Lemma joined_app (p y : list byte) :
  ends_clean p (hd 0 y) = true -> joined false (p ++ y) = joined false p ++ joined false y.
Proof.
  intros H. rewrite !joined_toks, toks_app by exact H. rewrite map_app, concat_app. reflexivity.
Qed.

(** ** What a token looks like *)

(** The kind [scanToken] gives a token, read off its first byte. *)
Definition tok_class (b : byte) : tokty :=
  if is_quote b then TOKEN_QUOTE
  else if is_digit b then TOKEN_NUMBER
  else if is_ws b then TOKEN_WHITESPACE
  else if is_alpha b then TOKEN_WORD
  else TOKEN_OTHER.

Lemma scanToken_class (b : byte) (r : list byte) (k : nat) (ty : tokty) :
  scanToken false (b :: r) = Some (k, ty) -> ty = tok_class b.
Proof.
  cbn [scanToken]. unfold tok_class.
  destruct (is_quote b), (is_digit b), (is_ws b), (is_alpha b); intros E; injection E; auto.
Qed.

Lemma toks_shape (q : list byte) :
  Forall (fun t => exists b r, snd t = b :: r /\ fst t = tok_class b) (toks q).
Proof.
  unfold toks. remember (length q) as f eqn:Ef. assert (Hf : (length q <= f)%nat) by lia. clear Ef.
  revert q Hf; induction f as [|f IH]; intros q Hf; [constructor|].
  destruct q as [|b r]; [constructor|].
  destruct (scanToken_bounds false (b :: r) ltac:(discriminate)) as [k [ty [E Hk]]].
  cbn [scan_tokens]. rewrite E. constructor.
  - destruct k as [|k]; [lia|]. exists b, (firstn k r). split; [reflexivity|].
    exact (scanToken_class _ _ _ _ E).
  - apply IH. rewrite length_skipn. cbn [length] in *. lia.
Qed.

Lemma all_bytes_app (p : byte -> bool) (l1 l2 : list byte) :
  all_bytes p (l1 ++ l2) = all_bytes p l1 && all_bytes p l2.
Proof. induction l1 as [|b l1 IH]; simpl; [reflexivity | rewrite IH, andb_assoc; reflexivity]. Qed.

Lemma all_bytes_concat (p : byte -> bool) (ls : list (list byte)) :
  all_bytes p (concat ls) = true <-> Forall (fun l => all_bytes p l = true) ls.
Proof.
  induction ls as [|l ls IH]; simpl; [split; auto|].
  rewrite all_bytes_app, andb_true_iff, IH. split; [intros [? ?]; auto | intros H; inversion H; auto].
Qed.

Lemma toks_bytes (p : byte -> bool) (q : list byte) :
  all_bytes p q = true -> Forall (fun t => all_bytes p (snd t) = true) (toks q).
Proof.
  intros H. rewrite <- (scan_tokens_cover false (length q) q (le_n _)) in H.
  apply all_bytes_concat in H. apply Forall_map in H. exact H.
Qed.

(** Every byte of the cleaned text is a byte of the query, a [?] or a
    space. *)
Lemma joined_bytes (p : byte -> bool) (q : list byte) :
  p 63 = true -> p 32 = true -> all_bytes p q = true -> all_bytes p (joined false q) = true.
Proof.
  intros H63 H32 Hq. rewrite joined_toks. apply all_bytes_concat, Forall_map.
  eapply Forall_impl; [|exact (toks_bytes p q Hq)].
  intros [ty bs] Hb. unfold emit; simpl in *. destruct ty; simpl; rewrite ?H63, ?H32; auto.
Qed.

Definition not_ws (b : byte) : bool := negb (is_ws b).
Definition plain (b : byte) : bool := negb (is_ws b) && negb (is_quote b).

Lemma plain_class (b : byte) :
  plain b = true -> tok_class b <> TOKEN_WHITESPACE /\ tok_class b <> TOKEN_QUOTE.
Proof.
  unfold plain, tok_class. destruct (is_quote b), (is_ws b); simpl; try discriminate.
  destruct (is_digit b), (is_alpha b); split; discriminate.
Qed.

(** A query with no whitespace byte cleans to a text with no space. *)
Lemma joined_no_space (q : list byte) :
  all_bytes plain q = true -> all_bytes (fun b => negb (b =? SP)) (joined false q) = true.
Proof.
  intros Hq. rewrite joined_toks. apply all_bytes_concat, Forall_map.
  pose proof (toks_bytes plain q Hq) as Hb. pose proof (toks_shape q) as Hs.
  rewrite Forall_forall in Hb, Hs |- *. intros [ty bs] Hin.
  specialize (Hb _ Hin). specialize (Hs _ Hin). simpl in Hb, Hs.
  destruct Hs as [b [r [-> ->]]]. simpl in Hb. apply andb_true_iff in Hb as [Hb1 Hb2].
  destruct (plain_class b Hb1) as [Hw Hq'].
  unfold emit; simpl. destruct (tok_class b); try reflexivity; try congruence.
  - simpl. rewrite andb_true_iff; split.
    + unfold plain, is_ws in Hb1. apply negb_true_iff. apply Z.eqb_neq. intros ->. discriminate.
    + clear - Hb2. induction r as [|c r IH]; simpl in *; [reflexivity|].
      apply andb_true_iff in Hb2 as [H1 H2]. rewrite IH by exact H2.
      unfold plain, is_ws in H1. destruct (c =? SP) eqn:E; [apply Z.eqb_eq in E; subst; discriminate | reflexivity].
  - simpl. rewrite andb_true_iff; split.
    + unfold plain, is_ws in Hb1. apply negb_true_iff. apply Z.eqb_neq. intros ->. discriminate.
    + clear - Hb2. induction r as [|c r IH]; simpl in *; [reflexivity|].
      apply andb_true_iff in Hb2 as [H1 H2]. rewrite IH by exact H2.
      unfold plain, is_ws in H1. destruct (c =? SP) eqn:E; [apply Z.eqb_eq in E; subst; discriminate | reflexivity].
Qed.

Lemma last_tok_In (ts : list (tokty * list byte)) (t : tokty * list byte) :
  last_tok ts = Some t -> In t ts.
Proof.
  induction ts as [|t0 ts IH]; simpl; [discriminate|].
  destruct ts as [|t1 ts']; [intros [=]; auto | intros H; right; auto].
Qed.

(** A text without whitespace or quote bytes ends on a token boundary
    before any byte that does not continue a word. *)
Lemma ends_clean_plain (p : list byte) (c : byte) :
  all_bytes plain p = true -> is_word_cont c = false -> ends_clean p c = true.
Proof.
  intros Hp Hc. unfold ends_clean. destruct (last_tok (toks p)) as [[ty bs]|] eqn:E; [|reflexivity].
  apply last_tok_In in E.
  pose proof (proj1 (Forall_forall _ _) (toks_shape p) _ E) as [b [r [Hbs Hty]]].
  pose proof (proj1 (Forall_forall _ _) (toks_bytes plain p Hp) _ E) as Hb.
  simpl in *. subst. simpl in Hb. apply andb_true_iff in Hb as [Hb _].
  destruct (plain_class b Hb) as [Hw Hq].
  unfold tok_closed. destruct (tok_class b) eqn:Ec; try congruence; try reflexivity.
  - rewrite Hc. reflexivity.
  - unfold is_word_cont in Hc. destruct (is_digit c); [discriminate | reflexivity].
Qed.

(** ** [SplitN], the route rewrite and [ReplaceAll] over a concatenation *)

Fixpoint count_byte (b : byte) (l : list byte) : nat :=
  match l with
  | [] => O
  | c :: r => Nat.add (if Z.eqb c b then 1%nat else 0%nat) (count_byte b r)
  end.

(** Append [B] to the last field of a split. *)
Fixpoint app_last (ls : list (list byte)) (B : list byte) : list (list byte) :=
  match ls with
  | [] => []
  | [x] => [x ++ B]
  | x :: r => x :: app_last r B
  end.

Lemma index_of_app_some (sep : byte) (A B : list byte) (m : nat) :
  index_of sep A = Some m -> index_of sep (A ++ B) = Some m.
Proof.
  revert m; induction A as [|c A IH]; intros m; simpl; [discriminate|].
  destruct (c =? sep); [auto|].
  destruct (index_of sep A) as [k|]; [intros [= <-]; rewrite (IH k eq_refl); reflexivity | discriminate].
Qed.

Lemma index_of_split (sep : byte) (A : list byte) (m : nat) :
  index_of sep A = Some m ->
  firstn (S m) A = firstn m A ++ [sep] /\ count_byte sep A = S (count_byte sep (skipn (S m) A)).
Proof.
  revert m; induction A as [|c A IH]; intros m; simpl; [discriminate|].
  destruct (c =? sep) eqn:E.
  - intros [= <-]. apply Z.eqb_eq in E. subst. simpl. split; reflexivity.
  - destruct (index_of sep A) as [k|]; [intros [= <-] | discriminate].
    destruct (IH k eq_refl) as [H1 H2]. split.
    + change (c :: firstn (S k) A = c :: (firstn k A ++ [sep])). rewrite H1. reflexivity.
    + exact H2.
Qed.

Lemma index_of_count (sep : byte) (A : list byte) :
  (1 <= count_byte sep A)%nat -> exists m, index_of sep A = Some m.
Proof.
  induction A as [|c A IH]; simpl; [lia|].
  destruct (c =? sep); [eauto|]. intros H. destruct (IH H) as [m ->]. eauto.
Qed.

Lemma index_of_after (sep : byte) (X Y : list byte) :
  mem_byte sep X = false -> index_of sep (X ++ sep :: Y) = Some (length X).
Proof.
  induction X as [|c X IH]; simpl; [rewrite Z.eqb_refl; reflexivity|].
  intros H. apply orb_false_iff in H as [H1 H2]. rewrite H1, IH by exact H2. reflexivity.
Qed.

Lemma SplitN_app (n : nat) (A B : list byte) :
  (n <= count_byte SP A)%nat ->
  SplitN (S n) SP (A ++ B) = app_last (SplitN (S n) SP A) B /\ length (SplitN (S n) SP A) = S n.
Proof.
  revert A; induction n as [|n IH]; intros A Hn; [split; reflexivity|].
  destruct (index_of_count SP A ltac:(lia)) as [m Hm].
  pose proof (index_of_split SP A m Hm) as [Hf Hc].
  assert (HmA : (S m <= length A)%nat).
  { destruct (Nat.le_gt_cases (S m) (length A)) as [|Hlt]; [assumption|].
    rewrite firstn_all2 in Hf by lia. apply (f_equal (@length byte)) in Hf.
    rewrite length_app, length_firstn in Hf. simpl in Hf. lia. }
  destruct (IH (skipn (S m) A) ltac:(lia)) as [H1 H2].
  change (SplitN (S (S n)) SP (A ++ B)) with
    (match index_of SP (A ++ B) with
     | None => [A ++ B]
     | Some m => firstn m (A ++ B) :: SplitN (S n) SP (skipn (S m) (A ++ B)) end).
  change (SplitN (S (S n)) SP A) with
    (match index_of SP A with
     | None => [A]
     | Some m => firstn m A :: SplitN (S n) SP (skipn (S m) A) end).
  rewrite (index_of_app_some _ _ _ _ Hm), Hm.
  rewrite firstn_app, skipn_app.
  replace (m - length A)%nat with O by lia. replace (S m - length A)%nat with O by lia.
  rewrite firstn_O, skipn_O, app_nil_r, H1. split; [|cbn [length]; rewrite H2; reflexivity].
  destruct (SplitN (S n) SP (skipn (S m) A)) eqn:E; [simpl in H2; discriminate | reflexivity].
Qed.

Lemma SplitN_field (sep : byte) (n : nat) (X Y : list byte) :
  mem_byte sep X = false -> SplitN (S (S n)) sep (X ++ sep :: Y) = X :: SplitN (S n) sep Y.
Proof.
  intros H.
  change (SplitN (S (S n)) sep (X ++ sep :: Y)) with
    (match index_of sep (X ++ sep :: Y) with
     | None => [X ++ sep :: Y]
     | Some m => firstn m (X ++ sep :: Y) :: SplitN (S n) sep (skipn (S m) (X ++ sep :: Y)) end).
  rewrite index_of_after by exact H.
  rewrite firstn_app, skipn_app, Nat.sub_diag, firstn_all, firstn_O, app_nil_r.
  replace (S (length X) - length X)%nat with 1%nat by lia.
  rewrite skipn_all2 by lia. reflexivity.
Qed.

(** With at least four spaces in front, the five fields of the route
    rewrite are settled before [B] starts. *)
Lemma route_strip_app (A B : list byte) :
  (4 <= count_byte SP A)%nat -> route_strip (A ++ B) = route_strip A ++ B.
Proof.
  intros H. unfold route_strip. destruct (SplitN_app 4 A B H) as [E L]. rewrite E.
  destruct (SplitN 5 SP A) as [|a0 [|a1 [|a2 [|a3 [|a4 [|a5 r]]]]]]; simpl in L; try discriminate.
  cbn [app_last nth length].
  destruct (_ && _); [destruct (mem_byte COLON a2)|]; rewrite ?app_assoc; reflexivity.
Qed.

Lemma replace_qcs_keep (a : byte) (Z : list byte) :
  a <> 63 -> replace_qcs (a :: Z) = a :: replace_qcs Z.
Proof.
  intros Ha. destruct Z as [|b [|c r]]; try reflexivity.
  cbn [replace_qcs]. apply Z.eqb_neq in Ha. rewrite Ha. reflexivity.
Qed.

Lemma replace_qcs_step (a b c : byte) (r : list byte) :
  replace_qcs (a :: b :: c :: r)
  = if (a =? 63) && (b =? 44) && (c =? 32) then replace_qcs r else a :: replace_qcs (b :: c :: r).
Proof. reflexivity. Qed.

(** A byte that is neither a comma nor a space cannot be inside an
    occurrence of ["?, "] that also covers the bytes before it. *)
Lemma replace_qcs_app (X Z : list byte) (c : byte) :
  c <> 44 -> c <> 32 -> replace_qcs (X ++ c :: Z) = replace_qcs X ++ replace_qcs (c :: Z).
Proof.
  intros H44 H32. apply Z.eqb_neq in H44, H32.
  remember (length X) as n eqn:Hn. revert X Hn.
  induction n as [n IH] using lt_wf_ind; intros X Hn.
  destruct X as [|a [|b [|d r]]]; [reflexivity| | |].
  - simpl app. destruct Z as [|z Z]; [reflexivity|].
    rewrite replace_qcs_step, H44, andb_false_r. reflexivity.
  - change ([a; b] ++ c :: Z) with (a :: b :: c :: Z).
    rewrite replace_qcs_step, H32, andb_false_r.
    change (a :: replace_qcs ([b] ++ c :: Z) = [a; b] ++ replace_qcs (c :: Z)).
    rewrite (IH 1%nat) by (simpl in *; lia). reflexivity.
  - change ((a :: b :: d :: r) ++ c :: Z) with (a :: b :: d :: (r ++ c :: Z)).
    rewrite !replace_qcs_step.
    destruct ((a =? 63) && (b =? 44) && (d =? 32)).
    + apply (IH (length r)); simpl in *; [lia | reflexivity].
    + change (a :: replace_qcs ((b :: d :: r) ++ c :: Z)
              = a :: (replace_qcs (b :: d :: r) ++ replace_qcs (c :: Z))).
      rewrite (IH (length (b :: d :: r))) by (simpl in *; lia). reflexivity.
Qed.

(** ** The tokens of literals, runs of whitespace and punctuation *)

Lemma digit_not_quote (b : byte) : is_digit b = true -> is_quote b = false.
Proof.
  unfold is_digit, is_quote. intros H. apply andb_true_iff in H as [H1 H2].
  apply Z.leb_le in H1, H2. apply orb_false_iff. split; apply Z.eqb_neq; lia.
Qed.

Lemma ws_class (b : byte) : is_ws b = true -> is_quote b = false /\ is_digit b = false.
Proof.
  unfold is_ws, is_quote, is_digit. intros H.
  apply orb_true_iff in H as [H | H].
  - apply Z.eqb_eq in H. subst. split; reflexivity.
  - apply andb_true_iff in H as [H1 H2]. apply Z.leb_le in H1, H2. split.
    + apply orb_false_iff. split; apply Z.eqb_neq; lia.
    + apply andb_false_iff. left. apply Z.leb_gt. lia.
Qed.

Lemma digit_not_ws (b : byte) : is_digit b = true -> is_ws b = false.
Proof.
  intros H. destruct (is_ws b) eqn:E; [|reflexivity].
  apply ws_class in E as [_ E]. congruence.
Qed.

Lemma quote_not_ws (b : byte) : is_quote b = true -> is_ws b = false.
Proof.
  intros H. destruct (is_ws b) eqn:E; [|reflexivity].
  apply ws_class in E as [E _]. congruence.
Qed.

Lemma toks_digits (d y : list byte) :
  d <> [] -> all_bytes is_digit d = true -> (y = [] \/ is_digit (hd 0 y) = false) ->
  toks (d ++ y) = (TOKEN_NUMBER, d) :: toks y.
Proof.
  intros Hd Ha Hy. apply toks_first. destruct d as [|b r]; [congruence|].
  simpl in Ha. apply andb_true_iff in Ha as [Hb Hr].
  cbn [scanToken app]. rewrite (digit_not_quote b Hb), Hb.
  rewrite (scan_while_full _ _ _ _ (scan_while_all _ _ 1 Hr) Hy). reflexivity.
Qed.

Lemma toks_ws_run (w y : list byte) :
  w <> [] -> all_bytes is_ws w = true -> (y = [] \/ is_ws (hd 0 y) = false) ->
  toks (w ++ y) = (TOKEN_WHITESPACE, w) :: toks y.
Proof.
  intros Hw Ha Hy. apply toks_first. destruct w as [|b r]; [congruence|].
  simpl in Ha. apply andb_true_iff in Ha as [Hb Hr].
  destruct (ws_class b Hb) as [Hq Hd].
  cbn [scanToken app]. rewrite Hq, Hd, Hb.
  rewrite (scan_while_full _ _ _ _ (scan_while_all _ _ 1 Hr) Hy). reflexivity.
Qed.

Lemma scan_quote_body (c : byte) (body y : list byte) (i : nat) :
  mem_byte c body = false -> mem_byte 92 body = false ->
  scan_quote c false (body ++ c :: y) i = S (i + length body).
Proof.
  revert i; induction body as [|b body IH]; intros i H1 H2; simpl in *.
  - rewrite Z.eqb_refl. f_equal. lia.
  - apply orb_false_iff in H1 as [H1 H1'], H2 as [H2 H2']. rewrite H1, H2, IH by assumption. lia.
Qed.

Lemma toks_string (c : byte) (body y : list byte) :
  is_quote c = true -> mem_byte c body = false -> mem_byte 92 body = false ->
  toks (c :: body ++ c :: y) = (TOKEN_QUOTE, c :: body ++ [c]) :: toks y.
Proof.
  intros Hq H1 H2.
  replace (c :: body ++ c :: y) with ((c :: body ++ [c]) ++ y) by (simpl; rewrite <- app_assoc; reflexivity).
  apply toks_first.
  replace ((c :: body ++ [c]) ++ y) with (c :: body ++ c :: y) by (simpl; rewrite <- app_assoc; reflexivity).
  cbn [scanToken]. rewrite Hq, scan_quote_body by assumption.
  cbn [length]. rewrite length_app. simpl. f_equal. f_equal. lia.
Qed.

Lemma toks_other (b : byte) (y : list byte) :
  tok_class b = TOKEN_OTHER -> toks (b :: y) = (TOKEN_OTHER, [b]) :: toks y.
Proof.
  intros H. apply (toks_first [b] y). cbn [scanToken app length].
  unfold tok_class in H. destruct (is_quote b), (is_digit b), (is_ws b), (is_alpha b);
    try discriminate; reflexivity.
Qed.

Lemma joined_step (q t y : list byte) (ty : tokty) :
  toks q = (ty, t) :: toks y -> joined false q = emit (ty, t) ++ joined false y.
Proof. intros H. rewrite !joined_toks, H. reflexivity. Qed.

Lemma joined_other (b : byte) (y : list byte) :
  tok_class b = TOKEN_OTHER -> joined false (b :: y) = b :: joined false y.
Proof. intros H. rewrite (joined_step _ _ _ _ (toks_other b y H)). reflexivity. Qed.

Lemma joined_space (y : list byte) :
  (y = [] \/ is_ws (hd 0 y) = false) -> joined false (SP :: y) = SP :: joined false y.
Proof.
  intros H. apply (joined_step ([SP] ++ y) [SP] y TOKEN_WHITESPACE).
  exact (toks_ws_run [SP] y ltac:(discriminate) eq_refl H).
Qed.

(** A query that starts with whitespace cleans to a text that starts with
    one space. *)
Lemma joined_ws_start (b : byte) (y : list byte) :
  is_ws b = true -> exists T, joined false (b :: y) = SP :: T.
Proof.
  intros Hb. destruct (scanToken_bounds false (b :: y) ltac:(discriminate)) as [k [ty [E _]]].
  pose proof (scanToken_class _ _ _ _ E) as Hc.
  destruct (ws_class b Hb) as [Hq Hd]. unfold tok_class in Hc. rewrite Hq, Hd, Hb in Hc. subst ty.
  rewrite (joined_step _ _ _ _ (toks_step _ _ _ E)). eexists. reflexivity.
Qed.

(** ** Literal lists *)

Inductive literal :=
| LitNumber (digits : list byte)
| LitString (quote : byte) (body : list byte).

(** A numeric literal is a non-empty run of digits; a string literal has
    no byte equal to its quote and no backslash in its body. *)
Definition lit_ok (l : literal) : Prop :=
  match l with
  | LitNumber d => d <> [] /\ all_bytes is_digit d = true
  | LitString c body => is_quote c = true /\ mem_byte c body = false /\ mem_byte 92 body = false
  end.

Definition lit_bytes (l : literal) : list byte :=
  match l with
  | LitNumber d => d
  | LitString c body => c :: body ++ [c]
  end.

(** The literals written one after the other, separated by [", "]. *)
Fixpoint render (ls : list literal) : list byte :=
  match ls with
  | [] => []
  | l :: r => lit_bytes l ++ match r with [] => [] | _ => [44; 32] ++ render r end
  end.

(** [n] placeholders separated by [", "]. *)
Fixpoint qmarks (n : nat) : list byte :=
  match n with
  | O => []
  | S O => [63]
  | S n' => [63; 44; 32] ++ qmarks n'
  end.

Lemma hd_app_ne (x s : list byte) : x <> [] -> hd 0 (x ++ s) = hd 0 x.
Proof. destruct x; [congruence | reflexivity]. Qed.

Lemma mem_byte_app (b : byte) (x y : list byte) : mem_byte b (x ++ y) = mem_byte b x || mem_byte b y.
Proof. induction x as [|c x IH]; simpl; [reflexivity | rewrite IH, orb_assoc; reflexivity]. Qed.

Lemma mem_byte_all (b : byte) (l : list byte) :
  mem_byte b l = false <-> all_bytes (fun c => negb (c =? b)) l = true.
Proof.
  induction l as [|c l IH]; simpl; [split; reflexivity|].
  rewrite orb_false_iff, andb_true_iff, IH, negb_true_iff. reflexivity.
Qed.

Lemma joined_lit (l : literal) (y : list byte) :
  lit_ok l -> (y = [] \/ is_digit (hd 0 y) = false) ->
  joined false (lit_bytes l ++ y) = 63 :: joined false y.
Proof.
  destruct l as [d | c body]; simpl; intros Hl Hy.
  - destruct Hl as [H1 H2]. exact (joined_step _ _ _ _ (toks_digits d y H1 H2 Hy)).
  - destruct Hl as [H1 [H2 H3]].
    replace (c :: (body ++ [c]) ++ y) with (c :: body ++ c :: y) by (rewrite <- app_assoc; reflexivity).
    exact (joined_step _ _ _ _ (toks_string c body y H1 H2 H3)).
Qed.

Lemma render_head (ls : list literal) (y : list byte) :
  ls <> [] -> Forall lit_ok ls -> is_ws (hd 0 (render ls ++ y)) = false.
Proof.
  destruct ls as [|l r]; [congruence|]. intros _ H. inversion H as [|? ? Hl _]; subst.
  destruct l as [d | c body]; simpl in *.
  - destruct Hl as [Hd Ha]. destruct d as [|b d]; [congruence|]. simpl in *.
    apply andb_true_iff in Ha as [Hb _]. exact (digit_not_ws b Hb).
  - exact (quote_not_ws c (proj1 Hl)).
Qed.

Lemma joined_render (ls : list literal) (s : list byte) :
  ls <> [] -> Forall lit_ok ls ->
  joined false (render ls ++ 41 :: s) = qmarks (length ls) ++ 41 :: joined false s.
Proof.
  induction ls as [|l r IH]; [congruence|]. intros _ H. inversion H as [|? ? Hl Hr]; subst.
  destruct r as [|l2 r'].
  - cbn [render length qmarks]. rewrite app_nil_r.
    rewrite joined_lit by (auto; right; reflexivity). rewrite joined_other by reflexivity. reflexivity.
  - change (render (l :: l2 :: r')) with (lit_bytes l ++ [44; 32] ++ render (l2 :: r')).
    rewrite <- !app_assoc. rewrite joined_lit by (auto; right; reflexivity).
    cbn [app]. rewrite joined_other by reflexivity.
    change 32 with SP. rewrite joined_space by (right; apply render_head; [discriminate | exact Hr]).
    rewrite IH by (auto; discriminate). reflexivity.
Qed.

Lemma replace_qcs_qmarks (k : nat) (Z : list byte) :
  (1 <= k)%nat -> replace_qcs (qmarks k ++ 41 :: Z) = 63 :: replace_qcs (41 :: Z).
Proof.
  induction k as [|k IH]; intros Hk; [lia|].
  destruct k as [|k].
  - simpl app. destruct Z as [|z Z]; [reflexivity|]. rewrite replace_qcs_step. reflexivity.
  - change (qmarks (S (S k))) with ([63; 44; 32] ++ qmarks (S k)).
    rewrite <- app_assoc. cbn [app]. rewrite replace_qcs_step. apply IH. lia.
Qed.

(** ** Queries that canonicalize alike *)

Lemma joined_swap (p x1 x2 s : list byte) :
  x1 <> [] -> x2 <> [] ->
  ends_clean p (hd 0 x1) = true -> ends_clean p (hd 0 x2) = true ->
  joined false (x1 ++ s) = joined false (x2 ++ s) ->
  joined false (p ++ x1 ++ s) = joined false (p ++ x2 ++ s).
Proof.
  intros H1 H2 C1 C2 E.
  rewrite (joined_app p (x1 ++ s)) by (rewrite hd_app_ne; assumption).
  rewrite (joined_app p (x2 ++ s)) by (rewrite hd_app_ne; assumption).
  rewrite E. reflexivity.
Qed.

Lemma hd_plain_app (h rest : list byte) (c : byte) :
  all_bytes plain h = true -> is_ws c = false -> is_ws (hd 0 (h ++ c :: rest)) = false.
Proof.
  destruct h as [|b h]; simpl; [auto|]. intros H _. apply andb_true_iff in H as [H _].
  unfold plain in H. apply andb_true_iff in H as [H _]. apply negb_true_iff, H.
Qed.

Lemma joined_plain_no_space (x : list byte) :
  all_bytes plain x = true -> mem_byte SP (joined false x) = false.
Proof. intros H. apply mem_byte_all, joined_no_space, H. Qed.

(** The five fields of the route rewrite around a [/* ... */] comment. *)
Lemma route_strip_fields (A Bm T : list byte) :
  mem_byte SP A = false -> mem_byte SP Bm = false ->
  route_strip (A ++ SP :: 47 :: 42 :: SP :: Bm ++ SP :: 42 :: 47 :: SP :: T)
  = if mem_byte COLON Bm
    then A ++ bytes_of " /* " ++ nth 1 (SplitN 2 COLON Bm) [] ++ bytes_of " */ " ++ T
    else A ++ SP :: 47 :: 42 :: SP :: Bm ++ SP :: 42 :: 47 :: SP :: T.
Proof.
  intros HA HB. unfold route_strip.
  rewrite (SplitN_field SP 3 A) by exact HA.
  change (47 :: 42 :: SP :: Bm ++ SP :: 42 :: 47 :: SP :: T)
    with ([47; 42] ++ SP :: Bm ++ SP :: 42 :: 47 :: SP :: T).
  rewrite (SplitN_field SP 2 [47; 42]) by reflexivity.
  rewrite (SplitN_field SP 1 Bm) by exact HB.
  change (42 :: 47 :: SP :: T) with ([42; 47] ++ SP :: T).
  rewrite (SplitN_field SP 0 [42; 47]) by reflexivity.
  reflexivity.
Qed.

(** Pairs of queries that differ in one of the ways the canonicalizer is
    meant to forget, closed under reflexivity, symmetry and transitivity:
    - the digits of a numeric literal that is a token of its own;
    - the body of a quoted string with neither its quote nor a backslash;
    - the length of a run of whitespace;
    - the number of literals of a parenthesised list written with [", "]
      as separator, when the text before it already holds four spaces once
      cleaned (so the route rewrite has settled its five fields), or when
      neither the text before nor the text after the list holds a colon
      (so the route rewrite leaves the text alone);
    - a [host:] in front of the route of a [" /* host:route */ "] comment
      whose prefix, host and route hold no whitespace and no quote. *)
Inductive literal_variant : list byte -> list byte -> Prop :=
| vary_number (p d1 d2 s : list byte) :
    d1 <> [] -> all_bytes is_digit d1 = true ->
    d2 <> [] -> all_bytes is_digit d2 = true ->
    ends_clean p (hd 0 d1) = true -> ends_clean p (hd 0 d2) = true ->
    (s = [] \/ is_digit (hd 0 s) = false) ->
    literal_variant (p ++ d1 ++ s) (p ++ d2 ++ s)
| vary_string (p : list byte) (c : byte) (b1 b2 s : list byte) :
    is_quote c = true ->
    mem_byte c b1 = false -> mem_byte 92 b1 = false ->
    mem_byte c b2 = false -> mem_byte 92 b2 = false ->
    ends_clean p c = true ->
    literal_variant (p ++ (c :: b1 ++ [c]) ++ s) (p ++ (c :: b2 ++ [c]) ++ s)
| vary_whitespace (p w1 w2 s : list byte) :
    w1 <> [] -> all_bytes is_ws w1 = true ->
    w2 <> [] -> all_bytes is_ws w2 = true ->
    ends_clean p (hd 0 w1) = true -> ends_clean p (hd 0 w2) = true ->
    (s = [] \/ is_ws (hd 0 s) = false) ->
    literal_variant (p ++ w1 ++ s) (p ++ w2 ++ s)
| vary_list (p : list byte) (ls1 ls2 : list literal) (s : list byte) :
    ls1 <> [] -> Forall lit_ok ls1 -> ls2 <> [] -> Forall lit_ok ls2 ->
    ends_clean p 40 = true ->
    (4 <= count_byte SP (joined false p))%nat
    \/ (mem_byte COLON p = false /\ mem_byte COLON s = false) ->
    literal_variant (p ++ 40 :: render ls1 ++ 41 :: s) (p ++ 40 :: render ls2 ++ 41 :: s)
| vary_host (p h r s : list byte) :
    all_bytes plain p = true -> all_bytes plain h = true -> all_bytes plain r = true ->
    mem_byte COLON h = false -> mem_byte COLON r = false -> r <> [] ->
    literal_variant (p ++ bytes_of " /* " ++ h ++ COLON :: r ++ bytes_of " */ " ++ s)
                    (p ++ bytes_of " /* " ++ r ++ bytes_of " */ " ++ s)
| vary_refl (q : list byte) : literal_variant q q
| vary_sym (q1 q2 : list byte) : literal_variant q1 q2 -> literal_variant q2 q1
| vary_trans (q1 q2 q3 : list byte) :
    literal_variant q1 q2 -> literal_variant q2 q3 -> literal_variant q1 q3.

Lemma canonicalize_joined (q1 q2 : list byte) :
  joined false q1 = joined false q2 -> canonicalize q1 = canonicalize q2.
Proof. intros E. unfold canonicalize, cleanupQuery. rewrite E. reflexivity. Qed.

Lemma variant_number (p d1 d2 s : list byte) :
  d1 <> [] -> all_bytes is_digit d1 = true ->
  d2 <> [] -> all_bytes is_digit d2 = true ->
  ends_clean p (hd 0 d1) = true -> ends_clean p (hd 0 d2) = true ->
  (s = [] \/ is_digit (hd 0 s) = false) ->
  canonicalize (p ++ d1 ++ s) = canonicalize (p ++ d2 ++ s).
Proof.
  intros N1 A1 N2 A2 C1 C2 Hs. apply canonicalize_joined, joined_swap; auto.
  rewrite (joined_step _ _ _ _ (toks_digits d1 s N1 A1 Hs)).
  rewrite (joined_step _ _ _ _ (toks_digits d2 s N2 A2 Hs)). reflexivity.
Qed.

Lemma variant_string (p : list byte) (c : byte) (b1 b2 s : list byte) :
  is_quote c = true ->
  mem_byte c b1 = false -> mem_byte 92 b1 = false ->
  mem_byte c b2 = false -> mem_byte 92 b2 = false ->
  ends_clean p c = true ->
  canonicalize (p ++ (c :: b1 ++ [c]) ++ s) = canonicalize (p ++ (c :: b2 ++ [c]) ++ s).
Proof.
  intros Hq M1 K1 M2 K2 C. apply canonicalize_joined, joined_swap; try discriminate; auto.
  replace ((c :: b1 ++ [c]) ++ s) with (c :: b1 ++ c :: s) by (simpl; rewrite <- app_assoc; reflexivity).
  replace ((c :: b2 ++ [c]) ++ s) with (c :: b2 ++ c :: s) by (simpl; rewrite <- app_assoc; reflexivity).
  rewrite (joined_step _ _ _ _ (toks_string c b1 s Hq M1 K1)).
  rewrite (joined_step _ _ _ _ (toks_string c b2 s Hq M2 K2)). reflexivity.
Qed.

Lemma variant_whitespace (p w1 w2 s : list byte) :
  w1 <> [] -> all_bytes is_ws w1 = true ->
  w2 <> [] -> all_bytes is_ws w2 = true ->
  ends_clean p (hd 0 w1) = true -> ends_clean p (hd 0 w2) = true ->
  (s = [] \/ is_ws (hd 0 s) = false) ->
  canonicalize (p ++ w1 ++ s) = canonicalize (p ++ w2 ++ s).
Proof.
  intros N1 A1 N2 A2 C1 C2 Hs. apply canonicalize_joined, joined_swap; auto.
  rewrite (joined_step _ _ _ _ (toks_ws_run w1 s N1 A1 Hs)).
  rewrite (joined_step _ _ _ _ (toks_ws_run w2 s N2 A2 Hs)). reflexivity.
Qed.

Lemma joined_list (p : list byte) (ls : list literal) (s : list byte) :
  ls <> [] -> Forall lit_ok ls -> ends_clean p 40 = true ->
  joined false (p ++ 40 :: render ls ++ 41 :: s)
  = joined false p ++ 40 :: qmarks (length ls) ++ 41 :: joined false s.
Proof.
  intros N F C. rewrite joined_app by exact C.
  rewrite joined_other by reflexivity. rewrite joined_render by assumption. reflexivity.
Qed.

Lemma joined_no_colon (h : list byte) :
  mem_byte COLON h = false -> mem_byte COLON (joined false h) = false.
Proof.
  intros H. apply mem_byte_all. apply joined_bytes; [reflexivity | reflexivity |].
  apply mem_byte_all, H.
Qed.

Lemma mem_byte_middle (b : byte) (x y : list byte) : mem_byte b (x ++ b :: y) = true.
Proof. rewrite mem_byte_app. simpl. rewrite Z.eqb_refl, orb_true_r. reflexivity. Qed.

(** ** The fields of [SplitN] *)

(** [strings.Join(parts, sep)]. *)
Fixpoint join (sep : byte) (ls : list (list byte)) : list byte :=
  match ls with
  | [] => []
  | [x] => x
  | x :: r => x ++ sep :: join sep r
  end.

Lemma index_of_first (sep : byte) (s : list byte) (m : nat) :
  index_of sep s = Some m -> mem_byte sep (firstn m s) = false.
Proof.
  revert m; induction s as [|c s IH]; intros m; simpl; [discriminate|].
  destruct (c =? sep) eqn:E; [intros [= <-]; reflexivity|].
  destruct (index_of sep s) as [k|]; [intros [= <-] | discriminate].
  simpl. rewrite E, (IH k eq_refl). reflexivity.
Qed.

Lemma SplitN_spec (sep : byte) (n : nat) (s : list byte) :
  join sep (SplitN (S n) sep s) = s
  /\ Forall (fun x => mem_byte sep x = false) (removelast (SplitN (S n) sep s))
  /\ SplitN (S n) sep s <> []
  /\ (length (SplitN (S n) sep s) <= S n)%nat.
Proof.
  revert s; induction n as [|n IH]; intros s.
  - simpl. repeat split; auto. discriminate.
  - change (SplitN (S (S n)) sep s) with
      (match index_of sep s with
       | None => [s]
       | Some m => firstn m s :: SplitN (S n) sep (skipn (S m) s) end).
    destruct (index_of sep s) as [m|] eqn:Ei; [|simpl; repeat split; auto; [discriminate | lia]].
    destruct (IH (skipn (S m) s)) as [J [F [N L]]].
    destruct (SplitN (S n) sep (skipn (S m) s)) as [|y ys] eqn:Es; [congruence|].
    repeat split.
    + change (firstn m s ++ sep :: join sep (y :: ys) = s). rewrite J.
      destruct (index_of_split sep s m Ei) as [Hf _].
      rewrite <- (firstn_skipn (S m) s) at 3. rewrite Hf, <- app_assoc. reflexivity.
    + change (Forall (fun x => mem_byte sep x = false) (firstn m s :: removelast (y :: ys))).
      constructor; [exact (index_of_first sep s m Ei) | exact F].
    + discriminate.
    + simpl in *. lia.
Qed.

Lemma mem_index (b : byte) (s : list byte) :
  mem_byte b s = true -> exists m, index_of b s = Some m.
Proof.
  induction s as [|c s IH]; simpl; [discriminate|].
  destruct (c =? b); [eauto|]. intros H. destruct (IH H) as [m ->]. eauto.
Qed.

(** When the route rewrite changes the text, the text has the shape
    [a0 " /* " h ":" r " */ " a4] and the rewrite drops [h ":"]. *)
Lemma route_strip_shape (tmp : list byte) :
  route_strip tmp = tmp
  \/ exists a0 h r a4,
       tmp = a0 ++ SP :: 47 :: 42 :: SP :: (h ++ COLON :: r) ++ SP :: 42 :: 47 :: SP :: a4
       /\ mem_byte SP (h ++ COLON :: r) = false
       /\ route_strip tmp = a0 ++ SP :: 47 :: 42 :: SP :: r ++ SP :: 42 :: 47 :: SP :: a4.
Proof.
  unfold route_strip. destruct (SplitN_spec SP 4 tmp) as [J [F [_ L]]].
  destruct (SplitN 5 SP tmp) as [|a0 [|a1 [|a2 [|a3 [|a4 [|a5 rest]]]]]];
    try (left; reflexivity); [|simpl in L; lia].
  cbn [length nth]. simpl in J. inversion F as [|? ? F0 F']; subst.
  inversion F' as [|? ? F1 F'']; inversion F'' as [|? ? F2 F''']; subst.
  destruct (bytes_eqb a1 (bytes_of "/*")) eqn:E1; [|left; reflexivity].
  destruct (bytes_eqb a3 (bytes_of "*/")) eqn:E3; [|left; reflexivity].
  apply bytes_eqb_eq in E1, E3. subst a1 a3. simpl.
  destruct (mem_byte COLON a2) eqn:M; [|left; reflexivity]. right.
  destruct (mem_index COLON a2 M) as [m Ei].
  destruct (index_of_split COLON a2 m Ei) as [Hf _].
  assert (Ea2 : a2 = firstn m a2 ++ COLON :: skipn (S m) a2).
  { rewrite <- (firstn_skipn (S m) a2) at 1. rewrite Hf, <- app_assoc. reflexivity. }
  exists a0, (firstn m a2), (skipn (S m) a2), a4. split; [|split].
  - rewrite <- Ea2. reflexivity.
  - rewrite <- Ea2. exact F2.
  - change (SplitN 2 COLON a2) with
      (match index_of COLON a2 with
       | None => [a2]
       | Some m => firstn m a2 :: SplitN 1 COLON (skipn (S m) a2) end).
    rewrite Ei. reflexivity.
Qed.

Lemma route_strip_no_colon (tmp : list byte) :
  mem_byte COLON tmp = false -> route_strip tmp = tmp.
Proof.
  intros H. destruct (route_strip_shape tmp) as [E | [a0 [h [r [a4 [Et _]]]]]]; [exact E|].
  rewrite Et, !mem_byte_app in H. simpl in H. rewrite mem_byte_app, (mem_byte_middle COLON h r) in H.
  rewrite orb_true_l, orb_true_r in H. discriminate.
Qed.

Lemma qmarks_no_colon (k : nat) : mem_byte COLON (qmarks k) = false.
Proof.
  induction k as [|k IH]; [reflexivity|]. destruct k as [|k]; [reflexivity|].
  change (qmarks (S (S k))) with ([63; 44; 32] ++ qmarks (S k)).
  rewrite mem_byte_app, IH. reflexivity.
Qed.

Lemma variant_list (p : list byte) (ls1 ls2 : list literal) (s : list byte) :
  ls1 <> [] -> Forall lit_ok ls1 -> ls2 <> [] -> Forall lit_ok ls2 ->
  ends_clean p 40 = true ->
  (4 <= count_byte SP (joined false p))%nat
  \/ (mem_byte COLON p = false /\ mem_byte COLON s = false) ->
  canonicalize (p ++ 40 :: render ls1 ++ 41 :: s) = canonicalize (p ++ 40 :: render ls2 ++ 41 :: s).
Proof.
  intros N1 F1 N2 F2 C H4. unfold canonicalize, cleanupQuery.
  rewrite !joined_list by assumption.
  destruct H4 as [H4 | [Kp Ks]].
  - rewrite !route_strip_app by exact H4.
    rewrite !replace_qcs_app by discriminate. rewrite !replace_qcs_keep by discriminate.
    rewrite !replace_qcs_qmarks by (destruct ls1; destruct ls2; simpl; congruence || lia).
    reflexivity.
  - assert (Hk : forall k, mem_byte COLON (joined false p ++ 40 :: qmarks k ++ 41 :: joined false s)
                           = false).
    { intros k. rewrite mem_byte_app, joined_no_colon by exact Kp. cbn [mem_byte orb].
      rewrite mem_byte_app, qmarks_no_colon. cbn [mem_byte orb]. apply joined_no_colon, Ks. }
    rewrite !route_strip_no_colon by apply Hk.
  rewrite !replace_qcs_app by discriminate. rewrite !replace_qcs_keep by discriminate.
  rewrite !replace_qcs_qmarks by (destruct ls1; destruct ls2; simpl; congruence || lia).
  reflexivity.
Qed.

Lemma hd_plain_ne (r y : list byte) :
  r <> [] -> all_bytes plain r = true -> is_ws (hd 0 (r ++ y)) = false.
Proof.
  destruct r as [|b r]; [congruence|]. simpl. intros _ H. apply andb_true_iff in H as [H _].
  unfold plain in H. apply andb_true_iff in H as [H _]. apply negb_true_iff, H.
Qed.

Lemma joined_host_comment (p h r s : list byte) :
  all_bytes plain p = true -> all_bytes plain h = true -> all_bytes plain r = true ->
  joined false (p ++ bytes_of " /* " ++ h ++ COLON :: r ++ bytes_of " */ " ++ s)
  = joined false p ++ SP :: 47 :: 42 :: SP :: joined false h ++ COLON
      :: joined false r ++ SP :: 42 :: 47 :: joined false (SP :: s).
Proof.
  intros Hp Hh Hr.
  change (bytes_of " /* ") with [SP; 47; 42; SP]. change (bytes_of " */ ") with [SP; 42; 47; SP].
  cbn [app]. rewrite joined_app by (apply ends_clean_plain; [exact Hp | reflexivity]).
  rewrite joined_space by (right; reflexivity).
  rewrite !joined_other by reflexivity.
  rewrite joined_space by (right; apply hd_plain_app; [exact Hh | reflexivity]).
  rewrite joined_app by (apply ends_clean_plain; [exact Hh | reflexivity]).
  rewrite joined_other by reflexivity.
  rewrite joined_app by (apply ends_clean_plain; [exact Hr | reflexivity]).
  rewrite joined_space by (right; reflexivity).
  rewrite !joined_other by reflexivity. reflexivity.
Qed.

Lemma joined_route_comment (p r s : list byte) :
  all_bytes plain p = true -> all_bytes plain r = true -> r <> [] ->
  joined false (p ++ bytes_of " /* " ++ r ++ bytes_of " */ " ++ s)
  = joined false p ++ SP :: 47 :: 42 :: SP :: joined false r ++ SP :: 42 :: 47 :: joined false (SP :: s).
Proof.
  intros Hp Hr Nr.
  change (bytes_of " /* ") with [SP; 47; 42; SP]. change (bytes_of " */ ") with [SP; 42; 47; SP].
  cbn [app]. rewrite joined_app by (apply ends_clean_plain; [exact Hp | reflexivity]).
  rewrite joined_space by (right; reflexivity).
  rewrite !joined_other by reflexivity.
  rewrite joined_space by (right; apply hd_plain_ne; assumption).
  rewrite joined_app by (apply ends_clean_plain; [exact Hr | reflexivity]).
  rewrite joined_space by (right; reflexivity).
  rewrite !joined_other by reflexivity. reflexivity.
Qed.

Lemma variant_host (p h r s : list byte) :
  all_bytes plain p = true -> all_bytes plain h = true -> all_bytes plain r = true ->
  mem_byte COLON h = false -> mem_byte COLON r = false -> r <> [] ->
  canonicalize (p ++ bytes_of " /* " ++ h ++ COLON :: r ++ bytes_of " */ " ++ s)
  = canonicalize (p ++ bytes_of " /* " ++ r ++ bytes_of " */ " ++ s).
Proof.
  intros Hp Hh Hr Ch Cr Nr. unfold canonicalize, cleanupQuery.
  rewrite joined_host_comment, joined_route_comment by assumption.
  destruct (joined_ws_start SP s eq_refl) as [T ->].
  pose proof (joined_plain_no_space p Hp) as Sp.
  pose proof (joined_plain_no_space h Hh) as Sh.
  pose proof (joined_plain_no_space r Hr) as Sr.
  pose proof (joined_no_colon h Ch) as Kh. pose proof (joined_no_colon r Cr) as Kr.
  replace (joined false h ++ COLON :: joined false r ++ SP :: 42 :: 47 :: SP :: T)
    with ((joined false h ++ COLON :: joined false r) ++ SP :: 42 :: 47 :: SP :: T)
    by (rewrite <- app_assoc; reflexivity).
  rewrite !route_strip_fields; try assumption.
  - rewrite mem_byte_middle, Kr, (SplitN_field COLON 0) by exact Kh. reflexivity.
  - rewrite mem_byte_app. simpl. rewrite Sh, Sr. reflexivity.
Qed.

(** C4 (counterexample).  Two queries that differ only in how many
    literals an [IN (...)] list holds get different fingerprints when the
    list is written without a space after its commas; a [host:] in a
    comment that opens the query is not removed, because the comment
    markers are then not the second and fourth space-separated fields;
    and a list with fewer than four spaces before it, followed by a
    [/* host:route */] comment, shifts the space-separated fields, so the
    host is kept for two literals and removed for one. *)
Lemma canonicalize_variants_counterexample :
  canonicalize (bytes_of "select * from t where x in (1,2)")
  <> canonicalize (bytes_of "select * from t where x in (1)")
  /\ canonicalize (bytes_of "/* h:r */ select 1")
     <> canonicalize (bytes_of "/* r */ select 1")
  /\ canonicalize (bytes_of "(1, 2) /* h:r */ x")
     <> canonicalize (bytes_of "(1) /* h:r */ x").
Proof. split; [|split]; intros H; vm_compute in H; discriminate H. Qed.

(** C4 (amended).  Canonicalization maps
    ["select * from table where x in (1, 2, 'foo')"] to
    ["select * from table where x in (?)"], and gives the same fingerprint
    to any two queries related by [literal_variant]: queries that differ in
    the digits of numeric literals, in the bodies of quoted strings without
    backslash, in the lengths of whitespace runs, in the number of literals
    of a [", "]-separated parenthesised list preceded by at least four
    spaces of cleaned text or with no colon before or after it, or in a
    [host:] prefix inside a
    [" /* host:route */ "] comment whose prefix, host and route hold no
    whitespace or quote byte, or in several of these. *)
Theorem canonicalize_literal_variants :
  canonicalize (bytes_of "select * from table where x in (1, 2, 'foo')")
  = bytes_of "select * from table where x in (?)"
  /\ (forall q1 q2, literal_variant q1 q2 -> canonicalize q1 = canonicalize q2).
Proof.
  split; [vm_compute; reflexivity|].
  intros q1 q2 H. induction H as
    [p d1 d2 s N1 A1 N2 A2 C1 C2 Hs | p c b1 b2 s Hq M1 K1 M2 K2 C
    | p w1 w2 s N1 A1 N2 A2 C1 C2 Hs | p ls1 ls2 s N1 F1 N2 F2 C H4
    | p h r s Hp Hh Hr Ch Cr Nr | q | q1 q2 _ IH | q1 q2 q3 _ IH1 _ IH2].
  - exact (variant_number p d1 d2 s N1 A1 N2 A2 C1 C2 Hs).
  - exact (variant_string p c b1 b2 s Hq M1 K1 M2 K2 C).
  - exact (variant_whitespace p w1 w2 s N1 A1 N2 A2 C1 C2 Hs).
  - exact (variant_list p ls1 ls2 s N1 F1 N2 F2 C H4).
  - exact (variant_host p h r s Hp Hh Hr Ch Cr Nr).
  - reflexivity.
  - symmetry. exact IH.
  - rewrite IH1. exact IH2.
Qed.

(** The amended C4 at a route comment: [web01:] is forgotten. *)
Lemma canonicalize_literal_variants_witness :
  canonicalize (bytes_of "select /* web01:users */ * from t")
  = canonicalize (bytes_of "select /* users */ * from t")
  /\ canonicalize (bytes_of "select a in " ++ 40 :: render [LitNumber [49]; LitNumber [50]] ++ 41 :: bytes_of " from t")
     = canonicalize (bytes_of "select a in " ++ 40 :: render [LitNumber [49]] ++ 41 :: bytes_of " from t").
Proof.
  split; apply (proj2 canonicalize_literal_variants).
  - exact (vary_host (bytes_of "select") (bytes_of "web01") (bytes_of "users") (bytes_of "* from t")
             eq_refl eq_refl eq_refl eq_refl eq_refl ltac:(discriminate)).
  - apply vary_list.
    + discriminate.
    + repeat constructor; discriminate.
    + discriminate.
    + repeat constructor; discriminate.
    + vm_compute. reflexivity.
    + right. split; reflexivity.
Defined.

(** C10 at ["select 1"]. *)
Lemma scanToken_progress_witness :
  (exists len ty, scanToken false (bytes_of "select 1") = Some (len, ty)
                  /\ (1 <= len <= length (bytes_of "select 1"))%nat)
  /\ concat (map snd (scan_tokens false (length (bytes_of "select 1")) (bytes_of "select 1")))
     = bytes_of "select 1".
Proof. apply scanToken_progress. discriminate. Defined.

(** ** Texts the tokenizer gives back unchanged

    A left-to-right automaton over the cleaned text: the state records
    whether the previous byte was a space, the inside of a word, or
    anything else.  Quotes, whitespace other than one space, a space after
    a space and a digit outside a word are refused. *)

Inductive gstate := GSpace | GOther | GWord.

Definition is_word_state (st : gstate) : bool := match st with GWord => true | _ => false end.
Definition is_space_state (st : gstate) : bool := match st with GSpace => true | _ => false end.

Definition gok (st : gstate) (b : byte) : bool :=
  if is_quote b then false
  else if is_ws b then (b =? 32) && negb (is_space_state st)
  else if is_digit b then is_word_state st
  else true.

Definition gnext (st : gstate) (b : byte) : gstate :=
  if is_ws b then GSpace
  else if is_alpha b || (is_word_state st && is_word_cont b) then GWord
  else GOther.

Fixpoint good_from (st : gstate) (s : list byte) : bool :=
  match s with
  | [] => true
  | b :: r => gok st b && good_from (gnext st b) r
  end.

Definition grank (st : gstate) : nat := match st with GSpace => 0 | GOther => 1 | GWord => 2 end.

Lemma good_mono (s : list byte) (st1 st2 : gstate) :
  (grank st1 <= grank st2)%nat -> good_from st1 s = true -> good_from st2 s = true.
Proof.
  revert st1 st2; induction s as [|b r IH]; intros st1 st2 Hle H; [reflexivity|].
  simpl in *. apply andb_true_iff in H as [H1 H2]. apply andb_true_iff. split.
  - unfold gok in *. destruct (is_quote b); [discriminate|]. destruct (is_ws b).
    + destruct st1, st2; simpl in *; try lia; auto.
    + destruct (is_digit b); [|reflexivity]. destruct st1, st2; simpl in *; try lia; auto.
  - apply (IH (gnext st1 b)); [|exact H2]. unfold gnext.
    destruct (is_ws b); [reflexivity|]. destruct (is_alpha b); [reflexivity|].
    destruct st1, st2; simpl in *; try lia; destruct (is_word_cont b); simpl; lia.
Qed.

Fixpoint gfinal (st : gstate) (s : list byte) : gstate :=
  match s with
  | [] => st
  | b :: r => gfinal (gnext st b) r
  end.

Lemma good_from_app (st : gstate) (x y : list byte) :
  good_from st (x ++ y) = good_from st x && good_from (gfinal st x) y.
Proof.
  revert st; induction x as [|b x IH]; intros st; simpl; [reflexivity|].
  rewrite IH, andb_assoc. reflexivity.
Qed.

(** Away from whitespace, the states [GSpace] and [GOther] agree. *)
Lemma good_space_other (b : byte) (x : list byte) :
  is_ws b = false -> good_from GOther (b :: x) = good_from GSpace (b :: x).
Proof. intros H. simpl. unfold gok, gnext. rewrite H. reflexivity. Qed.

Lemma scan_while_spec (p : byte -> bool) (l : list byte) (i : nat) :
  exists w l', l = w ++ l' /\ all_bytes p w = true /\ (l' = [] \/ p (hd 0 l') = false)
               /\ scan_while p l i = (i + length w)%nat.
Proof.
  revert i; induction l as [|c l IH]; intros i.
  - exists [], []. simpl. repeat split; auto; try lia.
  - simpl. destruct (p c) eqn:E.
    + destruct (IH (S i)) as [w [l' [-> [Hw [Hl' Hs]]]]].
      exists (c :: w), l'. simpl. rewrite E, Hw. repeat split; auto; try lia.
    + exists [], (c :: l). simpl. repeat split; auto; try lia.
Qed.

Lemma word_cont_class (b : byte) :
  is_word_cont b = true -> is_quote b = false /\ is_ws b = false.
Proof.
  unfold is_word_cont, is_digit, is_alpha, is_quote, is_ws. intros H.
  repeat rewrite orb_true_iff in H. rewrite !andb_true_iff in H.
  split; apply orb_false_iff; split;
    try (apply andb_false_iff);
    repeat match goal with
    | H : _ \/ _ |- _ => destruct H
    | H : _ /\ _ |- _ => destruct H
    | H : (_ <=? _) = true |- _ => apply Z.leb_le in H
    | H : (_ =? _) = true |- _ => apply Z.eqb_eq in H; subst
    end;
    first [ apply Z.eqb_neq; lia | left; apply Z.leb_gt; lia | right; apply Z.leb_gt; lia
          | reflexivity | (left; reflexivity) | (right; reflexivity) ].
Qed.

(** Case analysis on the byte comparisons of a goal. *)
Ltac byte_cases :=
  repeat (match goal with
          | |- context [Z.leb ?a ?b] => destruct (Z.leb_spec a b)
          | |- context [Z.eqb ?a ?b] => destruct (Z.eqb_spec a b)
          end; simpl; try discriminate; try lia).

Lemma alpha_class (b : byte) :
  is_alpha b = true -> is_quote b = false /\ is_digit b = false /\ is_ws b = false.
Proof. unfold is_alpha, is_quote, is_digit, is_ws. byte_cases; auto. Qed.

Lemma toks_word (b : byte) (w y : list byte) :
  is_alpha b = true -> all_bytes is_word_cont w = true ->
  (y = [] \/ is_word_cont (hd 0 y) = false) ->
  toks (b :: w ++ y) = (TOKEN_WORD, b :: w) :: toks y.
Proof.
  intros Hb Hw Hy. apply (toks_first (b :: w) y).
  destruct (alpha_class b Hb) as [Hq [Hd Hs]].
  cbn [scanToken app]. rewrite Hq, Hd, Hs, Hb.
  rewrite (scan_while_full _ _ _ _ (scan_while_all _ _ 1 Hw) Hy). reflexivity.
Qed.

Lemma good_word_run (w : list byte) :
  all_bytes is_word_cont w = true -> good_from GWord w = true /\ gfinal GWord w = GWord.
Proof.
  induction w as [|c w IH]; simpl; [auto|]. intros H. apply andb_true_iff in H as [H1 H2].
  destruct (word_cont_class c H1) as [Hq Hs].
  assert (E : gnext GWord c = GWord) by (unfold gnext; rewrite Hs, H1, orb_true_r; reflexivity).
  rewrite E. destruct (IH H2) as [-> ->]. split; [|reflexivity]. unfold gok. rewrite Hq, Hs.
  destruct (is_digit c); reflexivity.
Qed.

Lemma gok_qmark (st : gstate) : gok st 63 = true /\ gnext st 63 = GOther.
Proof. destruct st; split; reflexivity. Qed.

(** The cleaned text of any query is accepted from the start state. *)
Lemma good_joined (q : list byte) (st : gstate) :
  (st = GSpace -> q = [] \/ is_ws (hd 0 q) = false) ->
  (st = GWord -> q = [] \/ is_word_cont (hd 0 q) = false) ->
  good_from st (joined false q) = true.
Proof.
  remember (length q) as n eqn:Hn. revert q st Hn.
  induction n as [n IH] using lt_wf_ind; intros q st Hn HS HW.
  destruct q as [|b r]; [reflexivity|].
  destruct (is_quote b) eqn:Hq.
  - destruct (scanToken_bounds false (b :: r) ltac:(discriminate)) as [k [ty [E Hk]]].
    assert (ty = TOKEN_QUOTE) as -> by (rewrite (scanToken_class _ _ _ _ E); unfold tok_class; rewrite Hq; reflexivity).
    rewrite (joined_step _ _ _ _ (toks_step _ _ _ E)). unfold emit; cbn [fst snd]. cbn [app good_from].
    destruct (gok_qmark st) as [-> ->]. simpl.
    apply (IH (length (skipn k (b :: r)))); [rewrite length_skipn; cbn [length] in *; lia | reflexivity | discriminate | discriminate].
  - destruct (is_digit b) eqn:Hd.
    + destruct (scan_while_spec is_digit r 1) as [w [l' [-> [Hw [Hl _]]]]].
      change (b :: w ++ l') with ((b :: w) ++ l').
      rewrite (joined_step _ _ _ _ (toks_digits (b :: w) l' ltac:(discriminate) ltac:(simpl; rewrite Hd, Hw; reflexivity) Hl)).
      unfold emit; cbn [fst snd]. cbn [app good_from]. destruct (gok_qmark st) as [-> ->]. simpl.
      apply (IH (length l')); [cbn [length] in Hn; rewrite length_app in Hn; lia | reflexivity | discriminate | discriminate].
    + destruct (is_ws b) eqn:Hs.
      * destruct (scan_while_spec is_ws r 1) as [w [l' [-> [Hw [Hl _]]]]].
        change (b :: w ++ l') with ((b :: w) ++ l').
        rewrite (joined_step _ _ _ _ (toks_ws_run (b :: w) l' ltac:(discriminate) ltac:(simpl; rewrite Hs, Hw; reflexivity) Hl)).
        unfold emit; cbn [fst snd]. cbn [app good_from].
        assert (Hst : is_space_state st = false).
        { destruct st; [|reflexivity|reflexivity]. destruct (HS eq_refl) as [?|H]; [discriminate|]. simpl in H. congruence. }
        unfold gok at 1. simpl. rewrite Hst.
        apply (IH (length l')); [cbn [length] in Hn; rewrite length_app in Hn; lia | reflexivity | auto | discriminate].
      * destruct (is_alpha b) eqn:Ha.
        -- destruct (scan_while_spec is_word_cont r 1) as [w [l' [-> [Hw [Hl _]]]]].
           rewrite (joined_step _ _ _ _ (toks_word b w l' Ha Hw Hl)). unfold emit; cbn [fst snd]. cbn [snd].
           change ((b :: w) ++ joined false l') with (b :: w ++ joined false l'). cbn [good_from].
           unfold gok at 1. rewrite Hq, Hs, Hd.
           assert (E : gnext st b = GWord) by (unfold gnext; rewrite Hs, Ha; reflexivity).
           rewrite E, good_from_app. destruct (good_word_run w Hw) as [-> ->]. simpl.
           apply (IH (length l')); [cbn [length] in Hn; rewrite length_app in Hn; lia | reflexivity | discriminate | auto].
        -- assert (Ho : tok_class b = TOKEN_OTHER) by (unfold tok_class; rewrite Hq, Hd, Hs, Ha; reflexivity).
           rewrite joined_other by exact Ho. cbn [good_from].
           unfold gok at 1. rewrite Hq, Hs, Hd.
           assert (E : gnext st b = GOther).
           { unfold gnext. rewrite Hs, Ha. destruct st; try reflexivity.
             destruct (HW eq_refl) as [?|H]; [discriminate|]. simpl in H. rewrite H. reflexivity. }
           rewrite E. simpl.
           apply (IH (length r)); [cbn [length] in *; lia | reflexivity | discriminate | discriminate].
Qed.

Lemma digit_word_cont (b : byte) : is_digit b = true -> is_word_cont b = true.
Proof. unfold is_word_cont. intros ->. reflexivity. Qed.

(** An accepted text is its own cleaned text. *)
Lemma joined_good (s : list byte) (st : gstate) :
  good_from st s = true ->
  (st = GWord -> s = [] \/ is_word_cont (hd 0 s) = false) ->
  joined false s = s.
Proof.
  remember (length s) as n eqn:Hn. revert s st Hn.
  induction n as [n IH] using lt_wf_ind; intros s st Hn Hg HW.
  destruct s as [|b r]; [reflexivity|].
  cbn [good_from] in Hg. apply andb_true_iff in Hg as [Hok Hg].
  unfold gok in Hok. destruct (is_quote b) eqn:Hq; [discriminate|].
  destruct (is_ws b) eqn:Hs.
  - apply andb_true_iff in Hok as [H32 Hsp]. apply Z.eqb_eq in H32. subst b.
    unfold gnext in Hg. rewrite Hs in Hg.
    assert (Hr : r = [] \/ is_ws (hd 0 r) = false).
    { destruct r as [|c r]; [auto|]. right. cbn [good_from] in Hg. apply andb_true_iff in Hg as [Hc _].
      unfold gok in Hc. destruct (is_quote c); [discriminate|]. cbn [hd]. destruct (is_ws c); [|reflexivity].
      rewrite andb_false_r in Hc. discriminate. }
    change 32 with SP. rewrite joined_space by exact Hr. f_equal.
    apply (IH (length r) ltac:(cbn [length] in *; lia) r GSpace eq_refl Hg). discriminate.
  - destruct (is_digit b) eqn:Hd.
    + destruct st; try discriminate. destruct (HW eq_refl) as [?|H]; [discriminate|].
      simpl in H. rewrite (digit_word_cont b Hd) in H. discriminate.
    + destruct (is_alpha b) eqn:Ha.
      * destruct (scan_while_spec is_word_cont r 1) as [w [l' [-> [Hw [Hl _]]]]].
        rewrite (joined_step _ _ _ _ (toks_word b w l' Ha Hw Hl)). unfold emit; cbn [fst snd].
        assert (E : gnext st b = GWord) by (unfold gnext; rewrite Hs, Ha; reflexivity).
        rewrite E, good_from_app in Hg. destruct (good_word_run w Hw) as [_ Hf].
        rewrite Hf in Hg. apply andb_true_iff in Hg as [_ Hg].
        change ((b :: w) ++ joined false l' = b :: w ++ l'). cbn [app]. do 2 f_equal.
        apply (IH (length l') ltac:(cbn [length] in Hn; rewrite length_app in Hn; lia) l' GWord eq_refl Hg).
        intros _. exact Hl.
      * assert (Ho : tok_class b = TOKEN_OTHER) by (unfold tok_class; rewrite Hq, Hd, Hs, Ha; reflexivity).
        rewrite joined_other by exact Ho. f_equal.
        assert (E : gnext st b = GOther).
        { unfold gnext. rewrite Hs, Ha. destruct st; try reflexivity.
          destruct (HW eq_refl) as [?|H]; [discriminate|]. simpl in H. rewrite H. reflexivity. }
        rewrite E in Hg.
        apply (IH (length r) ltac:(cbn [length] in *; lia) r GOther eq_refl Hg). discriminate.
Qed.

(** [ReplaceAll(s, "?, ", "")] keeps a text accepted. *)
Lemma good_replace_qcs (s : list byte) (st : gstate) :
  good_from st s = true -> good_from st (replace_qcs s) = true.
Proof.
  remember (length s) as n eqn:Hn. revert s st Hn.
  induction n as [n IH] using lt_wf_ind; intros s st Hn Hg.
  destruct s as [|a [|b [|c r]]]; try exact Hg.
  rewrite replace_qcs_step.
  destruct ((a =? 63) && (b =? 44) && (c =? 32)) eqn:E.
  - apply andb_true_iff in E as [E Hc]. apply andb_true_iff in E as [Ha Hb].
    apply Z.eqb_eq in Ha, Hb, Hc. subst a b c.
    cbn [good_from] in Hg. destruct (gok_qmark st) as [H1 H2]. rewrite H1, H2 in Hg.
    simpl in Hg. apply (good_mono _ GSpace); [destruct st; simpl; lia|].
    apply (IH (length r)); [cbn [length] in *; lia | reflexivity | exact Hg].
  - change (gok st a && good_from (gnext st a) (b :: c :: r) = true) in Hg.
    apply andb_true_iff in Hg as [Hok Hg].
    change (gok st a && good_from (gnext st a) (replace_qcs (b :: c :: r)) = true).
    rewrite Hok, andb_true_l.
    apply (IH (length (b :: c :: r))); [cbn [length] in *; lia | reflexivity | exact Hg].
Qed.

(** The text holds no occurrence of ["?, "]. *)
Fixpoint no_qcs (s : list byte) : bool :=
  match s with
  | a :: ((b :: c :: _) as t) => negb ((a =? 63) && (b =? 44) && (c =? 32)) && no_qcs t
  | _ => true
  end.

(** The text holds no two adjacent spaces. *)
Fixpoint no_double_space (s : list byte) : bool :=
  match s with
  | a :: ((b :: _) as t) => negb ((a =? 32) && (b =? 32)) && no_double_space t
  | _ => true
  end.

Lemma replace_qcs_id (s : list byte) : no_qcs s = true -> replace_qcs s = s.
Proof.
  remember (length s) as n eqn:Hn. revert s Hn.
  induction n as [n IH] using lt_wf_ind; intros s Hn H.
  destruct s as [|a [|b [|c r]]]; try reflexivity.
  rewrite replace_qcs_step. change (no_qcs (a :: b :: c :: r)) with
    (negb ((a =? 63) && (b =? 44) && (c =? 32)) && no_qcs (b :: c :: r)) in H.
  apply andb_true_iff in H as [H1 H2]. apply negb_true_iff in H1. rewrite H1. f_equal.
  apply (IH (length (b :: c :: r))); [cbn [length] in *; lia | reflexivity | exact H2].
Qed.

Lemma no_double_space_app (x y : list byte) :
  no_double_space (x ++ y) = true -> no_double_space y = true.
Proof.
  induction x as [|a x IH]; simpl; [auto|]. intros H. apply IH.
  destruct (x ++ y) as [|b t]; [reflexivity|]. apply andb_true_iff in H as [_ H]. exact H.
Qed.

Lemma good_comment_open (st : gstate) (X : list byte) :
  good_from st (SP :: 47 :: 42 :: SP :: X) = gok st SP && good_from GSpace X.
Proof. destruct st; reflexivity. Qed.

Lemma good_colon (st : gstate) (X : list byte) :
  good_from st (COLON :: X) = good_from GOther X.
Proof. destruct st; reflexivity. Qed.

(** The route rewrite keeps the cleaned text accepted unless it leaves an
    empty route, that is two adjacent spaces. *)
Lemma good_route_strip (tmp : list byte) :
  good_from GOther tmp = true ->
  no_double_space (replace_qcs (route_strip tmp)) = true ->
  good_from GOther (route_strip tmp) = true.
Proof.
  intros Hg Hd. destruct (route_strip_shape tmp) as [E | [a0 [h [r [a4 [Et [Hsp Er]]]]]]].
  - rewrite E. exact Hg.
  - rewrite Er in Hd |- *. rewrite Et in Hg.
    rewrite good_from_app, good_comment_open in Hg |- *.
    apply andb_true_iff in Hg as [G0 Hg]. apply andb_true_iff in Hg as [G1 Hg].
    rewrite G0, G1. simpl.
    rewrite <- app_assoc, good_from_app in Hg. cbn [app] in Hg. rewrite good_colon in Hg.
    apply andb_true_iff in Hg as [_ Hg].
    destruct r as [|b r].
    + exfalso. revert Hd.
      replace (a0 ++ SP :: 47 :: 42 :: SP :: [] ++ SP :: 42 :: 47 :: SP :: a4)
        with ((a0 ++ [SP]) ++ 47 :: 42 :: SP :: SP :: 42 :: 47 :: SP :: a4)
        by (rewrite <- app_assoc; reflexivity).
      rewrite replace_qcs_app by discriminate.
      rewrite !replace_qcs_keep by discriminate.
      intros Hd. apply no_double_space_app in Hd. discriminate.
    + rewrite mem_byte_app in Hsp. apply orb_false_iff in Hsp as [_ Hsp].
      cbn [mem_byte] in Hsp. apply orb_false_iff in Hsp as [_ Hsp].
      cbn [mem_byte] in Hsp. apply orb_false_iff in Hsp as [Hb _]. apply Z.eqb_neq in Hb.
      cbn [app] in Hg |- *. rewrite <- good_space_other; [exact Hg|].
      cbn [good_from] in Hg. apply andb_true_iff in Hg as [Hok _].
      unfold gok in Hok. destruct (is_quote b); [discriminate|].
      destruct (is_ws b); [|reflexivity].
      rewrite andb_true_r in Hok. apply Z.eqb_eq in Hok. contradiction.
Qed.

(** C8 (counterexample).  A second pass can change the fingerprint: it
    strips one more [host:] from a route holding two colons, it turns an
    empty route's double space into one, and it removes a ["?, "] that the
    first pass's [ReplaceAll] left behind. *)
Lemma canonicalize_not_idempotent :
  canonicalize (canonicalize (bytes_of "SELECT /* web01:api:users */ * FROM t"))
  <> canonicalize (bytes_of "SELECT /* web01:api:users */ * FROM t")
  /\ canonicalize (canonicalize (bytes_of "a /* h: */ b"))
     <> canonicalize (bytes_of "a /* h: */ b")
  /\ canonicalize (canonicalize (bytes_of "'a'?, , b"))
     <> canonicalize (bytes_of "'a'?, , b").
Proof. repeat split; intros H; vm_compute in H; discriminate H. Qed.

(** C8 (amended).  For every query [Q] whose fingerprint holds no colon,
    no occurrence of ["?, "] and no two adjacent spaces, canonicalizing
    the fingerprint again gives the same fingerprint. *)
Theorem canonicalize_idempotent_clean (q : list byte) :
  mem_byte COLON (canonicalize q) = false ->
  no_qcs (canonicalize q) = true ->
  no_double_space (canonicalize q) = true ->
  canonicalize (canonicalize q) = canonicalize q.
Proof.
  intros Hc Hq Hd.
  assert (G0 : good_from GOther (joined false q) = true) by (apply good_joined; discriminate).
  assert (G1 : good_from GOther (route_strip (joined false q)) = true)
    by (apply good_route_strip; [exact G0 | exact Hd]).
  assert (G2 : good_from GOther (canonicalize q) = true) by (apply good_replace_qcs; exact G1).
  set (c := canonicalize q) in *.
  unfold canonicalize at 1, cleanupQuery.
  rewrite (joined_good c GOther G2) by discriminate.
  rewrite route_strip_no_colon by exact Hc. apply replace_qcs_id, Hq.
Qed.

(** The amended C8 on a query with a list and literals. *)
Lemma canonicalize_idempotent_clean_witness :
  let q := bytes_of "select 1 from t where id in (1, 2) and name = 'x'" in
  mem_byte COLON (canonicalize q) = false /\ no_qcs (canonicalize q) = true
  /\ no_double_space (canonicalize q) = true
  /\ canonicalize (canonicalize q) = canonicalize q.
Proof.
  intros q.
  assert (H1 : mem_byte COLON (canonicalize q) = false) by (vm_compute; reflexivity).
  assert (H2 : no_qcs (canonicalize q) = true) by (vm_compute; reflexivity).
  assert (H3 : no_double_space (canonicalize q) = true) by (vm_compute; reflexivity).
  exact (conj H1 (conj H2 (conj H3 (canonicalize_idempotent_clean q H1 H2 H3)))).
Defined.

(** ** Output format template: [parseFormat]

    The model reads an ASCII format string one character at a time (for
    ASCII text Go's [range] over runes visits the same characters). *)

(** The [F_...] constants: [iota] counts the specs of the [const] block,
    and [F_NONE] is its thirteenth. *)
Definition F_NONE : Z := 12.
Definition F_QUERY : Z := 13.
Definition F_ROUTE : Z := 14.
Definition F_SOURCE : Z := 15.
Definition F_SOURCEIP : Z := 16.

(** An element of [format []interface{}]: a string or an int. *)
Inductive fitem :=
| FStr (s : string)
| FInt (n : Z).

(** [unicode.IsSpace] on ASCII characters. *)
Definition is_space_char (c : ascii) : bool :=
  let n := nat_of_ascii c in (Nat.eqb n 32 || (Nat.leb 9 n && Nat.leb n 13))%bool.

Fixpoint trim_left (l : list ascii) : list ascii :=
  match l with
  | c :: r => if is_space_char c then trim_left r else l
  | [] => []
  end.

(** [strings.TrimSpace]. *)
Definition TrimSpace (s : string) : string :=
  string_of_list_ascii (rev (trim_left (rev (trim_left (list_ascii_of_string s))))).

(** [strings.ToLower] on one ASCII character. *)
Definition to_lower (c : ascii) : ascii :=
  let n := nat_of_ascii c in
  if (Nat.leb 65 n && Nat.leb n 90)%bool then ascii_of_nat (n + 32) else c.

(** The [switch] on the character after a [#]: the tag and the new
    [curstr]. *)
Definition special_tag (curstr : string) (ch : ascii) : Z * string :=
  let l := to_lower ch in
  if Ascii.eqb l "s"%char then (F_SOURCE, curstr)
  else if Ascii.eqb l "i"%char then (F_SOURCEIP, curstr)
  else if Ascii.eqb l "r"%char then (F_ROUTE, curstr)
  else if Ascii.eqb l "q"%char then (F_QUERY, curstr)
  else (F_NONE, (curstr ++ "#" ++ String ch EmptyString)%string).

(** The loop of [parseFormat] over the characters left, with
    [is_special], [curstr] and the global [format]. *)
Fixpoint parse_format_loop (chars : list ascii) (is_special : bool) (curstr : string)
    (format : list fitem) : list fitem :=
  match chars with
  | [] => if String.eqb curstr "" then format else format ++ [FStr curstr]
  | ch :: rest =>
      if Ascii.eqb ch "#"%char then
        if is_special then parse_format_loop rest false (curstr ++ "#")%string format
        else parse_format_loop rest true curstr format
      else
        let '(do_append, cur) :=
          if is_special then special_tag curstr ch
          else (F_NONE, (curstr ++ String ch EmptyString)%string) in
        if Z.eqb do_append F_NONE then parse_format_loop rest false cur format
        else if String.eqb cur "" then parse_format_loop rest false "" (format ++ [FInt do_append])
        else parse_format_loop rest false "" (format ++ [FStr cur; FInt do_append])
  end.

(** [parseFormat(formatstr)], appending to the global [format]. *)
Definition parseFormat (format : list fitem) (formatstr : string) : list fitem :=
  let fs := TrimSpace formatstr in
  let fs := if String.eqb fs "" then "#b:#k"%string else fs in
  parse_format_loop (list_ascii_of_string fs) false "" format.

(** The templates of [TestParseFormat] that the code meets. *)
Example parseFormat_tests :
  parseFormat [] "#q" = [FInt F_QUERY]
  /\ parseFormat [] "#s:#q" = [FInt F_SOURCE; FStr ":"; FInt F_QUERY]
  /\ parseFormat [] "#i:#q" = [FInt F_SOURCEIP; FStr ":"; FInt F_QUERY]
  /\ parseFormat [] "[#s] #q" = [FStr "["; FInt F_SOURCE; FStr "] "; FInt F_QUERY]
  /\ parseFormat [] "##q" = [FStr "#q"].
Proof. repeat split; vm_compute; reflexivity. Qed.

(** C6.  The empty template is replaced by ["#b:#k"], whose [#b] and [#k]
    are no tags: it parses to one literal, not to the items of
    ["#s:#q"] (the command-line default) nor to those the source's test
    expects ([SOURCE_IP], [":"], [QUERY]). *)
Theorem parseFormat_empty_template :
  parseFormat [] "" = [FStr "#b:#k"]
  /\ parseFormat [] "#s:#q" = [FInt F_SOURCE; FStr ":"; FInt F_QUERY]
  /\ parseFormat [] "" <> parseFormat [] "#s:#q"
  /\ parseFormat [] "" <> [FInt F_SOURCEIP; FStr ":"; FInt F_QUERY].
Proof.
  split; [vm_compute; reflexivity|]. split; [vm_compute; reflexivity|].
  split; intros H; vm_compute in H; discriminate H.
Qed.

(** ** Response decoder: [parseOKPacket]

    The decoder reads the affected-row count and the last insert id with
    [mysql.LengthEncodedInt], then, when four more bytes are there, skips
    the status flags and reads the 16-bit warning count.  A length-encoded
    integer cut short panics in the library ([None] here).  The decoding and
    the formatting are split in two functions; [parseOKPacket] chains them
    as the source does. *)
Definition ESC : ascii := ascii_of_nat 27.
Definition COLOR_GREEN : string := String ESC "[32m".
Definition COLOR_YELLOW : string := String ESC "[33m".
Definition COLOR_CYAN : string := String ESC "[36m".
Definition COLOR_DEFAULT : string := String ESC "[39m".

(** [%d] of a non-negative integer below [10^20] (every [uint64]). *)
Fixpoint dec_digits (fuel : nat) (n : Z) (acc : string) : string :=
  match fuel with
  | O => acc
  | S f =>
      let acc' := String (ascii_of_nat (48 + Z.to_nat (n mod 10))) acc in
      if n <? 10 then acc' else dec_digits f (n / 10) acc'
  end.

Definition decimal (n : Z) : string := dec_digits 20 n "".

Definition uint16_le (lo hi : byte) : Z := Z.lor lo (Z.shiftl hi 8).

(** The three counters [affectedRows], [lastInsertID] and [warnings]. *)
Definition ok_fields (data : list byte) : option (Z * Z * Z) :=
  let pos := 1%nat in
  match LengthEncodedInt (skipn pos data) with
  | None => None
  | Some (affectedRows, _, n) =>
      let pos := (pos + n)%nat in
      match LengthEncodedInt (skipn pos data) with
      | None => None
      | Some (lastInsertID, _, n) =>
          let pos := (pos + n)%nat in
          let warnings :=
            if (pos + 4 <=? length data)%nat
            then let pos := (pos + 2)%nat in
                 uint16_le (nth pos data 0) (nth (S pos) data 0)
            else 0 in
          Some (affectedRows, lastInsertID, warnings)
      end
  end.

Definition ok_text (affectedRows lastInsertID warnings : Z) : string :=
  COLOR_GREEN ++ "OK" ++ COLOR_DEFAULT
  ++ (if 0 <? affectedRows
      then ", " ++ COLOR_YELLOW ++ decimal affectedRows ++ " row(s) affected"
           ++ COLOR_DEFAULT
      else "")
  ++ (if 0 <? lastInsertID
      then ", " ++ COLOR_CYAN ++ "last insert ID: " ++ decimal lastInsertID
           ++ COLOR_DEFAULT
      else "")
  ++ (if 0 <? warnings
      then ", " ++ COLOR_YELLOW ++ decimal warnings ++ " warning(s)"
           ++ COLOR_DEFAULT
      else "").

Definition parseOKPacket (data : list byte) : option string :=
  if (length data <? 7)%nat then Some "OK"%string
  else match ok_fields data with
       | None => None
       | Some (a, l, w) => Some (ok_text a l w)
       end.

(** Substring and character search on the output. *)
Fixpoint contains (s sub : string) : bool :=
  String.prefix sub s
  || match s with
     | EmptyString => false
     | String _ s' => contains s' sub
     end.

Fixpoint has_char (c : ascii) (s : string) : bool :=
  match s with
  | EmptyString => false
  | String d s' => Ascii.eqb c d || has_char c s'
  end.

(** ** What the OK report mentions *)
Lemma has_char_app c s1 s2 :
  has_char c (s1 ++ s2) = has_char c s1 || has_char c s2.
Proof.
  induction s1 as [|d s1 IH]; simpl; [reflexivity|].
  rewrite IH, orb_assoc; reflexivity.
Qed.

Lemma prefix_has_char c sub s :
  String.prefix sub s = true -> has_char c sub = true -> has_char c s = true.
Proof.
  revert s; induction sub as [|d sub IH]; intros s Hp Hc; [discriminate Hc|].
  destruct s as [|e s]; [discriminate Hp|].
  simpl in Hp, Hc |- *.
  destruct (ascii_dec d e) as [->|]; [|discriminate Hp].
  apply orb_true_iff in Hc as [Hc|Hc]; [rewrite Hc; reflexivity|].
  rewrite (IH s Hp Hc), orb_true_r; reflexivity.
Qed.

Lemma contains_has_char c s sub :
  contains s sub = true -> has_char c sub = true -> has_char c s = true.
Proof.
  induction s as [|d s IH]; intros H Hc; cbn [contains] in H.
  - destruct sub; [discriminate Hc|simpl in H; discriminate H].
  - apply orb_true_iff in H as [H|H].
    + exact (prefix_has_char c sub _ H Hc).
    + simpl. rewrite (IH H Hc), orb_true_r; reflexivity.
Qed.

Definition is_digit_char (c : ascii) : Prop :=
  (48 <= nat_of_ascii c <= 57)%nat.

Lemma dec_digits_chars c fuel n acc :
  has_char c (dec_digits fuel n acc) = true ->
  has_char c acc = true \/ is_digit_char c.
Proof.
  revert n acc; induction fuel as [|f IH]; intros n acc H; [left; exact H|].
  simpl in H.
  assert (Hd : has_char c (String (ascii_of_nat (48 + Z.to_nat (n mod 10))) acc)
               = true -> has_char c acc = true \/ is_digit_char c).
  { simpl. intros H1. apply orb_true_iff in H1 as [H1|H1]; [|left; exact H1].
    right. apply Ascii.eqb_eq in H1. subst c. unfold is_digit_char.
    pose proof (Z.mod_pos_bound n 10 ltac:(lia)).
    rewrite Ascii.nat_ascii_embedding; lia. }
  destruct (n <? 10); [exact (Hd H)|].
  destruct (IH _ _ H) as [H1|H1]; [exact (Hd H1)|right; exact H1].
Qed.

Lemma decimal_chars c n :
  has_char c (decimal n) = true -> is_digit_char c.
Proof.
  intros H. destruct (dec_digits_chars c 20 n "" H) as [H1|H1];
    [discriminate H1|exact H1].
Qed.

(** The letters [f] (only in "row(s) affected") and [I] (only in
    "last insert ID") of the report. *)
Definition char_f : ascii := "f"%char.
Definition char_I : ascii := "I"%char.

Lemma ok_text_f a l w :
  has_char char_f (ok_text a l w) = true -> 0 < a.
Proof.
  intros H. unfold ok_text in H. rewrite !has_char_app in H.
  destruct (0 <? a) eqn:Ea; [apply Z.ltb_lt; exact Ea|exfalso].
  destruct (has_char char_f (decimal l)) eqn:Hl;
    [apply decimal_chars in Hl; unfold is_digit_char in Hl; vm_compute in Hl; lia|].
  destruct (has_char char_f (decimal w)) eqn:Hw;
    [apply decimal_chars in Hw; unfold is_digit_char in Hw; vm_compute in Hw; lia|].
  destruct (0 <? l), (0 <? w); rewrite ?has_char_app, ?Hl, ?Hw in H;
    vm_compute in H; discriminate H.
Qed.

Lemma ok_text_I a l w :
  has_char char_I (ok_text a l w) = true -> 0 < l.
Proof.
  intros H. unfold ok_text in H. rewrite !has_char_app in H.
  destruct (0 <? l) eqn:El; [apply Z.ltb_lt; exact El|exfalso].
  destruct (has_char char_I (decimal a)) eqn:Ha;
    [apply decimal_chars in Ha; unfold is_digit_char in Ha; vm_compute in Ha; lia|].
  destruct (has_char char_I (decimal w)) eqn:Hw;
    [apply decimal_chars in Hw; unfold is_digit_char in Hw; vm_compute in Hw; lia|].
  destruct (0 <? a), (0 <? w); rewrite ?has_char_app, ?Ha, ?Hw in H;
    vm_compute in H; discriminate H.
Qed.

(** C7.  The payload [00 03 64 00 00 01 00] is reported with 3 affected
    rows, last insert id 100 and 1 warning; and on every payload the report
    speaks of affected rows only when the decoded affected-row count is
    nonzero, and of the last insert id only when the decoded id is
    nonzero. *)
Theorem parseOKPacket_report :
  (exists out, parseOKPacket [0; 3; 100; 0; 0; 1; 0] = Some out
     /\ contains out "3 row(s) affected" = true
     /\ contains out "last insert ID: 100" = true
     /\ contains out "1 warning(s)" = true)
  /\ (forall data out, parseOKPacket data = Some out ->
       (contains out "row(s) affected" = true ->
          exists a l w, ok_fields data = Some (a, l, w) /\ 0 < a)
       /\ (contains out "last insert ID" = true ->
          exists a l w, ok_fields data = Some (a, l, w) /\ 0 < l)).
Proof.
  split.
  - eexists; split; [reflexivity|]. vm_compute. repeat split.
  - intros data out H. unfold parseOKPacket in H.
    destruct (length data <? 7)%nat.
    + injection H as <-. split; intros Hc; vm_compute in Hc; discriminate Hc.
    + destruct (ok_fields data) as [[[a l] w]|]; [|discriminate H].
      injection H as <-. split; intros Hc; exists a, l, w; split; auto.
      * apply ok_text_f with l w.
        apply (contains_has_char char_f _ _ Hc); reflexivity.
      * apply ok_text_I with a w.
        apply (contains_has_char char_I _ _ Hc); reflexivity.
Qed.

(** ** Latency summary: [calculateTimes]

    The loop over the reservoir, in [uint64] arithmetic: zero slots are
    skipped, [counts] and [total] wrap modulo 2^64.  The source returns
    [float64(x) / 1000000] of [min], [avg] and [max]; that conversion is
    monotone, so the order of the three [uint64] values below is the order
    of the returned floats.  [calculateTimes_ns] returns them in
    nanoseconds. *)
Definition U64 : Z := 2 ^ 64.

Fixpoint calc_loop (timings : list Z) (counts total min max : Z) (has_min : bool)
  : Z * Z * Z * Z * bool :=
  match timings with
  | [] => (counts, total, min, max, has_min)
  | val :: rest =>
      if val =? 0 then calc_loop rest counts total min max has_min
      else
        let '(has_min, min) :=
          if (val <? min) || negb has_min then (true, val) else (has_min, min) in
        let max := if max <? val then val else max in
        calc_loop rest ((counts + 1) mod U64) ((total + val) mod U64)
          min max has_min
  end.

Definition calculateTimes_ns (timings : list Z) : Z * Z * Z :=
  let '(counts, total, min, max, _) := calc_loop timings 0 0 0 0 false in
  let avg := if 0 <? counts then total / counts else 0 in
  (min, avg, max).

Definition sum_slots (timings : list Z) : Z := fold_right Z.add 0 timings.

Definition all_uint64 (timings : list Z) : bool :=
  forallb (fun v => (0 <=? v) && (v <? U64)) timings.

Definition has_nonzero (timings : list Z) : bool :=
  existsb (fun v => negb (v =? 0)) timings.

(** The loop invariant: [counts] nonzero slots seen, their sum [total],
    [min] and [max] bounding them. *)
Definition calc_inv (counts total min max : Z) (has_min : bool) : Prop :=
  0 <= counts <= total /\ total < U64 /\
  if has_min then 1 <= counts /\ 0 <= min /\ counts * min <= total <= counts * max
  else counts = 0 /\ total = 0 /\ max = 0.

Lemma sum_slots_nonneg l :
  all_uint64 l = true -> 0 <= sum_slots l.
Proof.
  induction l as [|v l IH]; simpl; [lia|].
  rewrite andb_true_iff, andb_true_iff, Z.leb_le. intros [[H _] Hl].
  specialize (IH Hl). lia.
Qed.

Lemma calc_loop_inv l : forall counts total min max has_min,
  all_uint64 l = true ->
  calc_inv counts total min max has_min ->
  total + sum_slots l < U64 ->
  forall c t mn mx h,
  calc_loop l counts total min max has_min = (c, t, mn, mx, h) ->
  calc_inv c t mn mx h /\ (has_min = true \/ has_nonzero l = true -> h = true).
Proof.
  induction l as [|v l IH];
    intros counts total min max has_min Hu Hi Hs c t mn mx h E.
  - injection E as <- <- <- <- <-. split; [exact Hi|]. intros [H|H]; [exact H|discriminate H].
  - cbn [all_uint64 forallb] in Hu. fold (all_uint64 l) in Hu.
    rewrite !andb_true_iff, Z.leb_le, Z.ltb_lt in Hu.
    destruct Hu as [[Hv0 Hv1] Hu].
    pose proof (sum_slots_nonneg l Hu) as Hl0.
    cbn [sum_slots fold_right] in Hs. fold (sum_slots l) in Hs.
    cbn [has_nonzero existsb]. fold (has_nonzero l).
    cbn [calc_loop] in E.
    destruct (Z.eqb_spec v 0) as [Hv|Hv].
    + cbn [negb orb].
      apply (IH counts total min max has_min Hu Hi); [lia|exact E].
    + destruct Hi as (Hc & Ht & Hh).
      assert (Hmod : forall x, 0 <= x < U64 -> x mod U64 = x)
        by (intros x Hx; apply Z.mod_small; exact Hx).
      destruct has_min.
      * destruct Hh as (H1 & H2 & H3 & H4).
        set (mn' := if (v <? min) || negb true then v else min).
        assert (Hp : (if (v <? min) || negb true then (true, v) else (true, min))
                     = (true, mn'))
          by (unfold mn'; destruct ((v <? min) || negb true); reflexivity).
        rewrite Hp in E.
        set (mx' := if max <? v then v else max).
        rewrite (Hmod (counts + 1)) in E by lia.
        rewrite (Hmod (total + v)) in E by lia.
        assert (Hmn : mn' <= min /\ mn' <= v /\ 0 <= mn').
        { unfold mn'. simpl. destruct (Z.ltb_spec v min); simpl; lia. }
        assert (Hmx : max <= mx' /\ v <= mx').
        { unfold mx'. destruct (Z.ltb_spec max v); lia. }
        assert (Hi' : calc_inv (counts + 1) (total + v) mn' mx' true).
        { split; [lia|]. split; [lia|]. split; [lia|]. split; [lia|]. nia. }
        destruct (IH (counts + 1) (total + v) mn' mx' true Hu Hi'
                     ltac:(lia) _ _ _ _ _ E) as [IH1 IH2].
        split; [exact IH1|]. intros _. apply IH2; left; reflexivity.
      * destruct Hh as (H1 & H2 & H3). subst counts total max.
        cbn [negb] in E. rewrite orb_true_r in E. cbn iota beta in E.
        replace (if 0 <? v then v else 0) with v in E
          by (destruct (Z.ltb_spec 0 v); lia).
        rewrite (Hmod (0 + 1)) in E by (unfold U64; lia).
        rewrite (Hmod (0 + v)) in E by lia.
        assert (Hi' : calc_inv (0 + 1) (0 + v) v v true).
        { split; [lia|]. split; [lia|]. split; [lia|]. split; [lia|]. nia. }
        destruct (IH (0 + 1) (0 + v) v v true Hu Hi' ltac:(lia) _ _ _ _ _ E)
          as [IH1 IH2].
        split; [exact IH1|]. intros _. apply IH2; left; reflexivity.
Qed.

Definition TIME_BUCKETS : nat := 10000.

(** A reservoir of [TIME_BUCKETS] slots with three slots of 2^63 ns: the
    sum wraps to 2^63, the average is a third of the minimum. *)
Definition wrapping_reservoir : list Z :=
  [2 ^ 63; 2 ^ 63; 2 ^ 63] ++ repeat 0 (TIME_BUCKETS - 3).

(** C9 fails when the slot sum reaches 2^64: on [wrapping_reservoir] (all
    slots [uint64], three nonzero) the average is below the minimum by far
    more than any rounding, it is less than half of it. *)
Lemma calculateTimes_wrap_counterexample :
  length wrapping_reservoir = TIME_BUCKETS
  /\ all_uint64 wrapping_reservoir = true
  /\ has_nonzero wrapping_reservoir = true
  /\ calculateTimes_ns wrapping_reservoir = (2 ^ 63, 2 ^ 63 / 3, 2 ^ 63)
  /\ 2 * (2 ^ 63 / 3) < 2 ^ 63.
Proof. vm_compute. repeat split; reflexivity. Qed.

(** C9, amended.  For a reservoir of [uint64] slots with at least one
    nonzero slot and a slot sum below 2^64, the minimum, the integer average
    and the maximum of the nonzero slots satisfy [min <= avg <= max]; the
    monotone conversion to milliseconds keeps that order. *)
Theorem calculateTimes_ordered (timings : list Z) :
  all_uint64 timings = true ->
  has_nonzero timings = true ->
  sum_slots timings < U64 ->
  let '(min, avg, max) := calculateTimes_ns timings in min <= avg <= max.
Proof.
  intros Hu Hn Hs. unfold calculateTimes_ns.
  destruct (calc_loop timings 0 0 0 0 false) as [[[[c t] mn] mx] h] eqn:E.
  assert (Hi0 : calc_inv 0 0 0 0 false) by (unfold calc_inv, U64; lia).
  destruct (calc_loop_inv timings 0 0 0 0 false Hu Hi0 ltac:(lia) _ _ _ _ _ E)
    as [Hi Hh].
  rewrite (Hh (or_intror Hn)) in Hi.
  destruct Hi as (_ & _ & H1 & H2 & H3 & H4).
  replace (0 <? c) with true by (symmetry; apply Z.ltb_lt; lia).
  split.
  - apply Z.div_le_lower_bound; lia.
  - apply Z.div_le_upper_bound; lia.
Qed.

(** A reservoir of [TIME_BUCKETS] slots with three measured latencies. *)
Lemma calculateTimes_ordered_witness :
  let timings := [0; 1200; 0; 3400; 500] ++ repeat 0 (TIME_BUCKETS - 5) in
  calculateTimes_ns timings = (500, 1700, 3400)
  /\ (let '(min, avg, max) := calculateTimes_ns timings in min <= avg <= max).
Proof.
  intros timings. split; [vm_compute; reflexivity|].
  apply calculateTimes_ordered; vm_compute; reflexivity.
Defined.

(** ** Flow state machine: [processRequest] and [processResponse]

    The fields of a [source] that the two handlers read and write: the
    sync flag, the request buffer, the response buffer ([None] for Go's
    [nil]; the capture loop drops empty payloads, so a stored response
    buffer is never [nil]), the outstanding-request timestamp and the
    query counter [queryCount] (a package-level [int] in the source,
    shared by all flows; here only the increments one flow makes are
    tracked, from the value it is given, without the 64-bit wrap-around,
    so no theorem bounds its value).  The
    statistics ([stats], [qbuf], [qData], the timing reservoirs) and the
    verbose display are left out: neither handler branches on them.  A
    panic of [parseComQuery] ends the program: [None]. *)
Definition COM_QUERY : byte := 3.
Definition COM_PING : byte := 14.

Record source := mk_source {
  synced : bool;
  reqBuffer : list byte;
  respBuffer : option (list byte);
  reqSent : option Z;
  queryCount : Z
}.

Definition new_source : source := mk_source false [] None None 0.

(** [tnow] is the value of [time.Now()] when the request is recorded. *)
Definition processRequest (rs : source) (data : list byte) (tnow : Z)
  : option source :=
  let '(synced0, respBuffer0) :=
    match respBuffer rs with
    | Some _ => (false, None)
    | None => (synced rs, None)
    end in
  (* [rs.reqBuffer = data] *)
  match carvePacket data with
  | (CarveErr _, buf) =>
      Some (mk_source synced0 buf respBuffer0 (reqSent rs) (queryCount rs))
  | (CarveOk pType pData, buf) =>
      if negb synced0 && negb (pType =? COM_QUERY)
      then Some (mk_source synced0 [] None (reqSent rs) (queryCount rs))
      else
        let record :=
          Some (mk_source true buf respBuffer0 (Some tnow) (queryCount rs + 1)) in
        if pType =? COM_QUERY then
          match parseComQuery pData with
          | Ret _ => record
          | Fail _ =>
              Some (mk_source true buf respBuffer0 (reqSent rs) (queryCount rs))
          | Panic => None
          end
        else record
  end.

Definition processResponse (rs : source) (data : list byte) : source :=
  let respBuffer1 :=
    match respBuffer rs with
    | None => data
    | Some b => b ++ data
    end in
  match reqSent rs with
  | None => mk_source (synced rs) (reqBuffer rs) (Some respBuffer1) None
              (queryCount rs)
  | Some _ => mk_source (synced rs) (reqBuffer rs) None None (queryCount rs)
  end.

(** A segment of the flow: a request payload with the clock reading of its
    processing, or a response payload. *)
Inductive event :=
| Req (data : list byte) (tnow : Z)
| Resp (data : list byte).

Definition processPacket (rs : source) (e : event) : option source :=
  match e with
  | Req data tnow => processRequest rs data tnow
  | Resp data => Some (processResponse rs data)
  end.

Fixpoint run (rs : source) (tr : list event) : option source :=
  match tr with
  | [] => Some rs
  | e :: tr' =>
      match processPacket rs e with
      | None => None
      | Some rs' => run rs' tr'
      end
  end.

Definition is_request (e : event) : bool :=
  match e with Req _ _ => true | Resp _ => false end.

(** The request at the end of [pre] records a command: it is counted in
    [queryCount]. *)
Definition recorded_at (pre : list event) (data : list byte) (tnow : Z) : Prop :=
  exists rs rs', run new_source pre = Some rs
    /\ processRequest rs data tnow = Some rs'
    /\ queryCount rs' = queryCount rs + 1.

(** The reading of the specification: some request recorded a
    [COM_QUERY], and no response segment came after it. *)
Definition query_outstanding (tr : list event) : Prop :=
  exists pre data tnow post pData rest,
    tr = pre ++ Req data tnow :: post
    /\ recorded_at pre data tnow
    /\ carvePacket data = (CarveOk COM_QUERY pData, rest)
    /\ forallb is_request post = true.

(** The same with any recorded command. *)
Definition command_outstanding (tr : list event) : Prop :=
  exists pre data tnow post,
    tr = pre ++ Req data tnow :: post
    /\ recorded_at pre data tnow
    /\ forallb is_request post = true.

(** The specification's framing step: the payload is appended to the
    buffer before the framer runs. *)
Definition processRequest_appending (rs : source) (data : list byte) (tnow : Z)
  : option source :=
  processRequest rs (reqBuffer rs ++ data) tnow.

Fixpoint run_appending (rs : source) (tr : list event) : option source :=
  match tr with
  | [] => Some rs
  | e :: tr' =>
      match e with
      | Req data tnow =>
          match processRequest_appending rs data tnow with
          | None => None
          | Some rs' => run_appending rs' tr'
          end
      | Resp data => run_appending (processResponse rs data) tr'
      end
  end.

(** ** The outstanding-request timestamp along a flow *)
Lemma run_app rs a b :
  run rs (a ++ b) = match run rs a with None => None | Some rs' => run rs' b end.
Proof.
  revert rs; induction a as [|e a IH]; intros rs; simpl; [reflexivity|].
  destruct (processPacket rs e); [apply IH|reflexivity].
Qed.

Lemma processRequest_reqSent rs data tnow rs' :
  processRequest rs data tnow = Some rs' ->
  (queryCount rs' = queryCount rs + 1 /\ reqSent rs' = Some tnow)
  \/ (queryCount rs' = queryCount rs /\ reqSent rs' = reqSent rs).
Proof.
  unfold processRequest. intros H.
  destruct (match respBuffer rs with Some _ => (false, None) | None => (synced rs, None) end)
    as [s0 b0].
  destruct (carvePacket data) as [[msg|pType pData] buf].
  - injection H as <-. right; split; reflexivity.
  - destruct (negb s0 && negb (pType =? COM_QUERY)).
    { injection H as <-. right; split; reflexivity. }
    destruct (pType =? COM_QUERY).
    + destruct (parseComQuery pData); [| |discriminate H]; injection H as <-.
      * left; split; reflexivity.
      * right; split; reflexivity.
    + injection H as <-. left; split; reflexivity.
Qed.

Lemma processResponse_reqSent rs data :
  reqSent (processResponse rs data) = None.
Proof. unfold processResponse. destruct (reqSent rs); reflexivity. Qed.

Lemma split_last {A} (pre post l : list A) (x y : A) :
  pre ++ x :: post = l ++ [y] ->
  (pre = l /\ x = y /\ post = [])
  \/ (exists post', post = post' ++ [y] /\ l = pre ++ x :: post').
Proof.
  intros H. destruct post as [|z post'] using rev_ind.
  - left. apply app_inj_tail in H as [-> ->]. auto.
  - right. exists post'. rewrite app_comm_cons, app_assoc in H.
    apply app_inj_tail in H as [<- ->]. auto.
Qed.

(** C1, amended.  Along every sequence of segments of a flow, the
    outstanding-request timestamp is set exactly when some request recorded
    a command (a [COM_QUERY], or any command once the flow is synced) and
    no response segment has been processed after it; a response segment
    processed while it is set clears it. *)
Theorem reqSent_command_outstanding (tr : list event) (rs : source) :
  run new_source tr = Some rs ->
  (reqSent rs <> None <-> command_outstanding tr)
  /\ (forall data, reqSent rs <> None -> reqSent (processResponse rs data) = None).
Proof.
  intros H. split; [|intros data _; apply processResponse_reqSent].
  revert rs H. induction tr as [|e tr IH] using rev_ind; intros rs H.
  - injection H as <-. split; [intros Hs; exfalso; apply Hs; reflexivity|].
    intros (pre & data & tnow & post & Heq & _).
    exfalso; exact (app_cons_not_nil pre post (Req data tnow) Heq).
  - rewrite run_app in H.
    destruct (run new_source tr) as [rs0|] eqn:E0; [|discriminate H].
    specialize (IH rs0 eq_refl).
    simpl in H. destruct (processPacket rs0 e) as [rs1|] eqn:E1; [|discriminate H].
    injection H as <-.
    destruct e as [data tnow|data]; simpl in E1.
    + destruct (processRequest_reqSent rs0 data tnow rs1 E1) as [[Hq Hs]|[Hq Hs]].
      * rewrite Hs. split; [intros _|intros _; discriminate].
        exists tr, data, tnow, []. split; [reflexivity|]. split; [|reflexivity].
        exists rs0, rs1. auto.
      * rewrite Hs, IH. split.
        -- intros (pre & d & t & post & Heq & Hrec & Hpost).
           exists pre, d, t, (post ++ [Req data tnow]).
           split; [rewrite Heq, <- app_assoc; reflexivity|]. split; [exact Hrec|].
           rewrite forallb_app, Hpost; reflexivity.
        -- intros (pre & d & t & post & Heq & Hrec & Hpost).
           symmetry in Heq.
           apply split_last in Heq as [(-> & Hx & ->)|(post' & -> & ->)].
           ++ injection Hx as -> ->.
              destruct Hrec as (r0 & r1 & Hr0 & Hr1 & Hr).
              rewrite E0 in Hr0. injection Hr0 as <-.
              rewrite E1 in Hr1. injection Hr1 as <-. lia.
           ++ exists pre, d, t, post'. split; [reflexivity|]. split; [exact Hrec|].
              rewrite forallb_app in Hpost. apply andb_true_iff in Hpost.
              exact (proj1 Hpost).
    + injection E1 as <-. rewrite processResponse_reqSent.
      split; [intros Hs; exfalso; apply Hs; reflexivity|].
      intros (pre & d & t & post & Heq & _ & Hpost). symmetry in Heq.
      apply split_last in Heq as [(_ & Hx & _)|(post' & -> & _)];
        [discriminate Hx|].
      rewrite forallb_app in Hpost. apply andb_true_iff in Hpost.
      destruct Hpost as [_ Hp]. discriminate Hp.
Qed.

(** A flow that sends [select 1], gets its response, then sends a
    [COM_PING]. *)
Definition query_frame : list byte := [9; 0; 0; 0; COM_QUERY] ++ bytes_of "select 1".
Definition ping_frame : list byte := [1; 0; 0; 0; COM_PING].
Definition ok_segment : list byte := [7; 0; 0; 1; 0; 0; 0; 2; 0; 0; 0].
Definition ping_trace : list event :=
  [Req query_frame 1; Resp ok_segment; Req ping_frame 2].

(** C1 fails as stated: after [ping_trace] the timestamp is set (to the
    ping's clock reading), though the only [COM_QUERY] of the flow has
    had its response. *)
Lemma reqSent_ping_counterexample :
  run new_source ping_trace = Some (mk_source true [] None (Some 2) 2)
  /\ ~ query_outstanding ping_trace.
Proof.
  split; [vm_compute; reflexivity|].
  intros (pre & data & tnow & post & pData & rest & Heq & _ & Hc & Hpost).
  unfold ping_trace in Heq.
  destruct pre as [|e1 [|e2 [|e3 pre]]]; cbn [app] in Heq;
    injection Heq; intros; subst.
  - discriminate Hpost.
  - discriminate.
  - vm_compute in Hc. discriminate Hc.
  - destruct pre; discriminate.
Qed.

(** On [ping_trace] the ping is the outstanding command. *)
Lemma reqSent_command_outstanding_witness :
  exists rs, run new_source ping_trace = Some rs
  /\ (reqSent rs <> None <-> command_outstanding ping_trace)
  /\ (forall data, reqSent rs <> None -> reqSent (processResponse rs data) = None).
Proof.
  eexists. split; [vm_compute; reflexivity|].
  apply reqSent_command_outstanding. vm_compute. reflexivity.
Defined.

(** A [COM_QUERY] for [select 1] split over two request segments. *)
Definition split_first : list byte := [9; 0; 0; 0; COM_QUERY] ++ bytes_of "sel".
Definition split_second : list byte := bytes_of "ect 1".

(** C5.  The code replaces the request buffer with each new segment: the
    bytes kept from the incomplete first segment are lost, the second
    segment alone does not frame, and nothing is recorded.  Appending the
    segment to the buffer, as the specification says, frames and records
    the query. *)
Theorem processRequest_overwrites_buffer :
  run new_source [Req split_first 1; Req split_second 2]
    = Some (mk_source false split_second None None 0)
  /\ run_appending new_source [Req split_first 1; Req split_second 2]
    = Some (mk_source true [] None (Some 2) 1).
Proof. split; vm_compute; reflexivity. Qed.

(** ** Response buffers: [collectAllResponsePackets]

    The loop cuts the response buffer into packets while at least four
    bytes remain: the size is the 24-bit little-endian header, and a zero
    size or a packet cut short ends the loop.  [uint32] arithmetic on a
    24-bit size does not wrap.  The fuel is the length of the buffer;
    every round consumes at least five bytes. *)
Fixpoint collect_loop (fuel : nat) (buf : list byte) : list (list byte) :=
  match fuel with
  | O => []
  | S f =>
      if (4 <=? length buf)%nat then
        let size := Z.lor (Z.lor (nth 0 buf 0) (Z.shiftl (nth 1 buf 0) 8))
                          (Z.shiftl (nth 2 buf 0) 16) in
        if (size =? 0) || (Z.of_nat (length buf) <? size + 4) then []
        else firstn (Z.to_nat size) (skipn 4 buf)
               :: collect_loop f (skipn (Z.to_nat (size + 4)) buf)
      else []
  end.

Definition collectAllResponsePackets (buffer : list byte) : list (list byte) :=
  collect_loop (length buffer) buffer.

(** A packet as the server frames it: 24-bit little-endian payload length,
    sequence number, payload. *)
Definition frame (seq : byte) (payload : list byte) : list byte :=
  let L := Z.of_nat (length payload) in
  [L mod 256; (L / 256) mod 256; L / 65536; seq] ++ payload.

Definition frames (ps : list (byte * list byte)) : list byte :=
  concat (map (fun sp => frame (fst sp) (snd sp)) ps).

Definition frameable (sp : byte * list byte) : Prop :=
  (1 <= length (snd sp))%nat /\ Z.of_nat (length (snd sp)) < 2 ^ 24.

Lemma lor_shiftl k lo hi :
  0 <= k -> 0 <= lo < 2 ^ k -> 0 <= hi -> Z.lor lo (Z.shiftl hi k) = lo + 2 ^ k * hi.
Proof.
  intros Hk Hlo Hhi.
  assert (Hl : Z.land lo (Z.shiftl hi k) = 0).
  { apply Z.bits_inj'. intros n Hn. rewrite Z.land_spec, Z.bits_0.
    destruct (Z.lt_ge_cases n k).
    - rewrite Z.shiftl_spec by lia. rewrite (Z.testbit_neg_r hi (n - k)) by lia.
      apply andb_false_r.
    - replace lo with (lo mod 2 ^ k) by (apply Z.mod_small; lia).
      rewrite Z.mod_pow2_bits_high by lia. reflexivity. }
  pose proof (Z.add_lor_land lo (Z.shiftl hi k)) as H.
  rewrite Hl, Z.add_0_r in H. rewrite H, Z.shiftl_mul_pow2 by lia. lia.
Qed.

(** The 24-bit header of three bytes. *)
Lemma header_size b0 b1 b2 :
  0 <= b0 < 256 -> 0 <= b1 < 256 -> 0 <= b2 ->
  Z.lor (Z.lor b0 (Z.shiftl b1 8)) (Z.shiftl b2 16) = b0 + 256 * b1 + 65536 * b2.
Proof.
  intros H0 H1 H2.
  rewrite (lor_shiftl 8 b0 b1) by lia.
  rewrite (lor_shiftl 16) by lia. lia.
Qed.

Lemma collect_size_nonneg buf :
  Forall is_byte buf ->
  0 <= Z.lor (Z.lor (nth 0 buf 0) (Z.shiftl (nth 1 buf 0) 8)) (Z.shiftl (nth 2 buf 0) 16).
Proof.
  intros H. pose proof (nth_byte_nonneg buf 0 H). pose proof (nth_byte_nonneg buf 1 H).
  pose proof (nth_byte_nonneg buf 2 H).
  apply Z.lor_nonneg; split; [apply Z.lor_nonneg; split|]; try apply Z.shiftl_nonneg; lia.
Qed.

Lemma header_digits L :
  L mod 256 + 256 * ((L / 256) mod 256) + 65536 * (L / 65536) = L.
Proof.
  replace 65536 with (256 * 256) by reflexivity.
  rewrite <- Z.div_div by lia.
  pose proof (Z.div_mod L 256 ltac:(lia)).
  pose proof (Z.div_mod (L / 256) 256 ltac:(lia)). lia.
Qed.

Lemma collect_fuel f : forall g buf,
  Forall is_byte buf ->
  (length buf <= f)%nat -> (length buf <= g)%nat ->
  collect_loop f buf = collect_loop g buf.
Proof.
  induction f as [|f IH]; intros g buf Hb Hf Hg.
  - destruct buf; [|cbn in Hf; lia]. destruct g; reflexivity.
  - destruct g as [|g].
    + destruct buf; [reflexivity|cbn in Hg; lia].
    + cbn [collect_loop].
      destruct (4 <=? length buf)%nat eqn:E4; [|reflexivity].
      apply Nat.leb_le in E4. pose proof (collect_size_nonneg buf Hb).
      match goal with |- (if ?c then _ else _) = _ => destruct c end;
        [reflexivity|].
      f_equal. apply IH; [apply Forall_skipn'; exact Hb| |];
        rewrite length_skipn; lia.
Qed.

Lemma collect_frame seq p rest :
  frameable (seq, p) -> Forall is_byte rest ->
  collectAllResponsePackets (frame seq p ++ rest) = p :: collectAllResponsePackets rest.
Proof.
  intros [H1 H2] Hr. cbn [snd] in H1, H2.
  set (L := Z.of_nat (length p)) in *.
  unfold collectAllResponsePackets.
  assert (Hlen : length (frame seq p ++ rest) = (4 + length p + length rest)%nat)
    by (unfold frame; rewrite !length_app; reflexivity).
  rewrite Hlen. unfold frame. fold L. cbn [app].
  change (4 + length p + length rest)%nat with (S (3 + length p + length rest)).
  cbn [collect_loop length nth Nat.leb].
  assert (HL : 1 <= L < 16777216) by (unfold L; cbn in H2; lia).
  assert (HLp : Z.to_nat L = length p) by (unfold L; lia).
  clearbody L.
  rewrite header_size;
    [| pose proof (Z.mod_pos_bound L 256); lia
     | pose proof (Z.mod_pos_bound (L / 256) 256); lia
     | apply Z.div_pos; lia].
  rewrite header_digits.
  rewrite length_app.
  replace ((L =? 0) || (Z.of_nat (S (S (S (S (length p + length rest))))) <? L + 4))
    with false
    by (symmetry; apply orb_false_iff; split; [apply Z.eqb_neq|apply Z.ltb_ge]; lia).
  rewrite HLp.
  replace (Z.to_nat (L + 4)) with (S (S (S (S (length p))))) by lia.
  cbn [skipn]. rewrite skipn_app, skipn_all, Nat.sub_diag, skipn_O, app_nil_l.
  rewrite firstn_app, firstn_all, Nat.sub_diag, firstn_O, app_nil_r.
  f_equal. apply collect_fuel; [exact Hr| |]; lia.
Qed.

Lemma frame_bytes sp :
  frameable sp -> is_byte (fst sp) -> Forall is_byte (snd sp) ->
  Forall is_byte (frame (fst sp) (snd sp)).
Proof.
  destruct sp as [seq p]. intros [_ H2] Hs Hp. cbn [fst snd] in *. unfold frame.
  set (L := Z.of_nat (length p)) in *.
  assert (HL : 0 <= L < 16777216) by (unfold L; cbn in H2; lia). clearbody L.
  apply Forall_app. split; [|exact Hp].
  pose proof (Z.mod_pos_bound L 256 ltac:(lia)).
  pose proof (Z.mod_pos_bound (L / 256) 256 ltac:(lia)).
  assert (0 <= L / 65536 < 256).
  { split; [apply Z.div_pos; lia|]. apply Z.div_lt_upper_bound; lia. }
  unfold is_byte in Hs. repeat (constructor; [unfold is_byte; lia|]); constructor.
Qed.

Definition good_frame (sp : byte * list byte) : Prop :=
  frameable sp /\ is_byte (fst sp) /\ Forall is_byte (snd sp).

Lemma frames_bytes fs : Forall good_frame fs -> Forall is_byte (frames fs).
Proof.
  induction 1 as [|sp fs (H1 & H2 & H3) _ IH]; [constructor|].
  unfold frames. cbn [map concat]. apply Forall_app. split; [|exact IH].
  apply frame_bytes; assumption.
Qed.

Definition bytes_ok (l : list byte) : bool :=
  forallb (fun b => (0 <=? b) && (b <? 256)) l.

Definition frame_ok (sp : byte * list byte) : bool :=
  (1 <=? length (snd sp))%nat && (Z.of_nat (length (snd sp)) <? 2 ^ 24)
  && (0 <=? fst sp) && (fst sp <? 256) && bytes_ok (snd sp).

Lemma bytes_ok_Forall l : bytes_ok l = true -> Forall is_byte l.
Proof.
  intros H. apply Forall_forall. intros x Hx. unfold bytes_ok in H.
  rewrite forallb_forall in H. specialize (H x Hx).
  rewrite andb_true_iff, Z.leb_le, Z.ltb_lt in H. exact H.
Qed.

Lemma frame_ok_good fs : forallb frame_ok fs = true -> Forall good_frame fs.
Proof.
  intros H. apply Forall_forall. intros [seq p] Hx. rewrite forallb_forall in H.
  specialize (H _ Hx). unfold frame_ok in H. cbn [fst snd] in H.
  rewrite !andb_true_iff, Nat.leb_le, Z.ltb_lt, Z.leb_le, Z.ltb_lt in H.
  destruct H as ((((H1 & H2) & H3) & H4) & H5).
  split; [split; assumption|]. split; [unfold is_byte; cbn; lia|].
  apply bytes_ok_Forall; exact H5.
Qed.

(** Framing a list of packets and cutting the result apart gives the
    payloads back, followed by what the rest of the buffer gives. *)
Theorem collectAllResponsePackets_frames (fs : list (byte * list byte)) (rest : list byte) :
  forallb frame_ok fs = true -> bytes_ok rest = true ->
  collectAllResponsePackets (frames fs ++ rest)
  = map snd fs ++ collectAllResponsePackets rest.
Proof.
  intros Hfs Hr. apply frame_ok_good in Hfs. apply bytes_ok_Forall in Hr.
  induction Hfs as [|[seq p] fs (H1 & H2 & H3) Hfs IH]; [reflexivity|].
  unfold frames. cbn [map concat]. rewrite <- app_assoc.
  rewrite collect_frame by (exact H1 || (apply Forall_app; split; [apply frames_bytes|]; assumption)).
  cbn [snd map app]. f_equal. exact IH.
Qed.

Lemma header_bytes b0 b1 b2 :
  0 <= b0 < 256 -> 0 <= b1 < 256 -> 0 <= b2 < 256 ->
  (b0 + 256 * b1 + 65536 * b2) mod 256 = b0
  /\ ((b0 + 256 * b1 + 65536 * b2) / 256) mod 256 = b1
  /\ (b0 + 256 * b1 + 65536 * b2) / 65536 = b2.
Proof.
  intros H0 H1 H2.
  assert (Hd : (b0 + 256 * b1 + 65536 * b2) / 256 = b1 + 256 * b2).
  { symmetry. apply (Z.div_unique _ _ _ b0); lia. }
  split; [symmetry; apply (Z.mod_unique _ _ (b1 + 256 * b2)); lia|].
  split; [rewrite Hd; symmetry; apply (Z.mod_unique _ _ b2); lia|].
  symmetry. apply (Z.div_unique _ _ _ (b0 + 256 * b1)); lia.
Qed.

Lemma collect_stop buf :
  Forall is_byte buf -> collect_loop (S (length buf)) buf = [] ->
  collectAllResponsePackets buf = [].
Proof.
  intros Hb H. unfold collectAllResponsePackets.
  rewrite (collect_fuel _ (S (length buf))) by (exact Hb || lia). exact H.
Qed.

Lemma collect_loop_split f : forall buf,
  Forall is_byte buf -> (length buf <= f)%nat ->
  exists seqs rest,
    buf = frames (combine seqs (collect_loop f buf)) ++ rest
    /\ length seqs = length (collect_loop f buf)
    /\ collectAllResponsePackets rest = [].
Proof.
  induction f as [|f IH]; intros buf Hb Hf.
  - destruct buf; [|cbn in Hf; lia]. exists [], []. repeat split.
  - assert (Hstop : collect_loop (S f) buf = [] ->
      exists seqs rest,
        buf = frames (combine seqs (collect_loop (S f) buf)) ++ rest
        /\ length seqs = length (collect_loop (S f) buf)
        /\ collectAllResponsePackets rest = []).
    { intros E. rewrite E. exists [], buf. split; [reflexivity|]. split; [reflexivity|].
      apply collect_stop; [exact Hb|].
      rewrite (collect_fuel _ (S f)) by (exact Hb || lia). exact E. }
    destruct buf as [|b0 [|b1 [|b2 [|b3 tl]]]]; try (apply Hstop; reflexivity).
    inversion Hb as [|? ? Hb0 Hb']; subst. inversion Hb' as [|? ? Hb1 Hb'']; subst.
    inversion Hb'' as [|? ? Hb2 Hb3']; subst. inversion Hb3' as [|? ? Hb3 Htl]; subst.
    unfold is_byte in Hb0, Hb1, Hb2, Hb3.
    cbn [collect_loop length nth Nat.leb skipn] in *.
    rewrite header_size in * by lia.
    set (size := b0 + 256 * b1 + 65536 * b2) in *.
    destruct ((size =? 0) || (Z.of_nat (S (S (S (S (length tl))))) <? size + 4)) eqn:Ec;
      [apply Hstop; reflexivity|].
    apply orb_false_iff in Ec as [Ec1 Ec2].
    apply Z.eqb_neq in Ec1. apply Z.ltb_ge in Ec2.
    replace (Z.to_nat (size + 4)) with (S (S (S (S (Z.to_nat size))))) by lia.
    cbn [skipn].
    destruct (IH (skipn (Z.to_nat size) tl)) as (seqs & rest & E & Hl & Hr).
    { apply Forall_skipn'; exact Htl. }
    { rewrite length_skipn. lia. }
    exists (b3 :: seqs), rest. split; [|split; [cbn [length]; rewrite Hl; reflexivity|exact Hr]].
    cbn [combine]. unfold frames. cbn [map concat fst snd]. fold (frames (combine seqs
      (collect_loop f (skipn (Z.to_nat size) tl)))).
    rewrite <- app_assoc, <- E.
    assert (Hlp : Z.of_nat (length (firstn (Z.to_nat size) tl)) = size)
      by (rewrite length_firstn; lia).
    unfold frame. rewrite Hlp.
    destruct (header_bytes b0 b1 b2 Hb0 Hb1 Hb2) as (E0 & E1 & E2).
    fold size in E0, E1, E2. rewrite E0, E1, E2.
    cbn [app]. rewrite firstn_skipn. reflexivity.
Qed.

(** Every buffer is the framed packets [collectAllResponsePackets] returns,
    one sequence byte each, followed by a rest from which no packet can be
    cut: the loop returns complete packets in order and stops at the first
    incomplete or zero-length one. *)
Theorem collectAllResponsePackets_split (buf : list byte) :
  bytes_ok buf = true ->
  exists seqs rest,
    buf = frames (combine seqs (collectAllResponsePackets buf)) ++ rest
    /\ length seqs = length (collectAllResponsePackets buf)
    /\ collectAllResponsePackets rest = [].
Proof.
  intros Hb. apply collect_loop_split; [apply bytes_ok_Forall; exact Hb|lia].
Qed.

(** An OK packet and an EOF packet, then two stray bytes. *)
Lemma collectAllResponsePackets_frames_witness :
  collectAllResponsePackets (frames [(1, [0; 0; 0; 2; 0; 0; 0]); (2, [254; 0; 0; 2; 0])] ++ [5; 0])
  = [[0; 0; 0; 2; 0; 0; 0]; [254; 0; 0; 2; 0]].
Proof.
  rewrite collectAllResponsePackets_frames by (vm_compute; reflexivity).
  vm_compute. reflexivity.
Defined.

Lemma collectAllResponsePackets_split_witness :
  exists seqs rest,
    [7; 0; 0; 1; 0; 0; 0; 2; 0; 0; 0; 9; 0] =
      frames (combine seqs (collectAllResponsePackets [7; 0; 0; 1; 0; 0; 0; 2; 0; 0; 0; 9; 0]))
      ++ rest
    /\ length seqs = length (collectAllResponsePackets [7; 0; 0; 1; 0; 0; 0; 2; 0; 0; 0; 9; 0])
    /\ collectAllResponsePackets rest = [].
Proof.
  apply collectAllResponsePackets_split. vm_compute. reflexivity.
Defined.

(** ** Response decoder: [parseErrorPacket]

    After the [0xff] byte come the 16-bit little-endian error code, an
    optional [#] with a five-byte SQLSTATE, and the message.  The guard
    [len(data) < 9] keeps every index and slice in range. *)
Definition COLOR_RED : string := String ESC "[31m".

(** Go's [string(b)] of a byte slice. *)
Definition string_of_bytes (l : list byte) : string :=
  string_of_list_ascii (map (fun b => ascii_of_nat (Z.to_nat b)) l).

Definition HASH : byte := 35.

Definition parseErrorPacket (data : list byte) : string :=
  if (length data <? 9)%nat then "ERROR"%string
  else
    let pos := 1%nat in
    let errorCode := uint16_le (nth pos data 0) (nth (S pos) data 0) in
    let pos := (pos + 2)%nat in
    let '(sqlState, message) :=
      if nth pos data 0 =? HASH
      then (string_of_bytes (firstn 5 (skipn (S pos) data)),
            string_of_bytes (skipn (S pos + 5) data))
      else (""%string, string_of_bytes (skipn pos data)) in
    if negb (String.eqb sqlState "")
    then COLOR_RED ++ "ERROR " ++ decimal errorCode ++ " (" ++ sqlState ++ "): "
         ++ message ++ COLOR_DEFAULT
    else COLOR_RED ++ "ERROR " ++ decimal errorCode ++ ": " ++ message ++ COLOR_DEFAULT.

Lemma uint16_le_split code :
  0 <= code < 65536 -> uint16_le (code mod 256) (code / 256) = code.
Proof.
  intros H. unfold uint16_le.
  pose proof (Z.mod_pos_bound code 256 ltac:(lia)).
  rewrite (lor_shiftl 8) by (try apply Z.div_pos; lia).
  pose proof (Z.div_mod code 256 ltac:(lia)). lia.
Qed.

(** An ERR payload whose code is followed by [#] and a five-byte SQLSTATE
    is reported with the code in decimal, the SQLSTATE in parentheses and
    the message; without the [#] marker, everything after the code is the
    message. *)
Theorem parseErrorPacket_fields (code : Z) (state msg : list byte) :
  0 <= code < 65536 ->
  length state = 5%nat ->
  parseErrorPacket ([255; code mod 256; code / 256; HASH] ++ state ++ msg)
  = (COLOR_RED ++ "ERROR " ++ decimal code ++ " (" ++ string_of_bytes state ++ "): "
     ++ string_of_bytes msg ++ COLOR_DEFAULT)%string
  /\ ((6 <= length msg)%nat -> nth 0 msg 0 <> HASH ->
      parseErrorPacket ([255; code mod 256; code / 256] ++ msg)
      = (COLOR_RED ++ "ERROR " ++ decimal code ++ ": " ++ string_of_bytes msg
         ++ COLOR_DEFAULT)%string).
Proof.
  intros Hc Hs. split.
  - unfold parseErrorPacket.
    replace (Nat.ltb (length ([255; code mod 256; code / 256; HASH] ++ state ++ msg)) 9)
      with false by (symmetry; apply Nat.ltb_ge; rewrite !length_app, Hs; cbn; lia).
    destruct state as [|a [|b [|c [|d [|e [|f state]]]]]]; try discriminate Hs.
    cbn [nth app plus]. rewrite uint16_le_split by exact Hc. reflexivity.
  - intros Hm Hh. unfold parseErrorPacket.
    replace (Nat.ltb (length ([255; code mod 256; code / 256] ++ msg)) 9)
      with false by (symmetry; apply Nat.ltb_ge; rewrite !length_app; cbn; lia).
    cbn [nth app plus]. rewrite uint16_le_split by exact Hc.
    destruct msg as [|m msg]; [cbn in Hm; lia|]. cbn [nth] in Hh |- *.
    rewrite (proj2 (Z.eqb_neq m HASH) Hh). reflexivity.
Qed.

Lemma parseErrorPacket_fields_witness :
  parseErrorPacket ([255; 1146 mod 256; 1146 / 256; HASH] ++ bytes_of "23000" ++ bytes_of "Duplicate")
  = (COLOR_RED ++ "ERROR " ++ decimal 1146 ++ " (" ++ string_of_bytes (bytes_of "23000")
     ++ "): " ++ string_of_bytes (bytes_of "Duplicate") ++ COLOR_DEFAULT)%string.
Proof.
  apply (parseErrorPacket_fields 1146 (bytes_of "23000") (bytes_of "Duplicate"));
    [lia | reflexivity].
Defined.

(** ** OK packets as the server encodes them *)

(** [n] little-endian bytes of [v]. *)
Fixpoint le_bytes (n : nat) (v : Z) : list byte :=
  match n with
  | O => []
  | S k => v mod 256 :: le_bytes k (v / 256)
  end.

(** The length-encoded integer of [v] (the shortest form). *)
Definition lenenc (v : Z) : list byte :=
  if v <? 251 then [v]
  else if v <? 65536 then 252 :: le_bytes 2 v
  else if v <? 16777216 then 253 :: le_bytes 3 v
  else 254 :: le_bytes 8 v.

(** An OK payload: header byte, affected rows, last insert id, status
    flags, warnings. *)
Definition ok_payload (affectedRows lastInsertID status warnings : Z) : list byte :=
  [0] ++ lenenc affectedRows ++ lenenc lastInsertID ++ le_bytes 2 status
  ++ le_bytes 2 warnings.

Lemma length_le_bytes n v : length (le_bytes n v) = n.
Proof. revert v; induction n as [|n IH]; intros v; cbn; [reflexivity|]. rewrite IH; reflexivity. Qed.

Lemma le_value_bytes n : forall v,
  0 <= v -> le_value (le_bytes n v) = v mod 256 ^ Z.of_nat n.
Proof.
  induction n as [|n IH]; intros v Hv.
  - cbn. symmetry. apply Z.mod_1_r.
  - cbn [le_bytes le_value]. rewrite IH by (apply Z.div_pos; lia).
    rewrite Nat2Z.inj_succ, Z.pow_succ_r by lia.
    rewrite Z.rem_mul_r by (try apply Z.pow_pos_nonneg; lia). reflexivity.
Qed.

Lemma LengthEncodedInt_lenenc v rest :
  0 <= v < 2 ^ 64 ->
  LengthEncodedInt (lenenc v ++ rest) = Some (v, false, length (lenenc v)).
Proof.
  intros Hv. unfold lenenc.
  destruct (Z.ltb_spec v 251).
  - cbn [app LengthEncodedInt].
    replace (v =? 251) with false by (symmetry; apply Z.eqb_neq; lia).
    replace (v =? 252) with false by (symmetry; apply Z.eqb_neq; lia).
    replace (v =? 253) with false by (symmetry; apply Z.eqb_neq; lia).
    replace (v =? 254) with false by (symmetry; apply Z.eqb_neq; lia).
    reflexivity.
  - assert (Hfix : forall k, (k <= 8)%nat -> v < 256 ^ Z.of_nat k ->
      le_value (firstn k (le_bytes k v ++ rest)) = v).
    { intros k _ Hk. rewrite firstn_app, length_le_bytes, Nat.sub_diag, firstn_O, app_nil_r.
      rewrite firstn_all2 by (rewrite length_le_bytes; lia).
      rewrite le_value_bytes by lia. apply Z.mod_small; lia. }
    destruct (Z.ltb_spec v 65536); [|destruct (Z.ltb_spec v 16777216)];
      cbn [app LengthEncodedInt length Z.eqb Pos.eqb Nat.leb];
      rewrite ?length_app, ?length_le_bytes.
    + replace (2 <=? 2 + length rest)%nat with true by (symmetry; apply Nat.leb_le; lia).
      rewrite Hfix by (cbn; lia). reflexivity.
    + replace (3 <=? 3 + length rest)%nat with true by (symmetry; apply Nat.leb_le; lia).
      rewrite Hfix by (cbn; lia). reflexivity.
    + replace (8 <=? 8 + length rest)%nat with true by (symmetry; apply Nat.leb_le; lia).
      rewrite Hfix by (cbn; lia). reflexivity.
Qed.

Lemma skipn_length_app {A} (x y : list A) : skipn (length x) (x ++ y) = y.
Proof. induction x as [|h x IH]; cbn; auto. Qed.

(** X4: an OK payload built from affected rows [a], last insert id [l],
    status flags [st] and warnings [w] (each in its wire range) is reported
    with exactly those three numbers. *)
Theorem parseOKPacket_ok_payload a l st w :
  0 <= a < 2 ^ 64 -> 0 <= l < 2 ^ 64 -> 0 <= st < 65536 -> 0 <= w < 65536 ->
  parseOKPacket (ok_payload a l st w) = Some (ok_text a l w).
Proof.
  intros Ha Hl Hst Hw. unfold parseOKPacket, ok_payload.
  set (A := lenenc a). set (B := lenenc l).
  assert (HQ : le_bytes 2 st ++ le_bytes 2 w
               = [st mod 256; (st / 256) mod 256; w mod 256; (w / 256) mod 256])
    by reflexivity.
  rewrite HQ.
  replace (Nat.ltb (length ([0] ++ A ++ B ++ [st mod 256; (st / 256) mod 256; w mod 256; (w / 256) mod 256])) 7)
    with false.
  2:{ symmetry. apply Nat.ltb_ge. rewrite !length_app.
      assert (1 <= length A)%nat by (unfold A, lenenc; repeat destruct (_ <? _); cbn; lia).
      assert (1 <= length B)%nat by (unfold B, lenenc; repeat destruct (_ <? _); cbn; lia).
      cbn. lia. }
  unfold ok_fields. cbn [skipn app].
  rewrite (LengthEncodedInt_lenenc a _ Ha). fold A.
  replace (1 + length A)%nat with (length (0 :: A)) by reflexivity.
  assert (HS : forall Y, skipn (length (0 :: A)) (0 :: A ++ Y) = Y)
    by (intro Y; exact (skipn_length_app (0 :: A) Y)).
  rewrite HS.
  rewrite (LengthEncodedInt_lenenc l _ Hl). fold B.
  replace (0 :: A ++ B ++ [st mod 256; (st / 256) mod 256; w mod 256; (w / 256) mod 256])
    with ((0 :: A ++ B) ++ [st mod 256; (st / 256) mod 256; w mod 256; (w / 256) mod 256])
    by (cbn; rewrite app_assoc; reflexivity).
  replace (Nat.add (length (0 :: A)) (length B)) with (length (0 :: A ++ B))
    by (cbn; rewrite length_app; reflexivity).
  rewrite length_app.
  change (length [st mod 256; (st / 256) mod 256; w mod 256; (w / 256) mod 256]) with 4%nat.
  rewrite Nat.leb_refl.
  rewrite (app_nth2_plus (0 :: A ++ B) _ 0 2).
  replace (S (Nat.add (length (0 :: A ++ B)) 2)) with (Nat.add (length (0 :: A ++ B)) 3) by lia.
  rewrite (app_nth2_plus (0 :: A ++ B) _ 0 3). cbn [nth].
  rewrite (Z.mod_small (w / 256) 256).
  2:{ split; [apply Z.div_pos; lia | apply Z.div_lt_upper_bound; lia]. }
  rewrite uint16_le_split by exact Hw. reflexivity.
Qed.

(** Witness for X4. *)
Lemma parseOKPacket_ok_payload_witness :
  parseOKPacket (ok_payload 300 70000 2 1) = Some (ok_text 300 70000 1).
Proof.
  apply parseOKPacket_ok_payload; split; try lia; cbn; lia.
Defined.

(** ** Row and column decoders: [parseRowData], [parseColumnDefinition]

    Go's [int] is a 64-bit two's complement integer; conversions and sums
    wrap.  A [None] result stands for a run-time panic (index or slice out
    of range). *)
Definition wrap_int (x : Z) : Z := (x + 2 ^ 63) mod 2 ^ 64 - 2 ^ 63.

(** [mysql.LengthEncodedString]: the length prefix, then [num] bytes.
    Returns the value, the NULL flag, the consumed count [n] and whether
    the input was too short ([io.EOF]).  The slice [b[n-int(num):n:n]]
    panics when the sum [n] wrapped below its start. *)
Definition LengthEncodedString (b : list byte) : option (list byte * bool * Z * bool) :=
  match LengthEncodedInt b with
  | None => None
  | Some (num, isNull, n) =>
      if num <? 1 then Some ([], isNull, Z.of_nat n, false)
      else
        let m := wrap_int (Z.of_nat n + wrap_int num) in
        if m <=? Z.of_nat (length b) then
          if Z.of_nat n <=? m
          then Some (firstn (Z.to_nat (m - Z.of_nat n)) (skipn n b), false, m, false)
          else None
        else Some ([], false, m, true)
  end.

(** The loop of [parseRowData]; [fuel] is the number of iterations left
    before [i] reaches [columnCount]. *)
Fixpoint row_loop (fuel : nat) (columnCount : Z) (data : list byte) (i pos : Z)
  : option (list (list byte)) :=
  match fuel with
  | O => Some []
  | S f =>
      if (i <? columnCount) && (pos <? Z.of_nat (length data)) then
        if pos <? 0 then None
        else if nth (Z.to_nat pos) data 0 =? 251 then
          option_map (cons (bytes_of "NULL"))
            (row_loop f columnCount data (i + 1) (pos + 1))
        else
          match LengthEncodedString (skipn (Z.to_nat pos) data) with
          | None => None
          | Some (val, _, n, _) =>
              if n =? 0 then Some []
              else option_map (cons val)
                     (row_loop f columnCount data (i + 1) (wrap_int (pos + n)))
          end
      else Some []
  end.

Definition parseRowData (data : list byte) (columnCount : Z) : option (list (list byte)) :=
  row_loop (Z.to_nat columnCount) columnCount data 0 0.

(** [data[pos:]]. *)
Definition slice_from (data : list byte) (pos : Z) : option (list byte) :=
  if (0 <=? pos) && (pos <=? Z.of_nat (length data))
  then Some (skipn (Z.to_nat pos) data) else None.

(** Skips four length-encoded strings and reads the fifth. *)
Definition parseColumnDefinition (data : list byte) : option (list byte) :=
  let skip pos :=
    match slice_from data pos with
    | None => None
    | Some b =>
        match LengthEncodedString b with
        | None => None
        | Some (_, _, n, _) => Some (wrap_int (pos + n))
        end
    end in
  match skip 0 with
  | None => None
  | Some pos =>
  match skip pos with
  | None => None
  | Some pos =>
  match skip pos with
  | None => None
  | Some pos =>
  match skip pos with
  | None => None
  | Some pos =>
      match slice_from data pos with
      | None => None
      | Some b =>
          match LengthEncodedString b with
          | None => None
          | Some (name, _, _, _) => Some name
          end
      end
  end end end end.

(** A string on the wire: its length, then its bytes. *)
Definition lenenc_str (v : list byte) : list byte := lenenc (Z.of_nat (length v)) ++ v.

(** A row value: [None] is SQL NULL, sent as the single byte 0xfb. *)
Definition encode_value (v : option (list byte)) : list byte :=
  match v with None => [251] | Some s => lenenc_str s end.

Definition decode_value (v : option (list byte)) : list byte :=
  match v with None => bytes_of "NULL" | Some s => s end.

Definition encode_row (row : list (option (list byte))) : list byte :=
  concat (map encode_value row).

Lemma lenenc_shape v :
  0 <= v < 2 ^ 64 ->
  (1 <= length (lenenc v) <= 9)%nat /\ nth 0 (lenenc v) 0 <> 251.
Proof.
  intros Hv. unfold lenenc.
  destruct (Z.ltb_spec v 251); [cbn; split; [lia|]; lia|].
  destruct (Z.ltb_spec v 65536); [cbn; split; [lia|]; discriminate|].
  destruct (Z.ltb_spec v 16777216); cbn; split; (lia || discriminate).
Qed.

Lemma wrap_int_id x : - 2 ^ 63 <= x < 2 ^ 63 -> wrap_int x = x.
Proof.
  intros Hx. unfold wrap_int. rewrite Z.mod_small by lia. lia.
Qed.

Lemma LengthEncodedString_lenenc_str v rest :
  Z.of_nat (length (lenenc_str v)) < 2 ^ 63 ->
  LengthEncodedString (lenenc_str v ++ rest)
  = Some (v, false, Z.of_nat (length (lenenc_str v)), false).
Proof.
  intros Hlen. unfold lenenc_str in *. rewrite length_app in Hlen.
  set (L := Z.of_nat (length v)) in *.
  assert (HL : 0 <= L < 2 ^ 64) by (unfold L; lia).
  destruct (lenenc_shape L HL) as [Hk _].
  unfold LengthEncodedString. rewrite <- app_assoc, (LengthEncodedInt_lenenc L _ HL).
  rewrite length_app, Nat2Z.inj_add. fold L.
  destruct (Z.ltb_spec L 1).
  - destruct v; [|cbn in L; unfold L in *; lia]. reflexivity.
  - rewrite (wrap_int_id L) by lia.
    rewrite wrap_int_id by lia.
    rewrite length_app, length_app, !Nat2Z.inj_add.
    rewrite (proj2 (Z.leb_le _ _)) by lia.
    rewrite (proj2 (Z.leb_le _ _)) by lia.
    replace (Z.of_nat (length (lenenc L)) + L - Z.of_nat (length (lenenc L))) with L by lia.
    rewrite skipn_length_app. unfold L. rewrite Nat2Z.id, firstn_app, Nat.sub_diag, firstn_O,
      app_nil_r, firstn_all. reflexivity.
Qed.

Lemma lenenc_nonempty v : (1 <= length (lenenc v))%nat.
Proof. unfold lenenc. repeat destruct (_ <? _); cbn; lia. Qed.

Lemma row_loop_encode_row rest : forall row pre i,
  Z.of_nat (length (pre ++ encode_row row ++ rest)) < 2 ^ 63 -> 0 <= i ->
  row_loop (length row) (i + Z.of_nat (length row)) (pre ++ encode_row row ++ rest)
    i (Z.of_nat (length pre))
  = Some (map decode_value row).
Proof.
  induction row as [|v row IH]; intros pre i Hlen Hi; [reflexivity|].
  unfold encode_row in *. cbn [length row_loop map concat] in *.
  assert (Hv : (1 <= length (encode_value v))%nat)
    by (destruct v; cbn; [unfold lenenc_str; rewrite length_app;
                          pose proof (lenenc_nonempty (Z.of_nat (length l))); lia | lia]).
  rewrite !length_app in Hlen. rewrite !length_app.
  rewrite (proj2 (Z.ltb_lt _ _)) by lia.
  rewrite (proj2 (Z.ltb_lt (Z.of_nat (length pre)) _)) by lia.
  rewrite (proj2 (Z.ltb_ge (Z.of_nat (length pre)) 0)) by lia.
  rewrite Nat2Z.id, app_nth2, Nat.sub_diag by lia.
  destruct v as [s|]; cbn [encode_value decode_value] in *.
  - assert (HL : 0 <= Z.of_nat (length s) < 2 ^ 64)
      by (unfold lenenc_str in Hlen; rewrite length_app in Hlen; lia).
    destruct (lenenc_shape _ HL) as [Hk Hne].
    assert (Hfirst : nth 0 (lenenc_str s ++ concat (map encode_value row) ++ rest) 0 <> 251)
      by (unfold lenenc_str; rewrite <- app_assoc, app_nth1 by lia; exact Hne).
    cbn [andb]. rewrite <- !app_assoc.
    rewrite (proj2 (Z.eqb_neq _ _) Hfirst).
    rewrite skipn_length_app. cbn [app] in Hlen.
    rewrite LengthEncodedString_lenenc_str by lia.
    rewrite (proj2 (Z.eqb_neq _ _)) by (unfold lenenc_str; rewrite length_app; lia).
    rewrite wrap_int_id by lia.
    specialize (IH (pre ++ lenenc_str s) (i + 1)).
    rewrite <- app_assoc in IH.
    replace (Z.of_nat (length pre) + Z.of_nat (length (lenenc_str s)))
      with (Z.of_nat (length (pre ++ lenenc_str s))) by (rewrite length_app; lia).
    replace (i + Z.of_nat (S (length row))) with (i + 1 + Z.of_nat (length row)) by lia.
    rewrite IH by (rewrite ?length_app; lia). reflexivity.
  - cbn [nth andb]. rewrite Z.eqb_refl, <- !app_assoc. cbn [app].
    specialize (IH (pre ++ [251]) (i + 1)).
    rewrite <- app_assoc in IH. cbn [app] in IH.
    replace (Z.of_nat (length pre) + 1)
      with (Z.of_nat (length (pre ++ [251]))) by (rewrite length_app; cbn [length]; lia).
    replace (i + Z.of_nat (S (length row))) with (i + 1 + Z.of_nat (length row)) by lia.
    rewrite IH by (rewrite ?length_app in *; cbn [length] in *; rewrite ?length_app in *; lia). reflexivity.
Qed.

(** X5: a row packet holding one value per column, each value either
    NULL (0xfb) or a length-encoded string, followed by any bytes, is
    decoded by [parseRowData] to the values in order, with NULL read as
    the string "NULL"; the packet must fit in a Go [int]. *)
Theorem parseRowData_encode_row (row : list (option (list byte))) (rest : list byte) :
  Z.of_nat (length (encode_row row ++ rest)) < 2 ^ 63 ->
  parseRowData (encode_row row ++ rest) (Z.of_nat (length row))
  = Some (map decode_value row).
Proof.
  intros Hlen. unfold parseRowData. rewrite Nat2Z.id.
  apply (row_loop_encode_row rest row [] 0); [exact Hlen | lia].
Qed.

(** Witness for X5. *)
Lemma parseRowData_encode_row_witness :
  parseRowData (encode_row [Some (bytes_of "42"); None; Some []] ++ [9])
    (Z.of_nat (length [Some (bytes_of "42"); None; Some (@nil byte)]))
  = Some [bytes_of "42"; bytes_of "NULL"; []].
Proof.
  apply (parseRowData_encode_row [Some (bytes_of "42"); None; Some []] [9]).
  vm_compute. reflexivity.
Defined.

Lemma column_skip_step data pre v R pos :
  data = pre ++ lenenc_str v ++ R -> pos = Z.of_nat (length pre) ->
  Z.of_nat (length data) < 2 ^ 63 ->
  slice_from data pos = Some (lenenc_str v ++ R)
  /\ LengthEncodedString (lenenc_str v ++ R)
     = Some (v, false, Z.of_nat (length (lenenc_str v)), false)
  /\ wrap_int (pos + Z.of_nat (length (lenenc_str v)))
     = pos + Z.of_nat (length (lenenc_str v)).
Proof.
  intros -> -> Hlen. rewrite !length_app in Hlen.
  split; [|split].
  - unfold slice_from. rewrite !length_app.
    rewrite (proj2 (Z.leb_le 0 _)) by lia.
    rewrite (proj2 (Z.leb_le _ _)) by lia. cbn [andb].
    rewrite Nat2Z.id, skipn_length_app. reflexivity.
  - apply LengthEncodedString_lenenc_str. lia.
  - apply wrap_int_id. lia.
Qed.

Lemma parseColumnDefinition_lenenc_str catalog schema table org_table name rest :
  Z.of_nat (length (lenenc_str catalog ++ lenenc_str schema ++ lenenc_str table
                    ++ lenenc_str org_table ++ lenenc_str name ++ rest)) < 2 ^ 63 ->
  parseColumnDefinition (lenenc_str catalog ++ lenenc_str schema ++ lenenc_str table
                         ++ lenenc_str org_table ++ lenenc_str name ++ rest)
  = Some name.
Proof.
  intros Hlen.
  set (data := lenenc_str catalog ++ lenenc_str schema ++ lenenc_str table
               ++ lenenc_str org_table ++ lenenc_str name ++ rest) in *.
  set (c := lenenc_str catalog). set (s := lenenc_str schema).
  set (t := lenenc_str table). set (o := lenenc_str org_table).
  unfold parseColumnDefinition. cbv zeta.
  destruct (column_skip_step data [] catalog (s ++ t ++ o ++ lenenc_str name ++ rest) 0)
    as (E1 & E2 & E3); [reflexivity | reflexivity | exact Hlen|].
  rewrite E1, E2, E3. fold c.
  destruct (column_skip_step data c schema (t ++ o ++ lenenc_str name ++ rest)
              (0 + Z.of_nat (length c))) as (F1 & F2 & F3);
    [reflexivity | reflexivity | exact Hlen|].
  rewrite F1, F2, F3. fold s.
  destruct (column_skip_step data (c ++ s) table (o ++ lenenc_str name ++ rest)
              (0 + Z.of_nat (length c) + Z.of_nat (length s))) as (G1 & G2 & G3);
    [unfold data; rewrite <- app_assoc; reflexivity
    | rewrite length_app; lia | exact Hlen|].
  rewrite G1, G2, G3. fold t.
  destruct (column_skip_step data (c ++ s ++ t) org_table (lenenc_str name ++ rest)
              (0 + Z.of_nat (length c) + Z.of_nat (length s) + Z.of_nat (length t)))
    as (H1 & H2 & H3);
    [unfold data; rewrite <- !app_assoc; reflexivity
    | rewrite !length_app; lia | exact Hlen|].
  rewrite H1, H2, H3. fold o.
  destruct (column_skip_step data (c ++ s ++ t ++ o) name rest
              (0 + Z.of_nat (length c) + Z.of_nat (length s) + Z.of_nat (length t)
               + Z.of_nat (length o)))
    as (I1 & I2 & _);
    [unfold data; rewrite <- !app_assoc; reflexivity
    | rewrite !length_app; lia | exact Hlen|].
  rewrite I1, I2. reflexivity.
Qed.

(** X6: a column definition whose first five fields are length-encoded
    strings (catalog, schema, table, original table, name) is decoded by
    [parseColumnDefinition] to the name, whatever follows; the packet must
    fit in a Go [int]. *)
Theorem parseColumnDefinition_name catalog schema table org_table name rest :
  Z.of_nat (length (lenenc_str catalog ++ lenenc_str schema ++ lenenc_str table
                    ++ lenenc_str org_table ++ lenenc_str name ++ rest)) < 2 ^ 63 ->
  parseColumnDefinition (lenenc_str catalog ++ lenenc_str schema ++ lenenc_str table
                         ++ lenenc_str org_table ++ lenenc_str name ++ rest)
  = Some name.
Proof. apply parseColumnDefinition_lenenc_str. Qed.

(** Witness for X6. *)
Lemma parseColumnDefinition_name_witness :
  parseColumnDefinition (lenenc_str (bytes_of "def") ++ lenenc_str (bytes_of "shop")
    ++ lenenc_str (bytes_of "t") ++ lenenc_str (bytes_of "t") ++ lenenc_str (bytes_of "id")
    ++ [12; 63; 0])
  = Some (bytes_of "id").
Proof.
  apply parseColumnDefinition_name. vm_compute. reflexivity.
Defined.

Lemma wrap_int_range x : - 2 ^ 63 <= wrap_int x < 2 ^ 63.
Proof.
  unfold wrap_int. pose proof (Z.mod_pos_bound (x + 2 ^ 63) (2 ^ 64)). lia.
Qed.

Lemma LengthEncodedInt_n b num isNull n :
  LengthEncodedInt b = Some (num, isNull, n) -> (n <= 9)%nat.
Proof.
  unfold LengthEncodedInt. destruct b as [|b0 rest]; [intros [=]; lia|].
  repeat (destruct (_ =? _)); repeat (destruct (_ <=? _)%nat);
    intros H; inversion H; lia.
Qed.

Lemma LengthEncodedString_n b v isNull n e :
  LengthEncodedString b = Some (v, isNull, n, e) -> 0 <= n < 2 ^ 63.
Proof.
  unfold LengthEncodedString.
  destruct (LengthEncodedInt b) as [[[num nl] k]|] eqn:E; [|discriminate].
  pose proof (LengthEncodedInt_n _ _ _ _ E).
  pose proof (wrap_int_range (Z.of_nat k + wrap_int num)).
  destruct (num <? 1); [intros [=]; lia|].
  destruct (Z.leb_spec (wrap_int (Z.of_nat k + wrap_int num)) (Z.of_nat (length b)));
    [destruct (Z.leb_spec (Z.of_nat k) (wrap_int (Z.of_nat k + wrap_int num)))|];
    intros Heq; inversion Heq; lia.
Qed.

Lemma row_loop_bound data : Z.of_nat (length data) < 2 ^ 63 ->
  forall f cc i pos vals,
  row_loop f cc data i pos = Some vals ->
  (length vals <= f)%nat
  /\ Z.of_nat (length vals)
     <= (if pos <? 0 then 0 else Z.max 0 (Z.of_nat (length data) - pos)).
Proof.
  intros Hdata f. induction f as [|f IH]; intros cc i pos vals H.
  - cbn in H. injection H as <-. cbn. destruct (pos <? 0); lia.
  - cbn [row_loop] in H.
    destruct ((i <? cc) && (pos <? Z.of_nat (length data))) eqn:Hc;
      [|injection H as <-; cbn; destruct (pos <? 0); lia].
    apply andb_prop in Hc as [_ Hp]. apply Z.ltb_lt in Hp.
    destruct (Z.ltb_spec pos 0); [discriminate|].
    destruct (nth (Z.to_nat pos) data 0 =? 251).
    + destruct (row_loop f cc data (i + 1) (pos + 1)) as [vs|] eqn:E; [|discriminate].
      cbn in H. injection H as <-.
      destruct (IH _ _ _ _ E) as [H1 H2].
      rewrite (proj2 (Z.ltb_ge _ _)) in H2 by lia.
      cbn [length]. split; lia.
    + destruct (LengthEncodedString (skipn (Z.to_nat pos) data))
        as [[[[v nl] n] e]|] eqn:El; [|discriminate].
      pose proof (LengthEncodedString_n _ _ _ _ _ El) as Hn.
      destruct (Z.eqb_spec n 0); [injection H as <-; cbn; lia|].
      destruct (row_loop f cc data (i + 1) (wrap_int (pos + n))) as [vs|] eqn:E;
        [|discriminate].
      cbn in H. injection H as <-.
      destruct (IH _ _ _ _ E) as [H1 H2].
      cbn [length]. split; [lia|].
      destruct (Z.ltb_spec (pos + n) (2 ^ 63)).
      * rewrite wrap_int_id in H2 by lia.
        rewrite (proj2 (Z.ltb_ge _ _)) in H2 by lia. lia.
      * assert (Hw : wrap_int (pos + n) = pos + n - 2 ^ 64).
        { unfold wrap_int. rewrite <- (Z.mod_unique (pos + n + 2 ^ 63) (2 ^ 64) 1 (pos + n - 2 ^ 63));
            lia. }
        rewrite Hw, (proj2 (Z.ltb_lt _ _)) in H2 by lia. lia.
Qed.

(** X7: a successful [parseRowData] returns at most [columnCount] values
    and at most one value per byte of the packet (the packet fitting in a
    Go [int]). *)
Theorem parseRowData_length data columnCount vals :
  Z.of_nat (length data) < 2 ^ 63 ->
  parseRowData data columnCount = Some vals ->
  (length vals <= Z.to_nat columnCount)%nat /\ (length vals <= length data)%nat.
Proof.
  intros Hdata H. unfold parseRowData in H.
  destruct (row_loop_bound data Hdata _ _ _ _ _ H) as [H1 H2].
  cbn in H2. split; lia.
Qed.

(** Witness for X7. *)
Lemma parseRowData_length_witness :
  Z.of_nat (length [3; 97; 98; 99; 251; 1; 120]) < 2 ^ 63
  /\ parseRowData [3; 97; 98; 99; 251; 1; 120] 2 = Some [[97; 98; 99]; bytes_of "NULL"]
  /\ (2 <= Z.to_nat 2)%nat /\ (2 <= length [3; 97; 98; 99; 251; 1; 120])%nat.
Proof.
  assert (Hl : Z.of_nat (length [3; 97; 98; 99; 251; 1; 120]) < 2 ^ 63) by (cbn; lia).
  assert (Hp : parseRowData [3; 97; 98; 99; 251; 1; 120] 2 = Some [[97; 98; 99]; bytes_of "NULL"])
    by (vm_compute; reflexivity).
  exact (conj Hl (conj Hp (parseRowData_length _ _ _ Hl Hp))).
Defined.

(** ** Response display: [parseResponse], [parseResultSetPacket],
    [parseResultSetFull] and the choice made by [displayQueryResult] *)

Definition COLOR_WHITE : string := String ESC "[37m".

Definition parseResultSetPacket (data : list byte) : option string :=
  if (length data <? 1)%nat then Some "Empty result set"%string
  else
    match LengthEncodedInt data with
    | None => None
    | Some (columnCount, _, n) =>
        if (n =? 0)%nat || (columnCount =? 0) then Some "Result set with 0 columns"%string
        else Some (COLOR_GREEN ++ "ResultSet: " ++ decimal columnCount ++ " column(s)"
                   ++ COLOR_DEFAULT)%string
    end.

Definition parseResponse (data : list byte) : option string :=
  match data with
  | [] => Some "Empty response"%string
  | b0 :: _ =>
      if b0 =? 0 then parseOKPacket data
      else if b0 =? 255 then Some (parseErrorPacket data)
      else if b0 =? 254 then Some (COLOR_YELLOW ++ "EOF" ++ COLOR_DEFAULT)%string
      else parseResultSetPacket data
  end.

(** [strings.Join]. *)
Fixpoint join_str (sep : string) (ls : list string) : string :=
  match ls with
  | [] => ""
  | [x] => x
  | x :: r => x ++ sep ++ join_str sep r
  end.

Definition is_eof_packet (pkt : list byte) : bool :=
  (0 <? length pkt)%nat && (nth 0 pkt 0 =? 254).

(** The column-definition loop: the column names read and the packets
    after them. *)
Fixpoint column_loop (i columnCount : Z) (ps : list (list byte))
  : option (list (list byte) * list (list byte)) :=
  match ps with
  | [] => Some ([], [])
  | pkt :: ps' =>
      if i <? columnCount then
        if is_eof_packet pkt then Some ([], ps)
        else match parseColumnDefinition pkt with
             | None => None
             | Some colName =>
                 match column_loop (i + 1) columnCount ps' with
                 | None => None
                 | Some (cols, r) => Some (colName :: cols, r)
                 end
             end
      else Some ([], ps)
  end.

(** [col=value] pairs of one row; [columns[i]] panics past the end. *)
Fixpoint format_values (columns : list (list byte)) (vals : list (list byte)) (i : nat)
  : option string :=
  match vals with
  | [] => Some ""%string
  | val :: vs =>
      match nth_error columns i with
      | None => None
      | Some col =>
          match format_values columns vs (S i) with
          | None => None
          | Some r =>
              Some ((if (0 <? i)%nat then ", " else "")
                    ++ COLOR_CYAN ++ string_of_bytes col ++ COLOR_DEFAULT ++ "="
                    ++ COLOR_WHITE ++ string_of_bytes val ++ COLOR_DEFAULT ++ r)%string
          end
      end
  end.

(** The row loop: the text written and the final [rowCount] (bounded by
    the number of packets, so the Go [int] never wraps). *)
Fixpoint rows_loop (columnCount : Z) (columns : list (list byte)) (ps : list (list byte))
  (rowCount : nat) : option (string * nat) :=
  match ps with
  | [] => Some (""%string, rowCount)
  | pkt :: ps' =>
      if (length pkt =? 0)%nat then rows_loop columnCount columns ps' rowCount
      else if nth 0 pkt 0 =? 254 then Some (""%string, rowCount)
      else if nth 0 pkt 0 =? 255 then Some (""%string, rowCount)
      else
        match parseRowData pkt (wrap_int columnCount) with
        | None => None
        | Some rowData =>
            if (0 <? length rowData)%nat then
              match format_values columns rowData 0 with
              | None => None
              | Some vs =>
                  match rows_loop columnCount columns ps' (S rowCount) with
                  | None => None
                  | Some (rest, k) =>
                      Some ("      " ++ COLOR_YELLOW ++ "Row " ++ decimal (Z.of_nat (S rowCount))
                            ++ ":" ++ COLOR_DEFAULT ++ " " ++ vs ++ String "010" ""
                            ++ rest, k)%string
                  end
              end
            else rows_loop columnCount columns ps' rowCount
        end
  end.

Definition parseResultSetFull (packets : list (list byte)) (showRows : bool) : option string :=
  if (length packets <? 2)%nat then Some "Incomplete result set"%string
  else
    match LengthEncodedInt (nth 0 packets []) with
    | None => None
    | Some (columnCount, _, n) =>
        if (n =? 0)%nat || (columnCount =? 0) then Some "Result set with 0 columns"%string
        else
          match column_loop 0 columnCount (skipn 1 packets) with
          | None => None
          | Some (columns, ps) =>
              let head :=
                (COLOR_GREEN ++ "ResultSet: " ++ decimal columnCount ++ " column(s)"
                 ++ COLOR_DEFAULT
                 ++ match columns with
                    | [] => ""
                    | _ => " [" ++ COLOR_CYAN ++ join_str ", " (map string_of_bytes columns)
                           ++ COLOR_DEFAULT ++ "]"
                    end)%string in
              let ps := match ps with
                        | pkt :: ps' => if is_eof_packet pkt then ps' else ps
                        | [] => []
                        end in
              if showRows then
                match rows_loop columnCount columns ps 0 with
                | None => None
                | Some (body, rowCount) =>
                    Some (head ++ String "010" "" ++ body
                          ++ if (0 <? rowCount)%nat
                             then "      " ++ COLOR_GREEN ++ "Total: "
                                  ++ decimal (Z.of_nat rowCount) ++ " row(s)" ++ COLOR_DEFAULT
                             else "      " ++ COLOR_YELLOW ++ "0 rows" ++ COLOR_DEFAULT)%string
                end
              else Some head
          end
    end.

(** The result text [displayQueryResult] prints for a non-empty response
    buffer (the raw bytes of the response, frame headers included). *)
Definition displayed_result (responseData : list byte) (showRows : bool) : option string :=
  let packets := collectAllResponsePackets responseData in
  if (1 <? length packets)%nat && negb (nth 0 responseData 0 =? 0)
     && negb (nth 0 responseData 0 =? 255)
  then parseResultSetFull packets showRows
  else parseResponse responseData.

Lemma frame_ok_frameable sp : frame_ok sp = true -> frameable sp.
Proof.
  intros H. assert (Hf : forallb frame_ok [sp] = true) by (cbn; rewrite H; reflexivity).
  apply frame_ok_good in Hf. inversion Hf as [|? ? (Hg & _) _]. exact Hg.
Qed.

(** X8: a response buffer holding a single packet whose payload has 1 to
    250 bytes is displayed as a result set header whose column count is
    the payload length, whatever the payload is: [displayQueryResult]
    hands the raw buffer, frame header included, to [parseResponse], which
    reads the header's length byte as the packet type.  An OK or ERR
    packet is shown as "ResultSet: n column(s)". *)
Theorem displayed_result_single_frame seq payload showRows :
  frame_ok (seq, payload) = true -> (length payload <= 250)%nat ->
  displayed_result (frame seq payload) showRows
  = Some (COLOR_GREEN ++ "ResultSet: " ++ decimal (Z.of_nat (length payload))
          ++ " column(s)" ++ COLOR_DEFAULT)%string.
Proof.
  intros Hok Hlen. pose proof (frame_ok_frameable _ Hok) as Hf.
  destruct Hf as [H1 _]. cbn [snd] in H1.
  unfold displayed_result.
  rewrite <- (app_nil_r (frame seq payload)).
  rewrite collect_frame by (exact (frame_ok_frameable _ Hok) || constructor).
  change (collectAllResponsePackets []) with (@nil (list byte)).
  rewrite app_nil_r. cbn [length Nat.ltb Nat.leb andb].
  unfold frame. set (L := Z.of_nat (length payload)).
  assert (HL : 1 <= L <= 250) by (unfold L; lia). clearbody L.
  rewrite (Z.mod_small L 256) by lia. cbn [app parseResponse].
  rewrite (proj2 (Z.eqb_neq L 0)), (proj2 (Z.eqb_neq L 255)), (proj2 (Z.eqb_neq L 254)) by lia.
  unfold parseResultSetPacket. cbn [length Nat.ltb Nat.leb LengthEncodedInt].
  rewrite (proj2 (Z.eqb_neq L 251)), (proj2 (Z.eqb_neq L 252)), (proj2 (Z.eqb_neq L 253)),
    (proj2 (Z.eqb_neq L 254)) by lia.
  cbn [Nat.eqb orb]. rewrite (proj2 (Z.eqb_neq L 0)) by lia. reflexivity.
Qed.

(** Witness for X8: an OK packet is shown as a 7-column result set. *)
Lemma displayed_result_single_frame_witness :
  displayed_result (frame 1 [0; 0; 0; 2; 0; 0; 0]) false
  = Some (COLOR_GREEN ++ "ResultSet: " ++ decimal 7 ++ " column(s)" ++ COLOR_DEFAULT)%string.
Proof.
  apply (displayed_result_single_frame 1 [0; 0; 0; 2; 0; 0; 0] false);
    [reflexivity | cbn; lia].
Defined.

(** A column definition packet: five length-encoded strings, then the
    fixed-length fields. *)
Record column_def := mk_column_def {
  cd_catalog : list byte; cd_schema : list byte; cd_table : list byte;
  cd_org_table : list byte; cd_name : list byte; cd_rest : list byte }.

Definition encode_column_def (c : column_def) : list byte :=
  lenenc_str (cd_catalog c) ++ lenenc_str (cd_schema c) ++ lenenc_str (cd_table c)
  ++ lenenc_str (cd_org_table c) ++ lenenc_str (cd_name c) ++ cd_rest c.

(** The display of a result set, written directly: a header naming the
    columns, then one line per row pairing column names with values, then
    the row total. *)
Definition pair_text (col val : list byte) : string :=
  (COLOR_CYAN ++ string_of_bytes col ++ COLOR_DEFAULT ++ "="
   ++ COLOR_WHITE ++ string_of_bytes val ++ COLOR_DEFAULT)%string.

Definition row_text (names vals : list (list byte)) (j : nat) : string :=
  ("      " ++ COLOR_YELLOW ++ "Row " ++ decimal (Z.of_nat j) ++ ":" ++ COLOR_DEFAULT ++ " "
   ++ join_str ", " (map (fun cv => pair_text (fst cv) (snd cv)) (combine names vals))
   ++ String "010" "")%string.

Fixpoint rows_text (names : list (list byte)) (rows : list (list (list byte))) (j : nat)
  : string :=
  match rows with
  | [] => ""
  | r :: rs => row_text names r j ++ rows_text names rs (S j)
  end.

Definition result_set_text (names : list (list byte)) (rows : list (list (list byte)))
  : string :=
  (COLOR_GREEN ++ "ResultSet: " ++ decimal (Z.of_nat (length names)) ++ " column(s)"
   ++ COLOR_DEFAULT ++ " [" ++ COLOR_CYAN ++ join_str ", " (map string_of_bytes names)
   ++ COLOR_DEFAULT ++ "]" ++ String "010" "" ++ rows_text names rows 1
   ++ (if (0 <? length rows)%nat
       then "      " ++ COLOR_GREEN ++ "Total: " ++ decimal (Z.of_nat (length rows))
            ++ " row(s)" ++ COLOR_DEFAULT
       else "      " ++ COLOR_YELLOW ++ "0 rows" ++ COLOR_DEFAULT))%string.

Lemma str_app_assoc (a b c : string) : ((a ++ b) ++ c)%string = (a ++ b ++ c)%string.
Proof. induction a as [|x a IH]; cbn; [reflexivity | now rewrite IH]. Qed.

Lemma str_app_nil_r (a : string) : (a ++ "")%string = a.
Proof. induction a as [|x a IH]; cbn; [reflexivity | now rewrite IH]. Qed.

Lemma collect_frames_all fs :
  forallb frame_ok fs = true -> collectAllResponsePackets (frames fs) = map snd fs.
Proof.
  induction fs as [|[seq p] fs IH]; intros H; [reflexivity|].
  cbn [forallb] in H. apply andb_prop in H as [Hp Hfs].
  unfold frames. cbn [map concat fst snd].
  rewrite collect_frame.
  - fold (frames fs). rewrite IH by exact Hfs. reflexivity.
  - exact (frame_ok_frameable _ Hp).
  - apply frames_bytes, frame_ok_good, Hfs.
Qed.

Lemma frame_ok_payloads fs :
  forallb frame_ok fs = true -> Forall (fun p => Z.of_nat (length p) < 2 ^ 24) (map snd fs).
Proof.
  intros H. apply Forall_forall. intros p Hp. apply in_map_iff in Hp as [sp [<- Hin]].
  rewrite forallb_forall in H. destruct (frame_ok_frameable _ (H _ Hin)). lia.
Qed.

Lemma lenenc_first_small v :
  0 <= v < 2 ^ 24 ->
  nth 0 (lenenc v) 0 <> 251 /\ nth 0 (lenenc v) 0 <> 254 /\ nth 0 (lenenc v) 0 <> 255.
Proof.
  intros Hv. unfold lenenc.
  destruct (Z.ltb_spec v 251); [cbn; lia|].
  destruct (Z.ltb_spec v 65536); [cbn; lia|].
  destruct (Z.ltb_spec v 16777216); [cbn; lia | lia].
Qed.

Lemma lenenc_str_first v rest :
  Z.of_nat (length (lenenc_str v)) < 2 ^ 24 ->
  nth 0 (lenenc_str v ++ rest) 0 <> 251 /\ nth 0 (lenenc_str v ++ rest) 0 <> 254
  /\ nth 0 (lenenc_str v ++ rest) 0 <> 255.
Proof.
  intros H. unfold lenenc_str in *. rewrite length_app in H.
  pose proof (lenenc_nonempty (Z.of_nat (length v))).
  rewrite <- app_assoc, app_nth1 by lia. apply lenenc_first_small. lia.
Qed.

Lemma column_loop_encoded cols : forall i rest,
  Forall (fun c => Z.of_nat (length (encode_column_def c)) < 2 ^ 24) cols ->
  column_loop i (i + Z.of_nat (length cols)) (map encode_column_def cols ++ rest)
  = Some (map cd_name cols, rest).
Proof.
  induction cols as [|c cols IH]; intros i rest Hc.
  - cbn. destruct rest; [reflexivity|]. cbn [column_loop]. rewrite (proj2 (Z.ltb_ge _ _)) by lia. reflexivity.
  - inversion Hc as [|? ? Hc1 Hcs]; subst.
    cbn [map app column_loop length].
    rewrite (proj2 (Z.ltb_lt _ _)) by lia.
    assert (Hfirst : nth 0 (encode_column_def c) 0 <> 254).
    { unfold encode_column_def in *. rewrite !length_app in Hc1.
      apply lenenc_str_first. lia. }
    unfold is_eof_packet. rewrite (proj2 (Z.eqb_neq _ _) Hfirst), andb_false_r.
    unfold encode_column_def at 1. rewrite parseColumnDefinition_lenenc_str by (unfold encode_column_def in Hc1; lia).
    replace (i + Z.of_nat (S (length cols))) with (i + 1 + Z.of_nat (length cols)) by lia.
    rewrite IH by exact Hcs. reflexivity.
Qed.

Ltac str_norm := repeat rewrite str_app_assoc.

Lemma format_values_join vals : forall cs pre,
  (length vals <= length cs)%nat ->
  format_values (pre ++ cs) vals (length pre)
  = Some (match vals with
          | [] => ""
          | _ => (if (0 <? length pre)%nat then ", " else "")
                 ++ join_str ", " (map (fun cv => pair_text (fst cv) (snd cv)) (combine cs vals))
          end)%string.
Proof.
  induction vals as [|v vs IH]; intros cs pre Hlen; [reflexivity|].
  destruct cs as [|c cs]; [cbn in Hlen; lia|]. cbn [length] in Hlen.
  cbn [format_values].
  rewrite nth_error_app2, Nat.sub_diag by lia. cbn [nth_error].
  replace (pre ++ c :: cs) with ((pre ++ [c]) ++ cs) by (rewrite <- app_assoc; reflexivity).
  replace (S (length pre)) with (length (pre ++ [c])) by (rewrite length_app; cbn; lia).
  rewrite IH by lia.
  rewrite length_app. cbn [length].
  replace (0 <? length pre + 1)%nat with true by (symmetry; apply Nat.ltb_lt; lia).
  destruct vs as [|v' vs].
  - cbn [combine map join_str]. destruct cs; cbn [combine map join_str];
      unfold pair_text; rewrite str_app_nil_r; str_norm; reflexivity.
  - destruct cs as [|c' cs]; [cbn in Hlen; lia|].
    cbn [combine map join_str]. unfold pair_text. str_norm. reflexivity.
Qed.

Lemma length_le_encode_row r : (length r <= length (encode_row r))%nat.
Proof.
  induction r as [|v r IH]; cbn; [lia|]. rewrite length_app.
  enough (1 <= length (encode_value v))%nat by (fold (encode_row r); lia).
  destruct v; cbn; [|lia]. unfold lenenc_str. rewrite length_app.
  pose proof (lenenc_nonempty (Z.of_nat (length l))). lia.
Qed.

Lemma rows_loop_encoded names eof2 tail : forall rows k,
  (1 <= length names)%nat ->
  Forall (fun r => length r = length names /\ Z.of_nat (length (encode_row r)) < 2 ^ 24) rows ->
  nth 0 eof2 0 = 254 ->
  rows_loop (Z.of_nat (length names)) names (map encode_row rows ++ eof2 :: tail) k
  = Some (rows_text names (map (map decode_value) rows) (S k), (k + length rows)%nat).
Proof.
  induction rows as [|r rows IH]; intros k Hn Hrows Heof.
  - cbn [map app rows_loop]. destruct eof2 as [|e eof2]; [discriminate|].
    cbn [length Nat.eqb]. rewrite Heof, Z.eqb_refl. cbn. rewrite Nat.add_0_r. reflexivity.
  - inversion Hrows as [|? ? [Hr Hb] Hrs]; subst.
    cbn [map app rows_loop].
    destruct r as [|v r]; [cbn in Hr; lia|].
    assert (Hfirst : nth 0 (encode_row (v :: r)) 0 <> 254 /\ nth 0 (encode_row (v :: r)) 0 <> 255).
    { unfold encode_row in *. cbn [map concat] in *. rewrite length_app in Hb.
      destruct v as [s|]; cbn [encode_value] in *; [|cbn; lia].
      destruct (lenenc_str_first s (concat (map encode_value r))) as (_ & H1 & H2); [lia|].
      split; assumption. }
    destruct Hfirst as [Hf1 Hf2].
    assert (Hne : (length (encode_row (v :: r)) =? 0)%nat = false).
    { apply Nat.eqb_neq. pose proof (length_le_encode_row (v :: r)). cbn [length] in *. lia. }
    rewrite Hne, (proj2 (Z.eqb_neq _ _) Hf1), (proj2 (Z.eqb_neq _ _) Hf2).
    pose proof (length_le_encode_row (v :: r)) as Hle.
    rewrite wrap_int_id by lia. rewrite <- Hr.
    assert (Hrow : parseRowData (encode_row (v :: r)) (Z.of_nat (length (v :: r)))
                   = Some (map decode_value (v :: r))).
    { unfold parseRowData. rewrite Nat2Z.id.
      pose proof (row_loop_encode_row [] (v :: r) [] 0) as E.
      rewrite app_nil_r in E. cbn [app] in E. apply E; [|lia].
      lia. }
    rewrite Hrow.
    cbn [map length Nat.ltb Nat.leb].
    pose proof (format_values_join (decode_value v :: map decode_value r) names [])
      as Hfmt.
    cbn [app length] in Hfmt. rewrite Hfmt by (rewrite length_map; cbn [length] in *; lia).
    replace (Z.of_nat (S (length r))) with (Z.of_nat (length names)) by (rewrite <- Hr; reflexivity).
    cbn [Nat.ltb Nat.leb]. rewrite IH by assumption.
    unfold row_text. cbn [rows_text map]. unfold row_text.
    rewrite Nat.add_succ_r. str_norm. reflexivity.
Qed.

(** X9: a complete text-protocol result set (a column-count packet,
    one definition packet per column, an EOF packet, one row packet per
    row with one value per column, a final EOF packet), framed as the
    server sends it, is displayed with [showRows] as the header naming the
    columns, one line per row pairing each column name with its value
    (NULL shown as "NULL"), and the row total. *)
Theorem displayed_result_result_set fs cols rows eof1 eof2 :
  forallb frame_ok fs = true ->
  map snd fs = [lenenc (Z.of_nat (length cols))] ++ map encode_column_def cols
               ++ [eof1] ++ map encode_row rows ++ [eof2] ->
  (1 <= length cols)%nat -> Z.of_nat (length cols) < 2 ^ 63 ->
  Forall (fun r => length r = length cols) rows ->
  nth 0 eof1 0 = 254 -> nth 0 eof2 0 = 254 ->
  displayed_result (frames fs) true
  = Some (result_set_text (map cd_name cols) (map (map decode_value) rows)).
Proof.
  intros Hok Heq Hc1 Hc2 Hrows He1 He2.
  pose proof (frame_ok_payloads fs Hok) as Hpl. rewrite Heq in Hpl.
  apply Forall_app in Hpl as [_ Hpl]. apply Forall_app in Hpl as [Hcols Hpl].
  apply Forall_app in Hpl as [_ Hpl]. apply Forall_app in Hpl as [Hrb _].
  rewrite Forall_map in Hcols, Hrb.
  set (cc := Z.of_nat (length cols)) in *.
  unfold displayed_result. rewrite collect_frames_all by exact Hok. rewrite Heq.
  destruct fs as [|f0 fs']; [discriminate|].
  cbn [map app] in Heq. injection Heq as Hf0 _.
  unfold frames. cbn [map concat]. rewrite Hf0. unfold frame.
  pose proof (lenenc_shape cc ltac:(unfold cc; lia)) as [Hk _].
  rewrite (Z.mod_small (Z.of_nat (length (lenenc cc)))) by lia.
  cbn [app nth].
  rewrite (proj2 (Z.eqb_neq _ 0)), (proj2 (Z.eqb_neq _ 255)) by lia.
  cbn [app length negb andb].
  rewrite !length_app, length_map. cbn [length].
  rewrite (proj2 (Nat.ltb_lt 1 _)) by lia. cbn [andb].
  unfold parseResultSetFull.
  rewrite (proj2 (Nat.ltb_ge _ 2)) by (cbn [app length]; rewrite !length_app; cbn; lia).
  cbn [app nth skipn].
  rewrite <- (app_nil_r (lenenc cc)), LengthEncodedInt_lenenc by (unfold cc; lia).
  rewrite ?app_nil_r.
  rewrite (proj2 (Nat.eqb_neq _ 0)) by lia.
  rewrite (proj2 (Z.eqb_neq cc 0)) by (unfold cc; lia). cbn [orb].
  pose proof (column_loop_encoded cols 0 (eof1 :: map encode_row rows ++ [eof2]) Hcols) as Ecol.
  rewrite Z.add_0_l in Ecol. fold cc in Ecol. cbn [app]. rewrite Ecol.
  unfold is_eof_packet. destruct eof1 as [|e eof1]; [discriminate|].
  cbn [length Nat.ltb Nat.leb andb]. rewrite He1, Z.eqb_refl.
  pose proof (rows_loop_encoded (map cd_name cols) eof2 [] rows 0) as Erows.
  rewrite length_map in Erows. fold cc in Erows.
  rewrite Erows; clear Erows.
  2:{ exact Hc1. }
  2:{ apply Forall_forall. intros r Hr.
      rewrite Forall_forall in Hrows, Hrb. split; [apply Hrows | apply Hrb]; exact Hr. }
  2:{ exact He2. }
  unfold result_set_text. rewrite length_map, length_map. fold cc.
  destruct (map cd_name cols) as [|nm nms] eqn:Enm.
  - destruct cols; [cbn in Hc1; lia | discriminate].
  - cbn [Nat.add]. str_norm. reflexivity.
Qed.

Definition example_column (name : list byte) : column_def :=
  mk_column_def (bytes_of "def") (bytes_of "shop") (bytes_of "t") (bytes_of "t") name
    [12; 33; 0; 11; 0; 0; 0; 3; 0; 0; 0; 0; 0].

Definition example_cols : list column_def :=
  [example_column (bytes_of "id"); example_column (bytes_of "note")].

Definition example_rows : list (list (option (list byte))) :=
  [[Some (bytes_of "1"); None]; [Some (bytes_of "2"); Some (bytes_of "ok")]].

Definition example_eof : list byte := [254; 0; 0; 2; 0].

Definition example_fs : list (byte * list byte) :=
  combine [1; 2; 3; 4; 5; 6; 7]
    ([lenenc 2] ++ map encode_column_def example_cols ++ [example_eof]
     ++ map encode_row example_rows ++ [example_eof]).

(** Witness for X9. *)
Lemma displayed_result_result_set_witness :
  displayed_result (frames example_fs) true
  = Some (result_set_text (map cd_name example_cols) (map (map decode_value) example_rows)).
Proof.
  apply (displayed_result_result_set example_fs example_cols example_rows example_eof example_eof);
    vm_compute; first [reflexivity | lia | repeat constructor].
Defined.

(** ** Latency summary: the extremes of [calculateTimes] *)

Lemma calc_loop_zeros l : forall c t mn mx h,
  has_nonzero l = false -> calc_loop l c t mn mx h = (c, t, mn, mx, h).
Proof.
  induction l as [|v l IH]; intros c t mn mx h H; [reflexivity|].
  cbn [has_nonzero existsb] in H. fold (has_nonzero l) in H.
  apply orb_false_iff in H as [Hv Hl].
  destruct (Z.eqb_spec v 0) as [->|]; [|discriminate].
  cbn [calc_loop Z.eqb]. apply IH, Hl.
Qed.

Lemma calc_loop_extremes l : forall c t mn mx h c' t' mn' mx' h',
  calc_loop l c t mn mx h = (c', t', mn', mx', h') ->
  (forall v, In v l -> v <> 0 -> mn' <= v <= mx')
  /\ (h = true -> mn' <= mn) /\ mx <= mx'
  /\ (mn' = mn \/ In mn' l) /\ (mx' = mx \/ In mx' l)
  /\ (h = false -> has_nonzero l = true -> In mn' l).
Proof.
  induction l as [|v l IH]; intros c t mn mx h c' t' mn' mx' h' E.
  - cbn in E. injection E as <- <- <- <- <-.
    split; [intros v []|]. split; [lia|]. split; [lia|]. split; [left; reflexivity|].
    split; [left; reflexivity|]. discriminate 2.
  - cbn [calc_loop] in E. cbn [has_nonzero existsb]. fold (has_nonzero l).
    destruct (Z.eqb_spec v 0) as [Hv|Hv].
    + destruct (IH _ _ _ _ _ _ _ _ _ _ E) as (H1 & H2 & H3 & H4 & H5 & H6).
      split; [intros x [<-|Hx] Hx0; [contradiction | apply H1; assumption]|].
      split; [exact H2|]. split; [exact H3|].
      split; [destruct H4; [left|right; right]; assumption|].
      split; [destruct H5; [left|right; right]; assumption|].
      intros Hh Hn. cbn [negb orb] in Hn. right. apply H6; assumption.
    + set (p := if (v <? mn) || negb h then (true, v) else (h, mn)) in E.
      assert (Hp : p = (true, v) /\ (v < mn \/ h = false) \/ p = (h, mn) /\ mn <= v /\ h = true).
      { unfold p. destruct (Z.ltb_spec v mn); destruct h; cbn; [left|left|right|left];
          (split; [reflexivity|]); auto. }
      destruct p as [h1 mn1].
      set (mx1 := if mx <? v then v else mx) in E.
      assert (Hmx : mx <= mx1 /\ v <= mx1 /\ (mx1 = mx \/ mx1 = v))
        by (unfold mx1; destruct (Z.ltb_spec mx v); lia).
      destruct (IH _ _ _ _ _ _ _ _ _ _ E) as (H1 & H2 & H3 & H4 & H5 & H6).
      assert (Hmn1 : mn' <= mn1).
      { destruct Hp as [[Hq _]|[Hq [_ Hh]]]; injection Hq as -> ->;
          apply H2; [reflexivity | exact Hh]. }
      split.
      { intros x [<-|Hx] Hx0; [|apply H1; assumption].
        split; [|lia]. destruct Hp as [[Hq _]|[Hq [Hle _]]]; injection Hq as -> ->; lia. }
      split.
      { intros ->. destruct Hp as [[Hq [Hlt|Hf]]|[Hq _]];
          [injection Hq as -> ->; lia | discriminate Hf | injection Hq as -> ->; lia]. }
      split; [lia|].
      split.
      { destruct H4 as [->|Hin]; [|right; right; exact Hin].
        destruct Hp as [[Hq _]|[Hq _]]; injection Hq as -> ->;
          [right; left; reflexivity | left; reflexivity]. }
      split.
      { destruct H5 as [->|Hin]; [|right; right; exact Hin].
        destruct Hmx as (_ & _ & [->| ->]); [left; reflexivity | right; left; reflexivity]. }
      intros Hh _. subst h.
      destruct Hp as [[Hq _]|[Hq [_ Hf]]]; [|discriminate Hf].
      injection Hq as -> ->.
      destruct H4 as [->|Hin]; [left; reflexivity | right; exact Hin].
Qed.

(** X10: for a reservoir of [uint64] slots (whatever their sum, wrapping
    included), the minimum and maximum returned by [calculateTimes] bound
    every nonzero slot and are slots of the reservoir when one slot is
    nonzero; an all-zero reservoir gives zero minimum, average and
    maximum. *)
Theorem calculateTimes_extremes (timings : list Z) :
  all_uint64 timings = true ->
  let '(min, avg, max) := calculateTimes_ns timings in
  (forall v, In v timings -> v <> 0 -> min <= v <= max)
  /\ (has_nonzero timings = true -> In min timings /\ In max timings)
  /\ (has_nonzero timings = false -> min = 0 /\ avg = 0 /\ max = 0).
Proof.
  intros Hu. unfold calculateTimes_ns.
  destruct (calc_loop timings 0 0 0 0 false) as [[[[c t] mn] mx] h] eqn:E.
  destruct (calc_loop_extremes _ _ _ _ _ _ _ _ _ _ _ E) as (H1 & _ & H3 & H4 & H5 & H6).
  split; [exact H1|]. split.
  - intros Hn. split; [apply H6; [reflexivity | exact Hn]|].
    destruct H5 as [->|Hin]; [|exact Hin].
    exfalso. unfold has_nonzero in Hn. apply existsb_exists in Hn as [v [Hv Hv0]].
    apply negb_true_iff, Z.eqb_neq in Hv0.
    unfold all_uint64 in Hu. rewrite forallb_forall in Hu. specialize (Hu v Hv).
    rewrite andb_true_iff, Z.leb_le in Hu. specialize (H1 v Hv Hv0). lia.
  - intros Hn. rewrite calc_loop_zeros in E by exact Hn.
    injection E as <- <- <- <- <-. cbn. lia.
Qed.

(** Witness for X10. *)
Lemma calculateTimes_extremes_witness :
  let timings := [0; 1200; 0; 3400; 500] in
  calculateTimes_ns timings = (500, 1700, 3400)
  /\ (let '(min, avg, max) := calculateTimes_ns timings in
      (forall v, In v timings -> v <> 0 -> min <= v <= max)
      /\ (has_nonzero timings = true -> In min timings /\ In max timings)
      /\ (has_nonzero timings = false -> min = 0 /\ avg = 0 /\ max = 0)).
Proof.
  intros timings. split; [vm_compute; reflexivity|].
  apply calculateTimes_extremes. vm_compute. reflexivity.
Defined.

(** ** Flow state machine: invariants of a flow *)

Definition flow_inv (rs : source) : Prop :=
  (respBuffer rs <> None -> reqSent rs = None)
  /\ (reqSent rs <> None -> synced rs = true)
  /\ 0 <= queryCount rs.

Lemma processPacket_flow_inv rs e rs' :
  flow_inv rs -> processPacket rs e = Some rs' ->
  flow_inv rs' /\ queryCount rs' <= queryCount rs + (if is_request e then 1 else 0).
Proof.
  intros (Hb & Hs & Hq) E. destruct e as [data tnow|data]; cbn [processPacket is_request] in *.
  - unfold processRequest in E.
    set (sr := match respBuffer rs with Some _ => (false, @None (list byte))
                                      | None => (synced rs, None) end) in E.
    assert (Hsr : exists s0, sr = (s0, None) /\ (s0 = false -> reqSent rs = None)).
    { unfold sr. destruct (respBuffer rs) as [b|] eqn:Eb.
      - exists false. split; [reflexivity|]. intros _. apply Hb. congruence.
      - exists (synced rs). split; [reflexivity|]. intros Hf.
        destruct (reqSent rs) eqn:Er; [|reflexivity].
        rewrite Hs in Hf by congruence. discriminate. }
    destruct Hsr as [s0 [-> Hs0]].
    destruct (carvePacket data) as [[msg|pType pData] buf].
    + injection E as <-. unfold flow_inv; cbn.
      split; [split; [congruence | split; [|lia]] | lia]. intros Hr. destruct s0; [reflexivity|].
      exfalso. apply Hr, Hs0. reflexivity.
    + destruct (negb s0 && negb (pType =? COM_QUERY)) eqn:Eg.
      * injection E as <-. unfold flow_inv; cbn.
        split; [split; [congruence | split; [|lia]] | lia]. intros Hr. destruct s0; [reflexivity|].
        exfalso. apply Hr, Hs0. reflexivity.
      * destruct (pType =? COM_QUERY);
          [destruct (parseComQuery pData); [| |discriminate]|];
          injection E as <-; unfold flow_inv; cbn;
          (split; [split; [congruence | split; [intros _; reflexivity | lia]] | lia]).
  - injection E as <-. unfold processResponse, flow_inv.
    destruct (reqSent rs); cbn;
      (split; [split; [intros Hn; congruence | split; [intros Hn; congruence | lia]] | lia]).
Qed.

Lemma run_flow_inv tr : forall rs rs',
  flow_inv rs -> run rs tr = Some rs' ->
  flow_inv rs' /\ queryCount rs' <= queryCount rs + Z.of_nat (length (filter is_request tr)).
Proof.
  induction tr as [|e tr IH]; intros rs rs' Hi E.
  - injection E as <-. cbn. split; [exact Hi | lia].
  - cbn [run] in E. destruct (processPacket rs e) as [rs1|] eqn:E1; [|discriminate].
    destruct (processPacket_flow_inv _ _ _ Hi E1) as [Hi1 Hq1].
    destruct (IH _ _ Hi1 E) as [Hi' Hq'].
    split; [exact Hi'|]. cbn [filter].
    destruct (is_request e); cbn [length]; lia.
Qed.

(** X11: in every state a flow reaches from a fresh [source] (not
    synchronised, no buffers, no outstanding request), a stored response
    buffer means no request is outstanding, and an outstanding request
    timestamp means the flow is synchronised. *)
Theorem run_state_invariant tr rs :
  run new_source tr = Some rs ->
  (respBuffer rs <> None -> reqSent rs = None)
  /\ (reqSent rs <> None -> synced rs = true).
Proof.
  intros E.
  assert (H0 : flow_inv new_source) by (unfold flow_inv; cbn; split; [congruence|]; split; [congruence|lia]).
  destruct (run_flow_inv tr _ _ H0 E) as [(H1 & H2 & _) _].
  split; [exact H1 | exact H2].
Qed.

(** Witness for X11: a query, its response, then a ping left unanswered. *)
Lemma run_state_invariant_witness :
  let tr := [Req query_frame 1; Resp ok_segment; Req ping_frame 2] in
  run new_source tr = Some (mk_source true [] None (Some 2) 2)
  /\ (let rs := mk_source true [] None (Some 2) 2 in
      (respBuffer rs <> None -> reqSent rs = None)
      /\ (reqSent rs <> None -> synced rs = true)).
Proof.
  intros tr.
  assert (E : run new_source tr = Some (mk_source true [] None (Some 2) 2))
    by (vm_compute; reflexivity).
  split; [exact E|]. exact (run_state_invariant tr _ E).
Defined.

(** ** What the canonicalizer never emits *)

(** A byte that may appear in a fingerprint: no quote character, and no
    whitespace other than the plain space. *)
Definition fingerprint_byte (b : byte) : bool :=
  negb (is_quote b) && (negb (is_ws b) || (b =? SP)).

Lemma word_cont_fingerprint (b : byte) :
  is_word_cont b = true -> fingerprint_byte b = true.
Proof.
  unfold is_word_cont, is_digit, is_alpha, fingerprint_byte, is_quote, is_ws, SP.
  intros H. repeat rewrite orb_true_iff, ?andb_true_iff, ?Z.eqb_eq, ?Z.leb_le in H.
  destruct (Z.eqb_spec b 39); [lia|]. destruct (Z.eqb_spec b 34); [lia|]. cbn [orb negb andb].
  destruct (Z.eqb_spec b 32); [rewrite orb_true_r; reflexivity|].
  destruct (Z.leb_spec 9 b), (Z.leb_spec b 13); cbn [andb orb negb]; try reflexivity; lia.
Qed.

Lemma scan_while_shift (p : byte -> bool) (l : list byte) (i : nat) :
  scan_while p l (S i) = S (scan_while p l i).
Proof.
  revert i; induction l as [|c r IH]; intros i; simpl; [reflexivity|].
  destruct (p c); [apply IH | reflexivity].
Qed.

Lemma scan_while_prefix (p : byte -> bool) (l : list byte) :
  all_bytes p (firstn (scan_while p l 0) l) = true.
Proof.
  induction l as [|c r IH]; simpl; [reflexivity|].
  destruct (p c) eqn:Ec; [|reflexivity].
  rewrite scan_while_shift. simpl. rewrite Ec. exact IH.
Qed.

Lemma all_bytes_impl (p p' : byte -> bool) (l : list byte) :
  (forall b, p b = true -> p' b = true) -> all_bytes p l = true -> all_bytes p' l = true.
Proof.
  intros Hp. induction l as [|c r IH]; simpl; [auto|].
  intros H. apply andb_true_iff in H as [H1 H2]. rewrite (Hp c H1), (IH H2). reflexivity.
Qed.

(** Every token the default tokenizer produces emits fingerprint bytes
    only: numbers and quoted strings become [?], whitespace runs a space,
    words keep their word bytes and the other tokens their one byte. *)
Lemma toks_emit_fingerprint (q : list byte) :
  Forall (fun t => all_bytes fingerprint_byte (emit t) = true) (toks q).
Proof.
  unfold toks. remember (length q) as f eqn:Ef. assert (Hf : (length q <= f)%nat) by lia. clear Ef.
  revert q Hf; induction f as [|f IH]; intros q Hf; [constructor|].
  destruct q as [|b r]; [constructor|].
  destruct (scanToken_bounds false (b :: r) ltac:(discriminate)) as [k [ty [E Hk]]].
  cbn [scan_tokens]. rewrite E. constructor.
  - clear IH. unfold emit. cbn [fst snd]. revert E. cbn [scanToken].
    destruct (is_quote b) eqn:Eq; [intros E; injection E as <- <-; reflexivity|].
    destruct (is_digit b) eqn:Ed; [intros E; injection E as <- <-; reflexivity|].
    destruct (is_ws b) eqn:Ew; [intros E; injection E as <- <-; reflexivity|].
    destruct (is_alpha b) eqn:Ea; intros E; injection E as <- <-.
    + rewrite scan_while_shift. cbn [firstn all_bytes].
      unfold fingerprint_byte at 1. rewrite Eq, Ew. cbn [negb andb orb].
      apply (all_bytes_impl is_word_cont); [exact word_cont_fingerprint|].
      apply scan_while_prefix.
    + cbn [firstn all_bytes]. unfold fingerprint_byte. rewrite Eq, Ew. reflexivity.
  - apply IH. rewrite length_skipn. cbn [length] in *. lia.
Qed.

Lemma all_bytes_firstn (p : byte -> bool) (n : nat) (l : list byte) :
  all_bytes p l = true -> all_bytes p (firstn n l) = true.
Proof.
  revert l; induction n as [|n IH]; intros [|c r] H; simpl in *; auto.
  apply andb_true_iff in H as [H1 H2]. rewrite H1. apply IH, H2.
Qed.

Lemma all_bytes_skipn (p : byte -> bool) (n : nat) (l : list byte) :
  all_bytes p l = true -> all_bytes p (skipn n l) = true.
Proof.
  revert l; induction n as [|n IH]; intros [|c r] H; simpl in *; auto.
  apply andb_true_iff in H as [_ H2]. apply IH, H2.
Qed.

Lemma all_bytes_forall (p : byte -> bool) (l : list byte) :
  all_bytes p l = true <-> forall x, In x l -> p x = true.
Proof.
  induction l as [|c r IH]; simpl; [split; [intros _ x [] | reflexivity]|].
  rewrite andb_true_iff, IH. split.
  - intros [H1 H2] x [<- | Hx]; auto.
  - intros H. split; auto.
Qed.

Lemma route_strip_bytes (p : byte -> bool) (tmp : list byte) :
  p SP = true -> p 47 = true -> p 42 = true ->
  all_bytes p tmp = true -> all_bytes p (route_strip tmp) = true.
Proof.
  intros H32 H47 H42 Ht.
  destruct (route_strip_shape tmp) as [E | [a0 [h [r [a4 [Et [_ Er]]]]]]]; [rewrite E; exact Ht|].
  rewrite Er. rewrite Et in Ht. apply all_bytes_forall. rewrite all_bytes_forall in Ht.
  intros x Hx. repeat ((rewrite in_app_iff in Hx) || (progress cbn [In] in Hx)).
  decompose [or] Hx; subst; try assumption;
    apply Ht; repeat ((rewrite in_app_iff) || (progress cbn [In])); tauto.
Qed.

Lemma replace_qcs_bytes (p : byte -> bool) (s : list byte) :
  all_bytes p s = true -> all_bytes p (replace_qcs s) = true.
Proof.
  remember (length s) as n eqn:Hn. revert s Hn.
  induction n as [n IH] using lt_wf_ind; intros s Hn H.
  destruct s as [|a [|b [|c r]]]; try exact H.
  rewrite replace_qcs_step. cbn [all_bytes] in H.
  apply andb_true_iff in H as [Ha H]. destruct (_ && _ && _).
  - apply andb_true_iff in H as [_ H]. apply andb_true_iff in H as [_ H].
    apply (IH (length r)); [cbn [length] in Hn; lia | reflexivity | exact H].
  - cbn [all_bytes]. rewrite Ha. apply (IH (length (b :: c :: r))); [cbn [length] in *; lia | reflexivity |].
    exact H.
Qed.

(** The fingerprint of any query contains no quote character and no tab,
    newline, vertical tab, form feed or carriage return: string literals
    leave only a [?] behind and every whitespace run becomes one space. *)
Theorem canonicalize_fingerprint_bytes (q : list byte) :
  all_bytes fingerprint_byte (canonicalize q) = true.
Proof.
  unfold canonicalize, cleanupQuery. apply replace_qcs_bytes, route_strip_bytes; try reflexivity.
  rewrite joined_toks. apply all_bytes_concat, Forall_map. apply toks_emit_fingerprint.
Qed.

(** ** [formatQueryText] *)

(** The [F_ROUTE] case of [formatQueryText]:
    [parts := strings.SplitN(string(pdata), " ", 5)]; with
    [len(parts) >= 4 && parts[1] == "/*" && parts[3] == "*/"] the route is
    what follows the first colon of [parts[2]], or all of [parts[2]];
    otherwise ["(unknown) "] and the cleaned query. *)
Definition route_text (noclean_mode : bool) (pdata : list byte) : list byte :=
  let parts := SplitN 5 SP pdata in
  if (4 <=? length parts)%nat && bytes_eqb (nth 1 parts []) (bytes_of "/*")
     && bytes_eqb (nth 3 parts []) (bytes_of "*/") then
    if mem_byte COLON (nth 2 parts []) then nth 1 (SplitN 2 COLON (nth 2 parts [])) []
    else nth 2 parts []
  else bytes_of "(unknown) " ++ cleanupQuery noclean_mode pdata.

(** The loop of [formatQueryText] over the global [format], with the text
    built so far; [None] is a [log.Fatalf].  [dirty] is the [-u] flag,
    [noclean_mode] the flag [cleanupQuery] hands to [scanToken], and
    [hostPort] and [srcIP] the fields of the flow. *)
Fixpoint format_text (dirty noclean_mode : bool) (hostPort srcIP pdata : list byte)
    (format : list fitem) (text : list byte) : option (list byte) :=
  match format with
  | [] => Some text
  | FStr s :: rest => format_text dirty noclean_mode hostPort srcIP pdata rest (text ++ bytes_of s)
  | FInt n :: rest =>
      let piece :=
        if n =? F_NONE then None
        else if n =? F_QUERY then
          Some (if dirty then pdata else cleanupQuery noclean_mode pdata)
        else if n =? F_ROUTE then Some (route_text noclean_mode pdata)
        else if n =? F_SOURCE then Some hostPort
        else if n =? F_SOURCEIP then Some srcIP
        else None in
      match piece with
      | None => None
      | Some p => format_text dirty noclean_mode hostPort srcIP pdata rest (text ++ p)
      end
  end.

Definition formatQueryText (dirty noclean_mode : bool) (format : list fitem)
    (hostPort srcIP pdata : list byte) : option (list byte) :=
  format_text dirty noclean_mode hostPort srcIP pdata format [].

(** The items [parseFormat] can append: strings and the four field tags. *)
Definition valid_item (it : fitem) : bool :=
  match it with
  | FStr _ => true
  | FInt n => (n =? F_QUERY) || (n =? F_ROUTE) || (n =? F_SOURCE) || (n =? F_SOURCEIP)
  end.

Lemma special_tag_valid (curstr : string) (ch : ascii) :
  fst (special_tag curstr ch) = F_NONE \/ valid_item (FInt (fst (special_tag curstr ch))) = true.
Proof.
  unfold special_tag.
  destruct (Ascii.eqb (to_lower ch) "s"%char); [right; reflexivity|].
  destruct (Ascii.eqb (to_lower ch) "i"%char); [right; reflexivity|].
  destruct (Ascii.eqb (to_lower ch) "r"%char); [right; reflexivity|].
  destruct (Ascii.eqb (to_lower ch) "q"%char); [right; reflexivity|].
  left; reflexivity.
Qed.

Lemma parse_format_loop_valid (chars : list ascii) (sp : bool) (cur : string) (format : list fitem) :
  forallb valid_item format = true ->
  forallb valid_item (parse_format_loop chars sp cur format) = true.
Proof.
  revert sp cur format; induction chars as [|ch rest IH]; intros sp cur format H; cbn [parse_format_loop].
  - destruct (String.eqb cur ""); [exact H|]. rewrite forallb_app, H. reflexivity.
  - destruct (Ascii.eqb ch "#"%char); [destruct sp; apply IH, H|].
    destruct (if sp then special_tag cur ch else (F_NONE, (cur ++ String ch EmptyString)%string))
      as [da c] eqn:Et.
    assert (Hv : da = F_NONE \/ valid_item (FInt da) = true).
    { destruct sp.
      - pose proof (special_tag_valid cur ch) as V. rewrite Et in V. exact V.
      - injection Et as <- _. left; reflexivity. }
    destruct (Z.eqb_spec da F_NONE) as [|Hn]; [apply IH, H|].
    destruct Hv as [Hv|Hv]; [contradiction|].
    destruct (String.eqb c ""); apply IH; rewrite forallb_app, H; cbn [forallb]; rewrite Hv; reflexivity.
Qed.

Lemma format_text_valid (d nm : bool) (hp ip pdata : list byte) (format : list fitem) (text : list byte) :
  forallb valid_item format = true ->
  exists out, format_text d nm hp ip pdata format text = Some out.
Proof.
  revert text; induction format as [|[s|n] rest IH]; intros text H; cbn [format_text]; [eauto| |].
  - apply IH. exact H.
  - cbn [forallb valid_item] in H. apply andb_true_iff in H as [Hn H].
    unfold F_NONE, F_QUERY, F_ROUTE, F_SOURCE, F_SOURCEIP in *.
    destruct (Z.eqb_spec n 12); [subst; discriminate|].
    destruct (n =? 13); [apply IH, H|]. destruct (n =? 14); [apply IH, H|].
    destruct (n =? 15); [apply IH, H|]. destruct (n =? 16); [apply IH, H|].
    discriminate.
Qed.

(** Whatever the template, the format list [parseFormat] builds at startup
    never makes [formatQueryText] stop the program: every int it holds is
    one of the four field tags, so the [F_NONE] and unknown-tag fatal
    branches are never reached. *)
Theorem formatQueryText_parseFormat_total (formatstr : string) (dirty noclean_mode : bool)
    (hostPort srcIP pdata : list byte) :
  exists text, formatQueryText dirty noclean_mode (parseFormat [] formatstr) hostPort srcIP pdata = Some text.
Proof.
  apply format_text_valid. unfold parseFormat. apply parse_format_loop_valid. reflexivity.
Qed.

Lemma index_of_none (sep : byte) (s : list byte) :
  mem_byte sep s = false -> index_of sep s = None.
Proof.
  induction s as [|c s IH]; simpl; [reflexivity|].
  intros H. apply orb_false_iff in H as [H1 H2]. rewrite H1, (IH H2). reflexivity.
Qed.

Lemma SplitN_none (sep : byte) (n : nat) (s : list byte) :
  mem_byte sep s = false -> SplitN (S n) sep s = [s].
Proof.
  intros H. destruct n as [|n]; [reflexivity|].
  change (SplitN (S (S n)) sep s) with
    (match index_of sep s with
     | None => [s]
     | Some m => firstn m s :: SplitN (S n) sep (skipn (S m) s) end).
  rewrite index_of_none by exact H. reflexivity.
Qed.

(** The [#r] field of a query [w /* c */ ...] whose words [w] and [c]
    hold no space: the route is [c] after its first colon, or all of [c]
    when it holds none.  A query with no space at all gives
    ["(unknown) "] and the cleaned query. *)
Theorem formatQueryText_route (dirty noclean_mode : bool) (hostPort srcIP w c tail : list byte) :
  mem_byte SP w = false -> mem_byte SP c = false ->
  (tail = [] \/ hd 0 tail = SP) ->
  let pdata := w ++ bytes_of " /* " ++ c ++ bytes_of " */" ++ tail in
  (mem_byte COLON c = false ->
   formatQueryText dirty noclean_mode [FInt F_ROUTE] hostPort srcIP pdata = Some c)
  /\ (forall h r, c = h ++ COLON :: r -> mem_byte COLON h = false ->
      formatQueryText dirty noclean_mode [FInt F_ROUTE] hostPort srcIP pdata = Some r)
  /\ (forall q, mem_byte SP q = false ->
      formatQueryText dirty noclean_mode [FInt F_ROUTE] hostPort srcIP q
      = Some (bytes_of "(unknown) " ++ cleanupQuery noclean_mode q)).
Proof.
  intros Hw Hc Ht pdata.
  assert (Hparts : exists more, SplitN 5 SP pdata = w :: bytes_of "/*" :: c :: bytes_of "*/" :: more).
  { change pdata with (w ++ SP :: [47; 42] ++ SP :: c ++ SP :: [42; 47] ++ tail).
    rewrite SplitN_field by exact Hw. rewrite SplitN_field by reflexivity.
    rewrite SplitN_field by exact Hc.
    destruct Ht as [-> | Ht].
    - exists []. reflexivity.
    - destruct tail as [|t rest]; [exists []; reflexivity|]. cbn in Ht. subst t.
      exists [rest]. change (bytes_of "*/" ++ SP :: rest) with ([42; 47] ++ SP :: rest).
      rewrite SplitN_field by reflexivity. reflexivity. }
  destruct Hparts as [more Hp].
  assert (Hr : route_text noclean_mode pdata
               = if mem_byte COLON c then nth 1 (SplitN 2 COLON c) [] else c).
  { unfold route_text. rewrite Hp. cbn [length nth].
    rewrite (proj2 (Nat.leb_le 4 _)) by lia. reflexivity. }
  split; [|split].
  - intros Hn. unfold formatQueryText. cbn [format_text]. rewrite Hr, Hn. reflexivity.
  - intros h r -> Hh. unfold formatQueryText. cbn [format_text]. rewrite Hr, mem_byte_middle.
    rewrite SplitN_field by exact Hh. reflexivity.
  - intros q Hs. unfold formatQueryText. cbn [format_text]. unfold route_text.
    rewrite SplitN_none by exact Hs. reflexivity.
Qed.

Lemma formatQueryText_route_witness :
  formatQueryText false false [FInt F_ROUTE] [] [] (bytes_of "SELECT /* web01:users */ * FROM t")
  = Some (bytes_of "users").
Proof.
  exact (proj1 (proj2 (formatQueryText_route false false [] [] (bytes_of "SELECT")
           (bytes_of "web01:users") (bytes_of " * FROM t") eq_refl eq_refl (or_intror eq_refl)))
           (bytes_of "web01") (bytes_of "users") eq_refl eq_refl).
Defined.

(** ** Literal [#] in a [parseFormat] template *)

(** A template text with every [#] written twice. *)
Fixpoint escape_hash (cs : list ascii) : list ascii :=
  match cs with
  | [] => []
  | c :: r => if Ascii.eqb c "#"%char then "#"%char :: "#"%char :: escape_hash r else c :: escape_hash r
  end.

Lemma parse_format_loop_escaped (cs : list ascii) (cur : string) (format : list fitem) :
  parse_format_loop (escape_hash cs) false cur format
  = parse_format_loop [] false (cur ++ string_of_list_ascii cs)%string format.
Proof.
  revert cur; induction cs as [|c r IH]; intros cur; cbn [escape_hash string_of_list_ascii].
  - rewrite str_app_nil_r. reflexivity.
  - destruct (Ascii.eqb c "#"%char) eqn:Ec.
    + apply Ascii.eqb_eq in Ec. subst c. cbn [parse_format_loop Ascii.eqb Bool.eqb].
      rewrite IH, str_app_assoc. reflexivity.
    + cbn [parse_format_loop]. rewrite Ec. cbn [Z.eqb F_NONE Pos.eqb].
      rewrite IH, str_app_assoc. reflexivity.
Qed.

Lemma trim_left_id (l : list ascii) :
  is_space_char (hd "a"%char l) = false -> trim_left l = l.
Proof. destruct l as [|c r]; [reflexivity|]. cbn [hd trim_left]. intros H. rewrite H. reflexivity. Qed.

Lemma hd_escape_hash (cs : list ascii) : hd "a"%char (escape_hash cs) = hd "a"%char cs.
Proof.
  destruct cs as [|c r]; [reflexivity|]. cbn [escape_hash].
  destruct (Ascii.eqb c "#"%char) eqn:E; [apply Ascii.eqb_eq in E; subst; reflexivity | reflexivity].
Qed.

Lemma last_escape_hash (cs : list ascii) : last (escape_hash cs) "a"%char = last cs "a"%char.
Proof.
  induction cs as [|c r IH]; [reflexivity|]. cbn [escape_hash].
  destruct (Ascii.eqb c "#"%char) eqn:E.
  - apply Ascii.eqb_eq in E. subst c. destruct r as [|d r]; [reflexivity|].
    change (last ("#" :: "#" :: escape_hash (d :: r)) "a" = last (d :: r) "a")%char.
    rewrite <- IH. cbn [escape_hash]. destruct (Ascii.eqb d "#"%char); reflexivity.
  - destruct r as [|d r]; [reflexivity|].
    change (last (c :: escape_hash (d :: r)) "a" = last (d :: r) "a")%char.
    rewrite <- IH. cbn [escape_hash]. destruct (Ascii.eqb d "#"%char); reflexivity.
Qed.

Lemma hd_rev_last (l : list ascii) (d : ascii) : hd d (rev l) = last l d.
Proof.
  induction l as [|c r IH] using rev_ind; [reflexivity|].
  rewrite rev_app_distr, last_last. reflexivity.
Qed.

Lemma TrimSpace_id (l : list ascii) :
  is_space_char (hd "a"%char l) = false -> is_space_char (last l "a"%char) = false ->
  TrimSpace (string_of_list_ascii l) = string_of_list_ascii l.
Proof.
  intros H1 H2. unfold TrimSpace. rewrite list_ascii_of_string_of_list_ascii.
  rewrite (trim_left_id l H1), trim_left_id, rev_involutive by (rewrite hd_rev_last; exact H2).
  reflexivity.
Qed.

(** Writing every [#] of an ASCII template twice makes [parseFormat]
    read the whole template as one literal string: a doubled [#] stands
    for one [#] and no field tag is produced.  The template must not start
    or end with whitespace, which [strings.TrimSpace] would remove. *)
Theorem parseFormat_escaped (cs : list ascii) :
  cs <> [] -> forallb (fun a => Nat.ltb (nat_of_ascii a) 128) cs = true ->
  is_space_char (hd "a"%char cs) = false -> is_space_char (last cs "a"%char) = false ->
  parseFormat [] (string_of_list_ascii (escape_hash cs)) = [FStr (string_of_list_ascii cs)].
Proof.
  intros Hne _ H1 H2. unfold parseFormat.
  rewrite TrimSpace_id by (rewrite ?hd_escape_hash, ?last_escape_hash; assumption).
  assert (Hs : String.eqb (string_of_list_ascii (escape_hash cs)) "" = false).
  { destruct cs as [|c r]; [congruence|]. cbn [escape_hash].
    destruct (Ascii.eqb c "#"%char); reflexivity. }
  rewrite Hs, list_ascii_of_string_of_list_ascii, parse_format_loop_escaped.
  cbn [parse_format_loop]. cbn [String.append].
  assert (Hc : String.eqb (string_of_list_ascii cs) "" = false).
  { destruct cs as [|c r]; [congruence | reflexivity]. }
  rewrite Hc. reflexivity.
Qed.

Lemma parseFormat_escaped_witness :
  parseFormat [] "Q##1 ##s" = [FStr "Q#1 #s"].
Proof.
  change (parseFormat [] (string_of_list_ascii (escape_hash (list_ascii_of_string "Q#1 #s")))
          = [FStr (string_of_list_ascii (list_ascii_of_string "Q#1 #s"))]).
  exact (parseFormat_escaped (list_ascii_of_string "Q#1 #s") ltac:(discriminate)
           eq_refl eq_refl eq_refl).
Defined.
